(** * spotify-api-server: a shallow embedding of [server.c]

    The server bridges HTTP requests to libspotify playlists.  A request
    that cannot be answered at once is parked as a [playlist_handler] in
    the playlist's callback set and resumed by a libspotify notification.

    The embedding keeps the functions of [server.c] under their names.
    State that the C code reaches through pointers (the playlists, their
    callback sets, the [malloc]ed handlers, what was sent to the client)
    is threaded through a state-and-error monad over [world]; [None]
    stands for undefined behaviour of the C program.  Functions of
    jansson, libevent, libc and libspotify are fields of the class
    [Externals].  Reference counting ([sp_playlist_add_ref],
    [sp_link_release], ...) is left out where it only manages memory.
    Two places where the code reads what it has freed are modelled:
    [handle_request] frees [uri] before its [switch] reads the action
    inside it ([token], [strncmp]), and the item loop of the add and
    patch handlers hands borrowed items to [json_decref]
    ([collect_tracks]). *)

From Stdlib Require Import ZArith Ascii String.
From stdpp Require Import base option list gmap strings.

#[local] Set Warnings "-register-all".

(** ** Data *)

(** jansson values. *)
Inductive json_t :=
| JNull
| JTrue
| JFalse
| JInteger (n : Z)
| JString (s : string)
| JArray (items : list json_t)
| JObject (fields : list (string * json_t)).

(** libevent request methods ([enum evhttp_cmd_type]). *)
Inductive evhttp_cmd_type :=
| EVHTTP_REQ_GET | EVHTTP_REQ_POST | EVHTTP_REQ_HEAD | EVHTTP_REQ_PUT
| EVHTTP_REQ_DELETE | EVHTTP_REQ_OPTIONS | EVHTTP_REQ_TRACE
| EVHTTP_REQ_CONNECT | EVHTTP_REQ_PATCH.

(** A [struct evhttp_request]: [req_id] is its address. *)
Record evhttp_request := {
  req_id : nat;
  req_command : evhttp_cmd_type;
  req_uri : string;
  req_body : string
}.

Inductive sp_linktype :=
| SP_LINKTYPE_INVALID | SP_LINKTYPE_TRACK | SP_LINKTYPE_ALBUM
| SP_LINKTYPE_ARTIST | SP_LINKTYPE_SEARCH | SP_LINKTYPE_PLAYLIST
| SP_LINKTYPE_PROFILE | SP_LINKTYPE_STARRED | SP_LINKTYPE_LOCALTRACK
| SP_LINKTYPE_IMAGE.

(** A track is known to the server through its link only. *)
Record sp_track := { track_uri : string }.

Record sp_link := {
  link_type : sp_linktype;
  link_string : string;
  link_track : option sp_track      (* sp_link_as_track, NULL as None *)
}.

(** The two callback tables of [server.c]. *)
Inductive sp_playlist_callbacks :=
| playlist_state_changed_callbacks
| playlist_update_in_progress_callbacks.

(** What libspotify knows of a playlist, as far as the server reads it. *)
Record sp_playlist := {
  pl_uri : string;
  pl_loaded : bool;
  pl_name : string;
  pl_owner : string;                (* display name of the owner *)
  pl_collaborative : bool;
  pl_tracks : list sp_track;
  pl_pending : bool                 (* sp_playlist_has_pending_changes *)
}.

(** [handle_playlist_fn]: the functions a handler can point to. *)
Inductive handle_playlist_fn :=
| fn_not_implemented
| fn_get_playlist
| fn_get_playlist_collaborative
| fn_put_playlist_add_tracks
| fn_put_playlist_remove_tracks
| fn_put_playlist_patch.

(** The [void *userdata] values that [handle_request] passes on. *)
Inductive userdata_t := ud_NULL | ud_session | ud_state.

(** [struct playlist_handler]. *)
Record playlist_handler := {
  playlist_callbacks : option sp_playlist_callbacks;
  request : evhttp_request;
  callback : handle_playlist_fn;
  userdata : userdata_t
}.

(** What reaches the client.  [send_reply] sets a JSON content type and
    sends the buffer; [evhttp_send_error] lets libevent build an HTML
    error page. *)
Inductive reply :=
| Reply_json (req : evhttp_request) (code : Z) (message : string) (body : string)
| Reply_html_error (req : evhttp_request) (code : Z) (reason : string).

(** Mutation primitives of libspotify, as called. *)
Inductive backend_call :=
| Call_add_tracks (playlist : nat) (tracks : list sp_track) (position : Z)
| Call_remove_tracks (playlist : nat) (indices : list Z).

(** Modelled from the spec: the operations of an Edit Script, "each
    either [Remove(start_index, count)] or [Insert(start_index, items)]"
    (the [svn_diff_t] that [diff.h] hands to [server.c]). *)
Inductive edit_op :=
| Remove (start count : nat)
| Insert (start : nat) (items : list sp_track).

#[global] Instance evhttp_cmd_type_eq_dec : EqDecision evhttp_cmd_type.
Proof. solve_decision. Defined.
#[global] Instance evhttp_request_eq_dec : EqDecision evhttp_request.
Proof. solve_decision. Defined.
#[global] Instance sp_linktype_eq_dec : EqDecision sp_linktype.
Proof. solve_decision. Defined.
#[global] Instance sp_track_eq_dec : EqDecision sp_track.
Proof. solve_decision. Defined.
#[global] Instance sp_playlist_callbacks_eq_dec : EqDecision sp_playlist_callbacks.
Proof. solve_decision. Defined.

Definition SP_ERROR_OK : Z := 0.
Definition HTTP_OK : Z := 200.
Definition HTTP_BADREQUEST : Z := 400.
Definition HTTP_NOTFOUND : Z := 404.
Definition INT_MAX : Z := 2147483647.

(** ** The outside world *)

(** Functions of the libraries the server links against.  [json_loads]
    gives the value or the text of [json_error_t]; [evhttp_find_query]
    is [evhttp_parse_query] followed by [evhttp_find_header]; [sscanf_int]
    is [sscanf (s, "%d", &i)], [None] when it returns 0 or [EOF].  The
    mutation primitives return the error code together with what
    [sp_playlist_track] and [sp_playlist_has_pending_changes] report
    afterwards. *)
Class Externals := {
  json_loads : string → json_t + string;
  json_dumps : json_t → string;
  evhttp_decode_uri : string → string;
  evhttp_find_query : string → string → option string;
  sscanf_int : string → option Z;
  sp_link_create_from_string : string → option sp_link;
  sp_playlist_create : sp_link → option nat;
  sp_error_message : Z → string;
  backend_add_tracks :
    sp_playlist → list sp_track → Z → Z * list sp_track * bool;
  backend_remove_tracks :
    sp_playlist → list Z → Z * list sp_track * bool
}.

(** ** The state the C code works on *)

(** [playlists] and [callbacks] are libspotify's: what each
    [sp_playlist *] points to and the (callbacks, userdata) pairs
    registered on it, in the order of registration.  [heap] holds the
    [malloc]ed handlers; [next_addr] is the next address [malloc] hands
    out, so that an address is never used twice.  The last lists record
    what the server did, oldest first: the replies sent, the mutation
    primitives called, and the handlers that [playlist_dispatch] called.
    [loop_running] is cleared by [event_base_loopbreak]. *)
Record world := {
  playlists : gmap nat sp_playlist;
  callbacks : gmap nat (list (sp_playlist_callbacks * nat));
  heap : gmap nat playlist_handler;
  next_addr : nat;
  replies : list reply;
  calls : list backend_call;
  invoked : list nat;
  loop_running : bool
}.

(** ** A state-and-error monad over [world] *)

Definition M (A : Type) : Type := world → option (A * world).

Definition ret {A} (a : A) : M A := λ w, Some (a, w).

Definition bind {A B} (m : M A) (k : A → M B) : M B :=
  λ w, match m w with
       | Some (a, w1) => k a w1
       | None => None
       end.

(** Undefined behaviour of the C program. *)
Definition crash {A} : M A := λ _, None.

Declare Scope world_scope.
Delimit Scope world_scope with world.
Notation "x <- m ;; k" := (bind m (λ x, k))
  (at level 100, m at next level, right associativity) : world_scope.
Notation "m ;; k" := (bind m (λ _, k))
  (at level 100, right associativity) : world_scope.
Open Scope world_scope.

Definition set_playlists (f : gmap nat sp_playlist → gmap nat sp_playlist)
    (w : world) : world :=
  {| playlists := f (playlists w); callbacks := callbacks w; heap := heap w;
     next_addr := next_addr w; replies := replies w; calls := calls w;
     invoked := invoked w; loop_running := loop_running w |}.

Definition set_callbacks
    (f : gmap nat (list (sp_playlist_callbacks * nat)) →
         gmap nat (list (sp_playlist_callbacks * nat)))
    (w : world) : world :=
  {| playlists := playlists w; callbacks := f (callbacks w); heap := heap w;
     next_addr := next_addr w; replies := replies w; calls := calls w;
     invoked := invoked w; loop_running := loop_running w |}.

Definition set_heap (f : gmap nat playlist_handler → gmap nat playlist_handler)
    (w : world) : world :=
  {| playlists := playlists w; callbacks := callbacks w; heap := f (heap w);
     next_addr := next_addr w; replies := replies w; calls := calls w;
     invoked := invoked w; loop_running := loop_running w |}.

Definition set_next_addr (f : nat → nat) (w : world) : world :=
  {| playlists := playlists w; callbacks := callbacks w; heap := heap w;
     next_addr := f (next_addr w); replies := replies w; calls := calls w;
     invoked := invoked w; loop_running := loop_running w |}.

Definition set_replies (f : list reply → list reply) (w : world) : world :=
  {| playlists := playlists w; callbacks := callbacks w; heap := heap w;
     next_addr := next_addr w; replies := f (replies w); calls := calls w;
     invoked := invoked w; loop_running := loop_running w |}.

Definition set_calls (f : list backend_call → list backend_call)
    (w : world) : world :=
  {| playlists := playlists w; callbacks := callbacks w; heap := heap w;
     next_addr := next_addr w; replies := replies w; calls := f (calls w);
     invoked := invoked w; loop_running := loop_running w |}.

Definition set_invoked (f : list nat → list nat) (w : world) : world :=
  {| playlists := playlists w; callbacks := callbacks w; heap := heap w;
     next_addr := next_addr w; replies := replies w; calls := calls w;
     invoked := f (invoked w); loop_running := loop_running w |}.

Definition set_loop_running (b : bool) (w : world) : world :=
  {| playlists := playlists w; callbacks := callbacks w; heap := heap w;
     next_addr := next_addr w; replies := replies w; calls := calls w;
     invoked := invoked w; loop_running := b |}.

Definition modify (f : world → world) : M unit := λ w, Some (tt, f w).

(** The callback set of playlist [p]. *)
Definition cbs (w : world) (p : nat) : list (sp_playlist_callbacks * nat) :=
  default [] (callbacks w !! p).

(** Handler [h] sits in some callback set. *)
Definition registered (w : world) (h : nat) : Prop :=
  ∃ p k, (k, h) ∈ cbs w p.

(** Reading through a [sp_playlist *]. *)
Definition playlist_data (playlist : nat) : M sp_playlist :=
  λ w, match playlists w !! playlist with
       | Some pl => Some (pl, w)
       | None => None
       end.

(** Reading through a [struct playlist_handler *]. *)
Definition handler_data (handler : nat) : M playlist_handler :=
  λ w, match heap w !! handler with
       | Some hd => Some (hd, w)
       | None => None
       end.

Definition malloc (hd : playlist_handler) : M nat :=
  λ w, Some (next_addr w,
             set_next_addr S (set_heap (insert (next_addr w) hd) w)).

Definition free (handler : nat) : M unit :=
  modify (set_heap (delete handler)).

(** ** libspotify: callback sets and mutation primitives *)

Definition sp_playlist_add_callbacks (playlist : nat)
    (k : sp_playlist_callbacks) (handler : nat) : M unit :=
  modify (λ w, set_callbacks (insert playlist (cbs w playlist ++ [(k, handler)])) w).

(** libspotify drops the pair (callbacks, userdata); a NULL table matches
    no registration. *)
Definition sp_playlist_remove_callbacks (playlist : nat)
    (k : option sp_playlist_callbacks) (handler : nat) : M unit :=
  match k with
  | Some k =>
      modify (λ w, set_callbacks
                     (insert playlist (filter (λ e, e ≠ (k, handler)) (cbs w playlist))) w)
  | None => ret tt
  end.

Definition with_backend_result (pl : sp_playlist)
    (r : Z * list sp_track * bool) : sp_playlist :=
  {| pl_uri := pl_uri pl; pl_loaded := pl_loaded pl; pl_name := pl_name pl;
     pl_owner := pl_owner pl; pl_collaborative := pl_collaborative pl;
     pl_tracks := r.1.2; pl_pending := r.2 |}.

Section server.
Context `{!Externals}.

Definition sp_playlist_add_tracks (playlist : nat) (tracks : list sp_track)
    (position : Z) (session : userdata_t) : M Z :=
  pl <- playlist_data playlist ;;
  let r := backend_add_tracks pl tracks position in
  modify (set_playlists (insert playlist (with_backend_result pl r))) ;;
  modify (set_calls (λ cs, cs ++ [Call_add_tracks playlist tracks position])) ;;
  ret r.1.1.

Definition sp_playlist_remove_tracks (playlist : nat) (tracks : list Z) : M Z :=
  pl <- playlist_data playlist ;;
  let r := backend_remove_tracks pl tracks in
  modify (set_playlists (insert playlist (with_backend_result pl r))) ;;
  modify (set_calls (λ cs, cs ++ [Call_remove_tracks playlist tracks])) ;;
  ret r.1.1.

(** ** Replies *)

Definition send_reply (request : evhttp_request) (code : Z) (message : string)
    (buf : string) : M unit :=
  modify (set_replies (λ rs, rs ++ [Reply_json request code message buf])).

Definition evhttp_send_error (request : evhttp_request) (code : Z)
    (reason : string) : M unit :=
  modify (set_replies (λ rs, rs ++ [Reply_html_error request code reason])).

(** jansson: [json_object_set] replaces the value of an existing key and
    appends a new key otherwise. *)
Fixpoint fields_set (fields : list (string * json_t)) (key : string)
    (v : json_t) : list (string * json_t) :=
  match fields with
  | [] => [(key, v)]
  | (k, x) :: rest =>
      if decide (k = key) then (k, v) :: rest
      else (k, x) :: fields_set rest key v
  end.

Definition json_object_set (o : json_t) (key : string) (v : json_t) : json_t :=
  match o with
  | JObject fields => JObject (fields_set fields key v)
  | _ => o
  end.

Definition json_array_append (a : json_t) (v : json_t) : json_t :=
  match a with
  | JArray items => JArray (items ++ [v])
  | _ => a
  end.

(* Will wrap an error message in a JSON object before sending it *)
Definition send_error (request : evhttp_request) (code : Z)
    (message : string) : M unit :=
  let error_object := json_object_set (JObject []) "message" (JString message) in
  let error := json_dumps error_object in
  send_reply request code message error.

Definition send_error_sp (request : evhttp_request) (code : Z)
    (error : Z) : M unit :=
  send_error request code (sp_error_message error).

(** ** The continuation registry *)

Definition register_playlist_callbacks (playlist : nat)
    (request : evhttp_request) (callback : handle_playlist_fn)
    (playlist_callbacks : sp_playlist_callbacks) (userdata : userdata_t) : M nat :=
  handler <- malloc {| request := request; callback := callback;
                       playlist_callbacks := Some playlist_callbacks;
                       userdata := userdata |} ;;
  sp_playlist_add_callbacks playlist playlist_callbacks handler ;;
  ret handler.

(** ** C strings *)

(** What [strncpy] keeps of a buffer: the bytes before the first NUL. *)
Fixpoint c_string (s : string) : string :=
  match s with
  | EmptyString => EmptyString
  | String c rest =>
      if decide (c = "000"%char) then EmptyString else String c (c_string rest)
  end.

(** The first [n] characters, as [sp_link_as_string] leaves them in a
    buffer of [n + 1] bytes. *)
Fixpoint string_take (n : nat) (s : string) : string :=
  match n, s with
  | S n', String c rest => String c (string_take n' rest)
  | _, _ => EmptyString
  end.

(** The tokens that successive [strtok (_, "/")] calls return. *)
Fixpoint strtok_slash (acc : string) (s : string) : list string :=
  match s with
  | EmptyString => if decide (acc = EmptyString) then [] else [acc]
  | String c rest =>
      if decide (c = "/"%char)
      then (if decide (acc = EmptyString) then strtok_slash EmptyString rest
            else acc :: strtok_slash EmptyString rest)
      else strtok_slash (acc +:+ String c EmptyString) rest
  end.

(** [strncmp (s, lit, strlen lit) == 0]. *)
Definition strncmp_eq (s lit : string) : bool := String.prefix lit s.

(** A [char *] that [strtok] has returned: NULL, or a token inside a
    buffer that is still allocated, or one inside a buffer that has been
    freed since. *)
Inductive token :=
| token_NULL
| token_in (s : string)
| token_freed.

(** What [free] of the buffer leaves of the token in it. *)
Definition free_buffer (t : option string) : token :=
  match t with
  | None => token_NULL
  | Some _ => token_freed
  end.

(** [strncmp (t, lit, strlen lit) == 0] through a token; reading through
    NULL or into freed memory is undefined. *)
Definition strncmp (t : token) (lit : string) : option bool :=
  match t with
  | token_in s => Some (strncmp_eq s lit)
  | token_NULL | token_freed => None
  end.

(** ** HTTP handlers *)

(* Standard response handler: 500 Not Implemented *)
Definition not_implemented (playlist : nat) (request : evhttp_request)
    (userdata : userdata_t) : M unit :=
  evhttp_send_error request 500 "Not Implemented".

Definition sp_link_create_from_playlist (pl : sp_playlist) : sp_link :=
  {| link_type := SP_LINKTYPE_PLAYLIST; link_string := pl_uri pl;
     link_track := None |}.

Definition sp_link_create_from_track (track : sp_track) : sp_link :=
  {| link_type := SP_LINKTYPE_TRACK; link_string := track_uri track;
     link_track := Some track |}.

Definition sp_link_as_string (link : sp_link) (buffer_size : nat) : string :=
  string_take (buffer_size - 1) (link_string link).

(** The loop of [get_playlist] over the tracks. *)
Fixpoint append_track_uris (tracks_json : json_t) (tracks : list sp_track) : json_t :=
  match tracks with
  | [] => tracks_json
  | track :: rest =>
      let track_link := sp_link_create_from_track track in
      let track_uri := sp_link_as_string track_link 64 in
      append_track_uris (json_array_append tracks_json (JString track_uri)) rest
  end.

Definition playlist_json (pl : sp_playlist) : json_t :=
  let json := JObject [] in
  let playlist_link := sp_link_create_from_playlist pl in
  let playlist_uri := sp_link_as_string playlist_link 64 in
  let json := json_object_set json "uri" (JString playlist_uri) in
  let json := json_object_set json "title" (JString (pl_name pl)) in
  let json := json_object_set json "creator" (JString (pl_owner pl)) in
  let json := json_object_set json "collaborative"
                (if pl_collaborative pl then JTrue else JFalse) in
  let tracks := append_track_uris (JArray []) (pl_tracks pl) in
  json_object_set json "tracks" tracks.

(* Responds with an entire playlist *)
Definition get_playlist (playlist : nat) (request : evhttp_request)
    (userdata : userdata_t) : M unit :=
  pl <- playlist_data playlist ;;
  let json_str := json_dumps (playlist_json pl) in
  send_reply request 200 "OK" json_str.

Definition get_playlist_collaborative (playlist : nat)
    (request : evhttp_request) (userdata : userdata_t) : M unit :=
  pl <- playlist_data playlist ;;
  (* assert(sp_playlist_is_loaded(playlist)) *)
  if negb (pl_loaded pl) then crash else
  let is_collaborative := pl_collaborative pl in
  let result := json_object_set (JObject []) "collaborative"
                  (if is_collaborative then JTrue else JFalse) in
  send_reply request HTTP_OK "OK" (json_dumps result).

(** jansson counts the references to a number, a string, an array and
    an object and frees the value with the last one; [json_true ()],
    [json_false ()] and [json_null ()] are static, and [json_decref]
    leaves them alone. *)
Definition counted (j : json_t) : bool :=
  match j with
  | JNull | JTrue | JFalse => false
  | _ => true
  end.

(** The loop that turns the JSON items into tracks, with the
    [json_decref (json)] that follows it.  A string that is not a link,
    not a track link or has no track is passed over.  An item that is
    not a string is handed to [json_decref], although [json_array_get]
    only lent it: a counted value is freed by that while the array
    still owns it, and [json_decref (json)] then works on freed memory,
    which is [None]. *)
Fixpoint collect_tracks (items : list json_t) : option (list sp_track) :=
  match items with
  | [] => Some []
  | item :: rest =>
      match item with
      | JString uri =>
          match sp_link_create_from_string uri with
          | None => collect_tracks rest
          | Some track_link =>
              if decide (link_type track_link ≠ SP_LINKTYPE_TRACK)
              then collect_tracks rest
              else match link_track track_link with
                   | None => collect_tracks rest
                   | Some track => (track ::.) <$> collect_tracks rest
                   end
          end
      | _ =>
          (* json_decref (item) *)
          if counted item then None else collect_tracks rest
      end
  end.

Definition put_playlist_add_tracks (playlist : nat) (request : evhttp_request)
    (userdata : userdata_t) : M unit :=
  let session := userdata in
  let uri := req_uri request in
  (* Parse index *)
  match evhttp_find_query uri "index" ≫= sscanf_int with
  | None => send_error request HTTP_BADREQUEST "Bad parameter: index must be numeric"
  | Some index =>
  let buf := req_body request in
  if decide (String.length buf = 0)
  then send_error request HTTP_BADREQUEST "No body" else
  (* Read request body *)
  let request_body := c_string buf in
  (* Parse JSON *)
  match json_loads request_body with
  | inr loads_error_text => send_error request HTTP_BADREQUEST loads_error_text
  | inl json =>
  match json with
  | JArray items =>
      (* Handle empty array *)
      if decide (length items = 0) then send_reply request HTTP_OK "OK" "" else
      match collect_tracks items with
      | None => crash
      | Some tracks =>
      (* Bail if no tracks could be read from input *)
      if decide (length tracks = 0)
      then send_error request HTTP_BADREQUEST "No valid tracks" else
      handler <- register_playlist_callbacks playlist request fn_get_playlist
                   playlist_update_in_progress_callbacks ud_NULL ;;
      add_tracks_error <- sp_playlist_add_tracks playlist tracks index session ;;
      if decide (add_tracks_error ≠ SP_ERROR_OK) then
        hd <- handler_data handler ;;
        sp_playlist_remove_callbacks playlist (playlist_callbacks hd) handler ;;
        free handler ;;
        send_error_sp request HTTP_BADREQUEST add_tracks_error
      else ret tt
      end
  | _ => send_error request HTTP_BADREQUEST "Not valid JSON array"
  end
  end
  end.

Definition put_playlist_remove_tracks (playlist : nat)
    (request : evhttp_request) (userdata : userdata_t) : M unit :=
  let uri := req_uri request in
  (* Parse index *)
  match evhttp_find_query uri "index" ≫= sscanf_int with
  | None => send_error request HTTP_BADREQUEST "Bad parameter: index must be numeric"
  | Some index =>
  if decide (index < 0)%Z
  then send_error request HTTP_BADREQUEST "Bad parameter: index must be numeric" else
  match evhttp_find_query uri "count" ≫= sscanf_int with
  | None =>
      send_error request HTTP_BADREQUEST
        "Bad parameter: count must be numeric and positive"
  | Some count =>
  if decide (count < 1)%Z
  then send_error request HTTP_BADREQUEST
         "Bad parameter: count must be numeric and positive" else
  (* tracks[i] = index + i; signed overflow is undefined *)
  if decide (INT_MAX < index + (count - 1))%Z then crash else
  let tracks := (λ i, index + i)%Z <$> seqZ 0 count in
  handler <- register_playlist_callbacks playlist request fn_get_playlist
               playlist_update_in_progress_callbacks ud_NULL ;;
  remove_tracks_error <- sp_playlist_remove_tracks playlist tracks ;;
  if decide (remove_tracks_error ≠ SP_ERROR_OK) then
    hd <- handler_data handler ;;
    sp_playlist_remove_callbacks playlist (playlist_callbacks hd) handler ;;
    free handler ;;
    send_error_sp request HTTP_BADREQUEST remove_tracks_error
  else ret tt
  end
  end.

End server.

(** ** The diff engine

    [diff.h] declares [diff_playlist_tracks] and
    [diff_playlist_tracks_apply]; their definitions are not part of
    [server.c]. *)

Module Diff.

(** Modelled from the spec: the length of a longest common subsequence,
    the quantity the edit script of [diff_playlist_tracks] is minimal
    for ("a classic longest-common-subsequence-based minimal edit
    distance algorithm").  The model fixes the results, not the cost. *)
Fixpoint lcs_length (a b : list sp_track) : nat :=
  match a with
  | [] => 0
  | x :: a' =>
      (fix inner (b : list sp_track) : nat :=
         match b with
         | [] => 0
         | y :: b' =>
             if decide (x = y) then S (lcs_length a' b')
             else Nat.max (lcs_length a' b) (inner b')
         end) b
  end.

(** Modelled from the spec: one step of an alignment of [current] with
    [desired], the token-level edits that the script groups. *)
Inductive edit :=
| Keep
| Delete
| Add (x : sp_track).

(** Modelled from the spec: the alignment behind the edit script of
    [diff_playlist_tracks].  Equal heads are kept ("prefer
    earliest-index alignment"); otherwise the side is dropped whose
    removal loses nothing of the longest common subsequence, the
    current item on a tie. *)
Fixpoint edits (a b : list sp_track) : list edit :=
  match a with
  | [] => Add <$> b
  | x :: a' =>
      (fix inner (b : list sp_track) : list edit :=
         match b with
         | [] => Delete :: edits a' []
         | y :: b' =>
             if decide (x = y) then Keep :: edits a' b'
             else if decide (lcs_length (x :: a') b' ≤ lcs_length a' b)
                  then Delete :: edits a' b
                  else Add y :: inner b'
         end) b
  end.

(** Modelled from the spec: runs of deletions and of additions become
    one [Remove (start_index, count)] or [Insert (start_index, items)]
    each; [pos] is the index reached in the sequence as edited so far
    (the scenario [A,B,C] to [A,C,D] gives [Remove 1 1; Insert 2 [D]]). *)
Fixpoint script_of (pos : nat) (es : list edit) : list edit_op :=
  match es with
  | [] => []
  | Keep :: es' => script_of (S pos) es'
  | Delete :: es' =>
      match script_of pos es' with
      | Remove s c :: ops =>
          if decide (s = pos) then Remove pos (S c) :: ops
          else Remove pos 1 :: Remove s c :: ops
      | ops => Remove pos 1 :: ops
      end
  | Add x :: es' =>
      match script_of (S pos) es' with
      | Insert s items :: ops =>
          if decide (s = S pos) then Insert pos (x :: items) :: ops
          else Insert pos [x] :: Insert s items :: ops
      | ops => Insert pos [x] :: ops
      end
  end.

(** Modelled from the spec: [compute (current, desired)], the edit script
    of the Diff/Patch Engine. *)
Definition compute (current desired : list sp_track) : list edit_op :=
  script_of 0 (edits current desired).

(** Modelled from the spec: what an edit script does to a sequence when
    its operations are carried out in order. *)
Definition apply_op (op : edit_op) (l : list sp_track) : list sp_track :=
  match op with
  | Remove start count => take start l ++ drop (start + count) l
  | Insert start items => take start l ++ items ++ drop start l
  end.

Definition apply_script (script : list edit_op) (l : list sp_track) : list sp_track :=
  foldl (λ acc op, apply_op op acc) l script.

(** Modelled from the spec: what an alignment makes of the current
    sequence, [None] when it does not fit it. *)
Fixpoint aligned (es : list edit) (a : list sp_track) : option (list sp_track) :=
  match es, a with
  | [], [] => Some []
  | Keep :: es', x :: a' => (x ::.) <$> aligned es' a'
  | Delete :: es', _ :: a' => aligned es' a'
  | Add y :: es', _ => (y ::.) <$> aligned es' a
  | _, _ => None
  end.

End Diff.

Section patch.
Context `{!Externals}.

(** Modelled from the spec: [diff_playlist_tracks] of [diff.c], which
    computes the edit script from the playlist's tracks to the desired
    ones; the spec names no way for it to fail. *)
Definition diff_playlist_tracks (pl : sp_playlist) (tracks : list sp_track)
    : option (list edit_op) :=
  Some (Diff.compute (pl_tracks pl) tracks).

(** Modelled from the spec: [diff_playlist_tracks_apply] of [diff.c]:
    "walks the Edit Script in order, translating each operation into the
    corresponding primitive backend mutation call (bulk insert-at-index,
    bulk remove-range)", and gives up at the first call that fails.  The
    result is the [svn_error_t *], [None] for [SVN_NO_ERROR]. *)
Fixpoint diff_playlist_tracks_apply (diff : list edit_op) (playlist : nat)
    (session : userdata_t) : M (option Z) :=
  match diff with
  | [] => ret None
  | Remove start count :: rest =>
      e <- sp_playlist_remove_tracks playlist
             ((λ i, Z.of_nat start + i)%Z <$> seqZ 0 (Z.of_nat count)) ;;
      if decide (e ≠ SP_ERROR_OK) then ret (Some e)
      else diff_playlist_tracks_apply rest playlist session
  | Insert start items :: rest =>
      e <- sp_playlist_add_tracks playlist items (Z.of_nat start) session ;;
      if decide (e ≠ SP_ERROR_OK) then ret (Some e)
      else diff_playlist_tracks_apply rest playlist session
  end.

Definition put_playlist_patch (playlist : nat) (request : evhttp_request)
    (userdata : userdata_t) : M unit :=
  let state := userdata in
  let buf := req_body request in
  if decide (String.length buf = 0)
  then send_error request HTTP_BADREQUEST "No body" else
  (* Read request body *)
  let request_body := c_string buf in
  (* Parse JSON *)
  match json_loads request_body with
  | inr loads_error_text => send_error request HTTP_BADREQUEST loads_error_text
  | inl json =>
  match json with
  | JArray items =>
      (* Handle empty array *)
      if decide (length items = 0) then send_reply request HTTP_OK "OK" "" else
      match collect_tracks items with
      | None => crash
      | Some tracks =>
      (* Bail if no tracks could be read from input *)
      if decide (length tracks = 0)
      then send_error request HTTP_BADREQUEST "No valid tracks" else
      (* Apply diff *)
      pl <- playlist_data playlist ;;
      match diff_playlist_tracks pl tracks with
      | None => send_error request HTTP_BADREQUEST "Search failed"
      | Some diff =>
          apply_error <- diff_playlist_tracks_apply diff playlist ud_session ;;
          (* diff_output_stdout prints the diff *)
          match apply_error with
          | Some _ => send_error request HTTP_BADREQUEST "Could not apply diff"
          | None =>
              pl' <- playlist_data playlist ;;
              if negb (pl_pending pl') then get_playlist playlist request ud_NULL
              else
                register_playlist_callbacks playlist request fn_get_playlist
                  playlist_update_in_progress_callbacks ud_NULL ;;
                ret tt
          end
      end
      end
  | _ => send_error request HTTP_BADREQUEST "Not valid JSON array"
  end
  end.

(** ** Dispatch through the registry *)

(** A call through a [handle_playlist_fn] pointer. *)
Definition invoke (fn : handle_playlist_fn) (playlist : nat)
    (request : evhttp_request) (userdata : userdata_t) : M unit :=
  match fn with
  | fn_not_implemented => not_implemented playlist request userdata
  | fn_get_playlist => get_playlist playlist request userdata
  | fn_get_playlist_collaborative => get_playlist_collaborative playlist request userdata
  | fn_put_playlist_add_tracks => put_playlist_add_tracks playlist request userdata
  | fn_put_playlist_remove_tracks => put_playlist_remove_tracks playlist request userdata
  | fn_put_playlist_patch => put_playlist_patch playlist request userdata
  end.

Definition clear_playlist_callbacks (hd : playlist_handler) : playlist_handler :=
  {| playlist_callbacks := None; request := request hd;
     callback := callback hd; userdata := userdata hd |}.

(** The first two statements of [playlist_dispatch]: the registration
    leaves the callback set and the handler forgets its table. *)
Definition playlist_detach (playlist : nat) (handler : nat) : M playlist_handler :=
  hd <- handler_data handler ;;
  sp_playlist_remove_callbacks playlist (playlist_callbacks hd) handler ;;
  modify (set_heap (insert handler (clear_playlist_callbacks hd))) ;;
  ret hd.

(** [playlist_dispatch], whose [void *userdata] is the handler; the call
    through [handler->callback] is noted in [invoked]. *)
Definition playlist_dispatch (playlist : nat) (handler : nat) : M unit :=
  hd <- playlist_detach playlist handler ;;
  modify (set_invoked (λ hs, hs ++ [handler])) ;;
  invoke (callback hd) playlist (request hd) (userdata hd) ;;
  free handler.

Definition playlist_state_changed (playlist : nat) (handler : nat) : M unit :=
  pl <- playlist_data playlist ;;
  if negb (pl_loaded pl) then ret tt
  else playlist_dispatch playlist handler.

Definition playlist_update_in_progress (playlist : nat) (done : bool)
    (handler : nat) : M unit :=
  if done then playlist_dispatch playlist handler else ret tt.

(** ** Request dispatcher *)

(** The handler and its userdata that the [switch] of [handle_request]
    picks for a method and an action; [None] where a [strncmp] is
    undefined. *)
Definition select_callback (http_method : evhttp_cmd_type)
    (action : token) : option (handle_playlist_fn * userdata_t) :=
  match http_method with
  | EVHTTP_REQ_GET =>
      match action with
      | token_NULL => Some (fn_get_playlist, ud_NULL)
      | _ =>
          match strncmp action "collaborative" with
          | None => None
          | Some true => Some (fn_get_playlist_collaborative, ud_NULL)
          | Some false => Some (fn_not_implemented, ud_NULL)
          end
      end
  | EVHTTP_REQ_PUT | EVHTTP_REQ_POST =>
      match strncmp action "add" with
      | None => None
      | Some true => Some (fn_put_playlist_add_tracks, ud_session)
      | Some false =>
      match strncmp action "remove" with
      | None => None
      | Some true => Some (fn_put_playlist_remove_tracks, ud_session)
      | Some false =>
      match strncmp action "patch" with
      | None => None
      | Some true => Some (fn_put_playlist_patch, ud_state)
      | Some false => Some (fn_not_implemented, ud_session)
      end
      end
      end
  | _ => Some (fn_not_implemented, ud_NULL)
  end.

(** The last statement of [handle_request]: the handler is called at
    once for a loaded playlist, and parked on state changes
    otherwise. *)
Definition call_when_loaded (playlist : nat) (request : evhttp_request)
    (request_callback : handle_playlist_fn) (callback_userdata : userdata_t)
    : M unit :=
  pl <- playlist_data playlist ;;
  if pl_loaded pl
  then invoke request_callback playlist request callback_userdata
  else
    (* Wait for playlist to load *)
    register_playlist_callbacks playlist request request_callback
      playlist_state_changed_callbacks callback_userdata ;;
    ret tt.

Definition handle_request (request : evhttp_request) : M unit :=
  (* Check request method *)
  let http_method := req_command request in
  match http_method with
  | EVHTTP_REQ_GET | EVHTTP_REQ_PUT | EVHTTP_REQ_POST =>
  let uri := evhttp_decode_uri (req_uri request) in
  (* Handle requests to /playlist/<playlist_uri>/<action> *)
  let tokens := strtok_slash EmptyString uri in
  match tokens !! 0 with
  | None => evhttp_send_error request HTTP_BADREQUEST "Bad Request"
  | Some entity =>
  if negb (strncmp_eq entity "playlist")
  then evhttp_send_error request HTTP_BADREQUEST "Bad Request" else
  match tokens !! 1 with
  | None =>
      match http_method with
      | EVHTTP_REQ_PUT | EVHTTP_REQ_POST => not_implemented 0 request ud_NULL
      | _ => send_error request HTTP_BADREQUEST "Bad Request"
      end
  | Some playlist_uri =>
  match sp_link_create_from_string playlist_uri with
  | None => send_error request HTTP_NOTFOUND "Link not found"
  | Some playlist_link =>
  if decide (link_type playlist_link ≠ SP_LINKTYPE_PLAYLIST)
  then send_error request HTTP_BADREQUEST "Not a playlist link" else
  match sp_playlist_create playlist_link with
  | None => send_error request HTTP_NOTFOUND "Playlist not found"
  | Some playlist =>
  (* Dispatch request: [action] points into [uri], which is freed
     before the [switch] reads it *)
  let action := free_buffer (tokens !! 2) in
  match select_callback http_method action with
  | None => crash
  | Some (request_callback, callback_userdata) =>
      call_when_loaded playlist request request_callback callback_userdata
  end
  end
  end
  end
  end
  | _ => evhttp_send_error request 501 "Not Implemented"
  end.

(** ** The event loop, seen from the playlists *)

Inductive notification :=
| N_state_changed
| N_update_in_progress (done : bool).

(** libspotify calls the slot of a registered table that matches the
    notification; the other slot of either table is NULL. *)
Definition callback_slot (k : sp_playlist_callbacks) (n : notification)
    (playlist : nat) (handler : nat) : M unit :=
  match k, n with
  | playlist_state_changed_callbacks, N_state_changed =>
      playlist_state_changed playlist handler
  | playlist_update_in_progress_callbacks, N_update_in_progress done =>
      playlist_update_in_progress playlist done handler
  | _, _ => ret tt
  end.

(** libspotify walks the registrations it had when the notification was
    raised and calls those that are still registered. *)
Fixpoint deliver (n : notification) (playlist : nat)
    (snapshot : list (sp_playlist_callbacks * nat)) : M unit :=
  match snapshot with
  | [] => ret tt
  | (k, handler) :: rest =>
      (λ w, if decide ((k, handler) ∈ cbs w playlist)
            then callback_slot k n playlist handler w
            else Some (tt, w)) ;;
      deliver n playlist rest
  end.

Definition notify (playlist : nat) (n : notification) : M unit :=
  λ w, deliver n playlist (cbs w playlist) w.

Definition logged_out : M unit :=
  (* event_del, event_base_loopbreak *)
  modify (set_loop_running false).

(** What the event loop hands to the server. *)
Inductive event :=
| Ev_request (request : evhttp_request)
| Ev_notify (playlist : nat) (n : notification)
| Ev_backend (playlist : nat) (pl : sp_playlist)
| Ev_logged_out.

(** One turn of the loop.  [Ev_backend] is libspotify changing what it
    knows of a playlist (it loads, a remote edit arrives, pending changes
    are acknowledged); once the loop is broken nothing is dispatched. *)
Definition step (ev : event) : M unit :=
  λ w, if negb (loop_running w) then Some (tt, w) else
       match ev with
       | Ev_request request => handle_request request w
       | Ev_notify playlist n => notify playlist n w
       | Ev_backend playlist pl => Some (tt, set_playlists (insert playlist pl) w)
       | Ev_logged_out => logged_out w
       end.

Fixpoint run (evs : list event) : M unit :=
  match evs with
  | [] => ret tt
  | ev :: rest => step ev ;; run rest
  end.

End patch.

(** ** The event pump

    [process_events] is the callback of both the timer and the wake-up
    event.  How libspotify answers [sp_session_process_events] is a
    parameter; the [do ... while] loop is bounded by fuel. *)

Module EventLoop.

Record timeval := { tv_sec : Z; tv_usec : Z }.

Record state (session : Type) := {
  st_session : session;
  timer : option timeval;          (* the delay the timer is armed with *)
  next_timeout : timeval;
  pumped : nat                     (* calls of sp_session_process_events *)
}.
Arguments st_session {session}.
Arguments timer {session}.
Arguments next_timeout {session}.
Arguments pumped {session}.

Section pump.
Context {session : Type}.
Variable sp_session_process_events : session → session * Z.

(** The session after [k] calls. *)
Fixpoint session_after (k : nat) (s : session) : session :=
  match k with
  | 0 => s
  | S k' => session_after k' (sp_session_process_events s).1
  end.

(** The timeout that call number [k] (counted from 0) reports. *)
Definition timeout_at (k : nat) (s : session) : Z :=
  (sp_session_process_events (session_after k s)).2.

(** [do { sp_session_process_events (session, &timeout); }
     while (timeout == 0);] *)
Fixpoint drain (fuel : nat) (s : session) : option (session * Z * nat) :=
  match fuel with
  | 0 => None
  | S fuel' =>
      let r := sp_session_process_events s in
      if decide (r.2 = 0)%Z
      then match drain fuel' r.1 with
           | Some (s', timeout, n) => Some (s', timeout, S n)
           | None => None
           end
      else Some (r.1, r.2, 1)
  end.

Definition process_events (fuel : nat) (st : state session) : option (state session) :=
  (* event_del (state->timer) *)
  match drain fuel (st_session st) with
  | None => None
  | Some (s', timeout, n) =>
      let tv := {| tv_sec := Z.quot timeout 1000;
                   tv_usec := Z.rem timeout 1000 * 1000 |} in
      (* evtimer_add (state->timer, &state->next_timeout) *)
      Some {| st_session := s'; timer := Some tv; next_timeout := tv;
              pumped := pumped st + n |}
  end.

(** A [struct timeval] in microseconds. *)
Definition microseconds (tv : timeval) : Z :=
  (tv_sec tv * 1000000 + tv_usec tv)%Z.

End pump.
End EventLoop.

(** ** Start-up and shutdown

    [main] and the callbacks that work on [struct state].  [main]
    [malloc]s the state and assigns [event_base], [async], [timer],
    [sigint] and [pool] before any callback can run; [session] and
    [http] are assigned by callbacks only, so each is a [slot].  The
    callbacks that libevent and libspotify make while
    [event_base_dispatch] runs are a list, those that libspotify makes
    from inside [sp_session_process_events] included; a callback that
    is not registered at its turn is not made.  The HTTP requests
    themselves are the matter of [run] above. *)

Module Lifecycle.

Definition EXIT_FAILURE : Z := 1.

(** A field of the [malloc]ed [struct state]: nothing is known of it
    until it is assigned. *)
Inductive slot (A : Type) : Type :=
| Unassigned
| Assigned (a : A).
Arguments Unassigned {A}.
Arguments Assigned {A} a.

(** Using a field; [None] when nothing has assigned it. *)
Definition read {A} (s : slot A) : option A :=
  match s with
  | Unassigned => None
  | Assigned a => Some a
  end.

Record state := {
  session : slot nat;               (* state->session *)
  http : slot (option nat);         (* state->http, [None] for NULL *)
  async_active : bool;              (* event_active (state->async) *)
  timer_pending : bool;             (* evtimer_add (state->timer) *)
  sigint_added : bool;              (* evsignal_add (state->sigint) *)
  container_callbacks : list nat;   (* userdata of the registrations *)
  listening : bool;                 (* evhttp_bind_socket succeeded *)
  loop_broken : bool;               (* event_base_loopbreak *)
  pool_alive : bool;                (* state->pool *)
  logouts : list nat;               (* calls of sp_session_logout *)
  exit_status : Z                   (* static int exit_status *)
}.

(** [main] before [event_base_dispatch]: [exit_status] is initialised to
    [EXIT_FAILURE], the pool is created, no event is added. *)
Definition initial : state :=
  {| session := Unassigned; http := Unassigned; async_active := false;
     timer_pending := false; sigint_added := false; container_callbacks := [];
     listening := false; loop_broken := false; pool_alive := true;
     logouts := []; exit_status := EXIT_FAILURE |}.

Definition sp_session_logout (s : nat) (st : state) : state :=
  {| session := session st; http := http st; async_active := async_active st;
     timer_pending := timer_pending st; sigint_added := sigint_added st;
     container_callbacks := container_callbacks st; listening := listening st;
     loop_broken := loop_broken st; pool_alive := pool_alive st;
     logouts := logouts st ++ [s]; exit_status := exit_status st |}.

(** [evhttp_new] and [evhttp_bind_socket] answer as the event says;
    [evhttp_set_timeout] works on the pointer without a check. *)
Definition playlistcontainer_loaded (userdata : nat) (evhttp_new : option nat)
    (bound : bool) (st : state) : option state :=
  let s := userdata in
  match evhttp_new with
  | None => None
  | Some server =>
      let st1 :=
        {| session := session st; http := Assigned (Some server);
           async_active := async_active st; timer_pending := timer_pending st;
           sigint_added := sigint_added st;
           container_callbacks := container_callbacks st;
           listening := bound; loop_broken := loop_broken st;
           pool_alive := pool_alive st; logouts := logouts st;
           exit_status := exit_status st |} in
      if bound then Some st1 else Some (sp_session_logout s st1)
  end.

(* Catches SIGINT and exits gracefully *)
Definition sigint_handler (st : state) : option state :=
  match read (session st) with
  | None => None
  | Some s => Some (sp_session_logout s st)
  end.

(** [apr_pool_destroy] of a pool that is already destroyed is
    undefined. *)
Definition logged_out (s : nat) (st : state) : option state :=
  if pool_alive st then
    Some {| session := session st; http := http st; async_active := false;
            timer_pending := false; sigint_added := false;
            container_callbacks := container_callbacks st;
            listening := listening st; loop_broken := true;
            pool_alive := false; logouts := logouts st;
            exit_status := exit_status st |}
  else None.

Definition logged_in (s : nat) (error : Z) (st : state) : option state :=
  if decide (error ≠ SP_ERROR_OK) then
    logged_out s
      {| session := session st; http := http st; async_active := async_active st;
         timer_pending := timer_pending st; sigint_added := sigint_added st;
         container_callbacks := container_callbacks st; listening := listening st;
         loop_broken := loop_broken st; pool_alive := pool_alive st;
         logouts := logouts st; exit_status := EXIT_FAILURE |}
  else
    Some {| session := Assigned s; http := http st;
            async_active := async_active st; timer_pending := timer_pending st;
            sigint_added := true;
            container_callbacks := container_callbacks st ++ [s];
            listening := listening st; loop_broken := loop_broken st;
            pool_alive := pool_alive st; logouts := logouts st;
            exit_status := exit_status st |}.

(** What [process_events] does to [struct state]; the loop over
    [sp_session_process_events] itself is [EventLoop.process_events]. *)
Definition process_events (st : state) : option state :=
  match read (session st) with
  | None => None
  | Some _ =>
      Some {| session := session st; http := http st; async_active := false;
              timer_pending := true; sigint_added := sigint_added st;
              container_callbacks := container_callbacks st;
              listening := listening st; loop_broken := loop_broken st;
              pool_alive := pool_alive st; logouts := logouts st;
              exit_status := exit_status st |}
  end.

Definition notify_main_thread (s : nat) (st : state) : option state :=
  Some {| session := session st; http := http st; async_active := true;
          timer_pending := timer_pending st; sigint_added := sigint_added st;
          container_callbacks := container_callbacks st;
          listening := listening st; loop_broken := loop_broken st;
          pool_alive := pool_alive st; logouts := logouts st;
          exit_status := exit_status st |}.

(** The callbacks that reach the program while the loop runs. *)
Inductive callback :=
| Cb_logged_in (s : nat) (error : Z)
| Cb_logged_out (s : nat)
| Cb_notify_main_thread (s : nat)
| Cb_container_loaded (userdata : nat) (evhttp_new : option nat) (bound : bool)
| Cb_sigint
| Cb_process_events.

(** One callback; libspotify calls a container callback with the
    userdata it was registered with, libevent calls the signal handler
    once the signal event is added, and [process_events] when the
    wake-up event is active or the timer pending. *)
Definition call (cb : callback) (st : state) : option state :=
  match cb with
  | Cb_logged_in s error => logged_in s error st
  | Cb_logged_out s => logged_out s st
  | Cb_notify_main_thread s => notify_main_thread s st
  | Cb_container_loaded userdata evhttp_new bound =>
      if decide (userdata ∈ container_callbacks st)
      then playlistcontainer_loaded userdata evhttp_new bound st
      else Some st
  | Cb_sigint => if sigint_added st then sigint_handler st else Some st
  | Cb_process_events =>
      if async_active st || timer_pending st then process_events st else Some st
  end.

(** The loop returns when it is broken, and when nothing is left. *)
Fixpoint event_base_dispatch (cbs : list callback) (st : state) : option state :=
  match cbs with
  | [] => Some st
  | cb :: rest =>
      if loop_broken st then Some st
      else match call cb st with
           | None => None
           | Some st' => event_base_dispatch rest st'
           end
  end.

(** [main], given how [apr_initialize] and [sp_session_create] answer,
    and its exit status. *)
Definition main (apr_initialize_ok : bool) (session_create_error : Z)
    (cbs : list callback) : option Z :=
  (* struct state *state = malloc (sizeof (struct state)) *)
  if negb apr_initialize_ok then Some EXIT_FAILURE else
  if decide (session_create_error ≠ SP_ERROR_OK) then Some EXIT_FAILURE else
  (* sp_session_login *)
  match event_base_dispatch cbs initial with
  | None => None
  | Some st =>
      (* event_free (state->async); event_free (state->timer) *)
      match read (http st) with
      | None => None
      | Some _ =>
          (* if (state->http != NULL) evhttp_free (state->http) *)
          Some (exit_status st)
      end
  end.

(** What holds of [struct state] after the callbacks [seen]. *)
Record consistent (seen : list callback) (st : state) : Prop := {
  status_failure : exit_status st = EXIT_FAILURE;
  session_by_login : ∀ s, session st = Assigned s → Cb_logged_in s SP_ERROR_OK ∈ seen;
  http_by_container : ∀ h, http st = Assigned h →
    ∃ u n b, Cb_container_loaded u n b ∈ seen;
  sigint_after_session : sigint_added st = true → ∃ s, session st = Assigned s;
  container_after_session : ∀ u, u ∈ container_callbacks st →
    ∃ s, session st = Assigned s;
  http_after_session : ∀ h, http st = Assigned h → ∃ s, session st = Assigned s
}.

End Lifecycle.

(** ** A small outside world to run the server in

    One instance of [Externals], enough to evaluate the handlers on
    concrete requests: links are told apart by their prefix, two
    playlists exist, request bodies come from a table, and the mutation
    primitives edit the track list at once and leave the change
    pending. *)

Module Example.

Definition track (name : string) : sp_track :=
  {| track_uri := "spotify:track:" +:+ name |}.

Definition A := track "A".
Definition B := track "B".
Definition C := track "C".
Definition D := track "D".
Definition X := track "X".

(** A track whose URI has 72 characters. *)
Definition long_track : sp_track :=
  track "0123456789012345678901234567890123456789012345678901234567".

Definition link_of (s : string) : option sp_link :=
  if String.prefix "spotify:track:" s
  then Some {| link_type := SP_LINKTYPE_TRACK; link_string := s;
               link_track := Some {| track_uri := s |} |}
  else if String.prefix "spotify:user:" s
  then Some {| link_type := SP_LINKTYPE_PLAYLIST; link_string := s;
               link_track := None |}
  else if String.prefix "spotify:album:" s
  then Some {| link_type := SP_LINKTYPE_ALBUM; link_string := s;
               link_track := None |}
  else None.

Definition playlist_of (l : sp_link) : option nat :=
  if decide (link_string l = "spotify:user:u:playlist:1") then Some 1
  else if decide (link_string l = "spotify:user:u:playlist:2") then Some 2
  else None.

Definition uri_of (t : sp_track) : json_t := JString (track_uri t).

Definition bodies : list (string * json_t) :=
  [ ("[]", JArray []);
    ("{}", JObject []);
    ("[A,C,D]", JArray [uri_of A; uri_of C; uri_of D]);
    ("[1,album,D]", JArray [JInteger 1; JString "spotify:album:1"; uri_of D]);
    ("[null,album,D]", JArray [JNull; JString "spotify:album:1"; uri_of D]);
    ("[1,album]", JArray [JInteger 1; JString "spotify:album:1"]) ].

Definition loads (s : string) : json_t + string :=
  match list_find (λ e, e.1 = s) bodies with
  | Some (_, (_, j)) => inl j
  | None => inr "unable to decode"
  end.

Definition quote : string := String "034"%char EmptyString.

Fixpoint dumps (j : json_t) : string :=
  match j with
  | JNull => "null"
  | JTrue => "true"
  | JFalse => "false"
  | JInteger n => if decide (n = 0)%Z then "0" else "1"
  | JString s => quote +:+ s +:+ quote
  | JArray items =>
      "[" +:+
      (fix go (l : list json_t) : string :=
         match l with
         | [] => ""
         | [x] => dumps x
         | x :: rest => dumps x +:+ "," +:+ go rest
         end) items +:+ "]"
  | JObject fields =>
      "{" +:+
      (fix go (l : list (string * json_t)) : string :=
         match l with
         | [] => ""
         | [(k, x)] => quote +:+ k +:+ quote +:+ ":" +:+ dumps x
         | (k, x) :: rest => quote +:+ k +:+ quote +:+ ":" +:+ dumps x +:+ "," +:+ go rest
         end) fields +:+ "}"
  end.

(** The value after [key=] in the query part of a URI, up to the next
    ampersand. *)
Fixpoint until_amp (s : string) : string :=
  match s with
  | EmptyString => EmptyString
  | String c rest =>
      if decide (c = "&"%char) then EmptyString else String c (until_amp rest)
  end.

Fixpoint find_after (fuel : nat) (pat s : string) : option string :=
  match fuel with
  | 0 => None
  | S fuel' =>
      if String.prefix pat s
      then Some (until_amp (String.substring (String.length pat)
                              (String.length s - String.length pat) s))
      else match s with
           | EmptyString => None
           | String _ rest => find_after fuel' pat rest
           end
  end.

Definition find_query (uri key : string) : option string :=
  find_after (S (String.length uri)) (key +:+ "=") uri.

Definition scan_int (s : string) : option Z :=
  if decide (s = "0") then Some 0%Z
  else if decide (s = "1") then Some 1%Z
  else if decide (s = "2") then Some 2%Z
  else if decide (s = "9") then Some 9%Z
  else None.

Definition SP_ERROR_INVALID_INDATA : Z := 12.

Definition add_tracks (pl : sp_playlist) (tracks : list sp_track) (position : Z)
    : Z * list sp_track * bool :=
  if decide (0 ≤ position ≤ Z.of_nat (length (pl_tracks pl)))%Z
  then (SP_ERROR_OK,
        take (Z.to_nat position) (pl_tracks pl) ++ tracks ++
        drop (Z.to_nat position) (pl_tracks pl), true)
  else (SP_ERROR_INVALID_INDATA, pl_tracks pl, pl_pending pl).

Fixpoint remove_at (indices : list Z) (i : Z) (l : list sp_track) : list sp_track :=
  match l with
  | [] => []
  | x :: rest =>
      if decide (i ∈ indices) then remove_at indices (i + 1)%Z rest
      else x :: remove_at indices (i + 1)%Z rest
  end.

Definition remove_tracks (pl : sp_playlist) (indices : list Z)
    : Z * list sp_track * bool :=
  if decide (Forall (λ i, 0 ≤ i < Z.of_nat (length (pl_tracks pl)))%Z indices)
  then (SP_ERROR_OK, remove_at indices 0%Z (pl_tracks pl), true)
  else (SP_ERROR_INVALID_INDATA, pl_tracks pl, pl_pending pl).

Definition externals : Externals := {|
  json_loads := loads;
  json_dumps := dumps;
  evhttp_decode_uri := λ s, s;
  evhttp_find_query := find_query;
  sscanf_int := scan_int;
  sp_link_create_from_string := link_of;
  sp_playlist_create := playlist_of;
  sp_error_message := λ e, if decide (e = SP_ERROR_INVALID_INDATA) then "Invalid input" else "Error";
  backend_add_tracks := add_tracks;
  backend_remove_tracks := remove_tracks
|}.

Definition playlist1 (loaded : bool) (tracks : list sp_track) : sp_playlist :=
  {| pl_uri := "spotify:user:u:playlist:1"; pl_loaded := loaded;
     pl_name := "Mix"; pl_owner := "u"; pl_collaborative := false;
     pl_tracks := tracks; pl_pending := false |}.

(** A running server that knows playlist 1 and has nothing parked. *)
Definition world1 (loaded : bool) (tracks : list sp_track) : world :=
  {| playlists := {[ 1 := playlist1 loaded tracks ]}; callbacks := ∅;
     heap := ∅; next_addr := 0; replies := []; calls := []; invoked := [];
     loop_running := true |}.

Definition req (id : nat) (cmd : evhttp_cmd_type) (uri body : string) : evhttp_request :=
  {| req_id := id; req_command := cmd; req_uri := uri; req_body := body |}.

(** PUT /playlist/<playlist 1>/add?index=1 with one valid track among
    three items. *)
Definition add_request : evhttp_request :=
  req 7 EVHTTP_REQ_PUT "/playlist/spotify:user:u:playlist:1/add?index=1" "[1,album,D]".

Definition get_request : evhttp_request :=
  req 10 EVHTTP_REQ_GET "/playlist/spotify:user:u:playlist:1" "".

(** PUT /playlist/<playlist 1>/add?index=1 with one valid track behind
    a null and an album link. *)
Definition add_null_request : evhttp_request :=
  req 17 EVHTTP_REQ_PUT "/playlist/spotify:user:u:playlist:1/add?index=1"
    "[null,album,D]".

(** The server after [get_request] arrived while playlist 1 was not
    loaded: the request is parked as handler 0. *)
Definition parked : world :=
  {| playlists := {[ 1 := playlist1 false [A; B; C] ]};
     callbacks := {[ 1 := [(playlist_state_changed_callbacks, 0)] ]};
     heap := {[ 0 := {| playlist_callbacks := Some playlist_state_changed_callbacks;
                        request := get_request;
                        callback := fn_get_playlist;
                        userdata := ud_NULL |} ]};
     next_addr := 1; replies := []; calls := []; invoked := [];
     loop_running := true |}.

(** PUT /playlist/<playlist 1>/patch asking for [A; C; D]. *)
Definition patch_request : evhttp_request :=
  req 8 EVHTTP_REQ_PUT "/playlist/spotify:user:u:playlist:1/patch" "[A,C,D]".

(** PUT /playlist/<playlist 1>/patch asking for the empty sequence. *)
Definition patch_empty_request : evhttp_request :=
  req 9 EVHTTP_REQ_PUT "/playlist/spotify:user:u:playlist:1/patch" "[]".

(** Playlist 1 after a remote client has put [X] behind [A] while the
    patch to [A; C; D] is pending. *)
Definition playlist1_remote_edit : sp_playlist :=
  {| pl_uri := "spotify:user:u:playlist:1"; pl_loaded := true;
     pl_name := "Mix"; pl_owner := "u"; pl_collaborative := false;
     pl_tracks := [A; X; C; D]; pl_pending := true |}.

(** The same server once libspotify has loaded playlist 1. *)
Definition parked_loaded : world :=
  set_playlists (insert 1 (playlist1 true [A; B; C])) parked.

(** A backend that has work for two calls and then asks to be called
    again in 250 ms. *)
Definition two_then_250 (s : nat) : nat * Z :=
  (S s, if decide (s < 2) then 0%Z else 250%Z).

End Example.

(** ** Notions the properties are stated with *)

Section notions.
Context `{!Externals}.

(** The playlist, handler and userdata with which [handle_request]
    reaches its last statement, the dispatch on
    [sp_playlist_is_loaded]; [None] when the request is answered, or the
    program has crashed, before. *)
Definition dispatch_target (request : evhttp_request)
    : option (nat * handle_playlist_fn * userdata_t) :=
  match req_command request with
  | EVHTTP_REQ_GET | EVHTTP_REQ_PUT | EVHTTP_REQ_POST =>
      let tokens := strtok_slash EmptyString (evhttp_decode_uri (req_uri request)) in
      match tokens !! 0, tokens !! 1 with
      | Some entity, Some playlist_uri =>
          if strncmp_eq entity "playlist" then
            match sp_link_create_from_string playlist_uri with
            | Some playlist_link =>
                if decide (link_type playlist_link = SP_LINKTYPE_PLAYLIST) then
                  match sp_playlist_create playlist_link,
                        select_callback (req_command request)
                          (free_buffer (tokens !! 2)) with
                  | Some playlist, Some (fn, ud) => Some (playlist, fn, ud)
                  | _, _ => None
                  end
                else None
            | None => None
            end
          else None
      | _, _ => None
      end
  | _ => None
  end.

(** The ways in which the claims speak of rejected input. *)
Inductive input_defect :=
| Missing_body
| Bad_index
| Bad_count
| Malformed_json (text : string)
| Not_array.

(** The handlers that read a request body. *)
Definition reads_body (fn : handle_playlist_fn) : Prop :=
  fn = fn_put_playlist_add_tracks ∨ fn = fn_put_playlist_patch.

(** Request [r] shows defect [d] to the mutating handler [fn]. *)
Definition has_defect (fn : handle_playlist_fn) (r : evhttp_request)
    (d : input_defect) : Prop :=
  match d with
  | Missing_body => reads_body fn ∧ String.length (req_body r) = 0
  | Bad_index =>
      (fn = fn_put_playlist_add_tracks ∨ fn = fn_put_playlist_remove_tracks) ∧
      evhttp_find_query (req_uri r) "index" ≫= sscanf_int = None
  | Bad_count =>
      fn = fn_put_playlist_remove_tracks ∧
      evhttp_find_query (req_uri r) "count" ≫= sscanf_int = None
  | Malformed_json text =>
      reads_body fn ∧ json_loads (c_string (req_body r)) = inr text
  | Not_array =>
      reads_body fn ∧
      ∃ j, json_loads (c_string (req_body r)) = inl j ∧ ∀ items, j ≠ JArray items
  end.

(** The track that an item of the JSON array stands for: the item is a
    string, the string parses as a link, the link is a track link and
    carries a track. *)
Definition track_of_item (item : json_t) : option sp_track :=
  match item with
  | JString uri =>
      match sp_link_create_from_string uri with
      | Some l =>
          if decide (link_type l = SP_LINKTYPE_TRACK) then link_track l else None
      | None => None
      end
  | _ => None
  end.

(** The payload of a Get response in the words of the spec:
    [{ uri, title, creator, collaborative: bool, items: [uri...] }]. *)
Definition spec_get_payload (pl : sp_playlist) : json_t :=
  JObject [ ("uri", JString (pl_uri pl));
            ("title", JString (pl_name pl));
            ("creator", JString (pl_owner pl));
            ("collaborative", if pl_collaborative pl then JTrue else JFalse);
            ("items", JArray ((λ t, JString (track_uri t)) <$> pl_tracks pl)) ].

(** The payload that [get_playlist] builds, written out. *)
Definition get_payload (pl : sp_playlist) : json_t :=
  JObject [ ("uri", JString (string_take 63 (pl_uri pl)));
            ("title", JString (pl_name pl));
            ("creator", JString (pl_owner pl));
            ("collaborative", if pl_collaborative pl then JTrue else JFalse);
            ("tracks", JArray ((λ t, JString (string_take 63 (track_uri t)))
                                 <$> pl_tracks pl)) ].

(** The error envelope of [send_error]. *)
Definition error_reply (r : evhttp_request) (code : Z) (message : string) : reply :=
  Reply_json r code message (json_dumps (JObject [("message", JString message)])).

End notions.

(** The registry is consistent: a registered handler is allocated, its
    record names the table it was registered with, it sits in one
    callback set only, and a handler that was called is registered
    nowhere.  [malloc] never hands out an address twice, so an address
    names one registration. *)
Record wf (w : world) : Prop := {
  wf_registered : ∀ p k h, (k, h) ∈ cbs w p →
    h < next_addr w ∧ ∃ hd, heap w !! h = Some hd ∧ playlist_callbacks hd = Some k;
  wf_unique : ∀ p q k k' h, (k, h) ∈ cbs w p → (k', h) ∈ cbs w q → p = q;
  wf_invoked : ∀ h, h ∈ invoked w → h < next_addr w ∧ ¬ registered w h;
  wf_invoked_nodup : NoDup (invoked w)
}.

(** [w'] differs from [w] in replies, backend calls and playlist
    contents only. *)
Definition same_registry (w w' : world) : Prop :=
  callbacks w' = callbacks w ∧ heap w' = heap w ∧
  next_addr w' = next_addr w ∧ invoked w' = invoked w ∧
  loop_running w' = loop_running w ∧
  ∀ q, pl_loaded <$> playlists w' !! q = pl_loaded <$> playlists w !! q.

Definition preserves {A} (m : M A) : Prop :=
  ∀ w a w', m w = Some (a, w') → same_registry w w'.

(** From [w] to [w'] exactly the handlers in [L] were called, each
    leaving the registry; registrations made before [w] are otherwise
    untouched and no playlist changed its loaded flag. *)
Definition frame (w w' : world) (L : list nat) : Prop :=
  invoked w' = invoked w ++ L ∧
  next_addr w ≤ next_addr w' ∧
  loop_running w' = loop_running w ∧
  (∀ q, pl_loaded <$> playlists w' !! q = pl_loaded <$> playlists w !! q) ∧
  (∀ q k h, h < next_addr w → (k, h) ∈ cbs w' q ↔ (k, h) ∈ cbs w q ∧ h ∉ L) ∧
  (∀ h, h < next_addr w → h ∉ L → heap w' !! h = heap w !! h).

(** The request a reply answers. *)
Definition reply_request (rp : reply) : evhttp_request :=
  match rp with
  | Reply_json r _ _ _ => r
  | Reply_html_error r _ _ => r
  end.

(** The replies sent to request [r] so far. *)
Definition replies_to (w : world) (r : evhttp_request) : list reply :=
  filter (λ rp, reply_request rp = r) (replies w).

(** Whatever [m] sends answers request [r], and the handlers it
    allocates carry [r]. *)
Definition speaks_for (r : evhttp_request) {A} (m : M A) : Prop :=
  ∀ w a w', m w = Some (a, w') →
    (∃ new, replies w' = replies w ++ new ∧
            Forall (λ rp, reply_request rp = r) new) ∧
    (∀ h hd, heap w' !! h = Some hd → heap w !! h = Some hd ∨ request hd = r).

(** No handler but [h0] carries request [r]. *)
Definition carried_only_by (w : world) (r : evhttp_request) (h0 : nat) : Prop :=
  ∀ h hd, heap w !! h = Some hd → request hd = r → h = h0.

(** Playlist [p] is loaded in [w]. *)
Definition loaded (w : world) (p : nat) : Prop :=
  pl_loaded <$> playlists w !! p = Some true.

(** The notification a registration with table [k] waits for. *)
Definition awaited (k : sp_playlist_callbacks) : notification :=
  match k with
  | playlist_state_changed_callbacks => N_state_changed
  | playlist_update_in_progress_callbacks => N_update_in_progress true
  end.

(** The registration's predicate holds for notification [n] in [w]. *)
Definition qualifies (w : world) (p : nat) (k : sp_playlist_callbacks)
    (n : notification) : Prop :=
  match k, n with
  | playlist_state_changed_callbacks, N_state_changed => loaded w p
  | playlist_update_in_progress_callbacks, N_update_in_progress true => True
  | _, _ => False
  end.

(** ** Notions of the further properties *)

(** The status code of a reply. *)
Definition reply_code (rp : reply) : Z :=
  match rp with
  | Reply_json _ code _ _ => code
  | Reply_html_error _ code _ => code
  end.


(** What a handler leaves of request [r]: one reply to [r] and no new
    handler, or no reply and at most one new handler, which carries
    [r]. *)
Definition settles (r : evhttp_request) (w w' : world) : Prop :=
  (∃ rp, replies w' = replies w ++ [rp] ∧ reply_request rp = r ∧
         ∀ h hd, heap w' !! h = Some hd → heap w !! h = Some hd) ∨
  (replies w' = replies w ∧
   ∃ h1, ∀ h hd, heap w' !! h = Some hd →
           heap w !! h = Some hd ∨ (h = h1 ∧ request hd = r)).

Definition settling (r : evhttp_request) (m : M unit) : Prop :=
  ∀ w a w', m w = Some (a, w') → settles r w w'.

(** [m] neither replies nor touches the handlers. *)
Definition quiet {A} (m : M A) : Prop :=
  ∀ w a w', m w = Some (a, w') → replies w' = replies w ∧ heap w' = heap w.



(** Every allocated handler is registered. *)
Definition all_parked (w : world) : Prop :=
  ∀ h, is_Some (heap w !! h) → registered w h.

(** What [m] leaves allocated was allocated before, or is registered. *)
Definition parks {A} (m : M A) : Prop :=
  ∀ w a w', m w = Some (a, w') →
    ∀ h, is_Some (heap w' !! h) → is_Some (heap w !! h) ∨ registered w' h.

Section protocol_notions.
Context `{!Externals}.

(** The replies the server has: a JSON reply is 200 OK, or 400 or 404
    with the error envelope of its reason phrase; an HTML error is one
    of three. *)
Definition follows_protocol (rp : reply) : Prop :=
  match rp with
  | Reply_json _ code message body =>
      (code = HTTP_OK ∧ message = "OK") ∨
      ((code = HTTP_BADREQUEST ∨ code = HTTP_NOTFOUND) ∧
       body = json_dumps (JObject [("message", JString message)]))
  | Reply_html_error _ code reason =>
      (code = HTTP_BADREQUEST ∧ reason = "Bad Request") ∨
      ((code = 500 ∨ code = 501)%Z ∧ reason = "Not Implemented")
  end.

(** [m] only adds replies, each of them as in [follows_protocol]. *)
Definition replies_in_protocol {A} (m : M A) : Prop :=
  ∀ w a w', m w = Some (a, w') →
    ∃ new, replies w' = replies w ++ new ∧ Forall follows_protocol new.

End protocol_notions.

(** * Properties *)

Create HintDb preserves discriminated.
Create HintDb speaks discriminated.
Create HintDb settle discriminated.
Create HintDb parks discriminated.
Create HintDb protocol discriminated.

(** ** The diff engine of the model *)

Section diff_facts.

Lemma edits_same A : Diff.edits A A = replicate (length A) Diff.Keep.
Proof.
  induction A as [|x A IH]; [done|].
  simpl. rewrite decide_True by done. by rewrite IH.
Qed.

Lemma script_of_keeps n : ∀ pos, Diff.script_of pos (replicate n Diff.Keep) = [].
Proof. induction n as [|n IH]; intros pos; simpl; [done | apply IH]. Qed.

Lemma script_of_adds B : ∀ x pos,
  Diff.script_of pos (Diff.Add <$> (x :: B)) = [Insert pos (x :: B)].
Proof.
  induction B as [|y B IH]; intros x pos; [done|].
  change (Diff.Add <$> x :: y :: B) with (Diff.Add x :: (Diff.Add <$> (y :: B))).
  cbn [Diff.script_of]. rewrite IH. by rewrite decide_True.
Qed.

Lemma edits_to_empty A : Diff.edits A [] = replicate (length A) Diff.Delete.
Proof. induction A as [|x A IH]; [done|]. simpl. by rewrite IH. Qed.

Lemma script_of_deletes n : ∀ pos,
  Diff.script_of pos (replicate (S n) Diff.Delete) = [Remove pos (S n)].
Proof.
  induction n as [|n IH]; intros pos; [done|].
  change (replicate (S (S n)) Diff.Delete) with (Diff.Delete :: replicate (S n) Diff.Delete).
  cbn [Diff.script_of]. rewrite IH. by rewrite decide_True.
Qed.

Lemma aligned_adds b : Diff.aligned (Diff.Add <$> b) [] = Some b.
Proof.
  induction b as [|y b IH]; [done|].
  change (Diff.Add <$> y :: b) with (Diff.Add y :: (Diff.Add <$> b)).
  cbn [Diff.aligned]. by rewrite IH.
Qed.

Lemma edits_aligned a : ∀ b, Diff.aligned (Diff.edits a b) a = Some b.
Proof.
  induction a as [|x a IHa]; intros b.
  - apply aligned_adds.
  - induction b as [|y b IHb].
    + simpl. apply IHa.
    + cbn [Diff.edits]. case_decide as Hxy.
      * subst y. cbn [Diff.aligned]. by rewrite IHa.
      * case_decide.
        -- cbn [Diff.aligned]. apply IHa.
        -- cbn [Diff.aligned]. cbn [Diff.edits] in IHb. by rewrite IHb.
Qed.

Lemma apply_remove_at prefix c (l : list sp_track) :
  Diff.apply_op (Remove (length prefix) c) (prefix ++ l) = prefix ++ drop c l.
Proof.
  simpl. rewrite take_app_length. by rewrite drop_app_add.
Qed.

Lemma apply_insert_at prefix items (l : list sp_track) :
  Diff.apply_op (Insert (length prefix) items) (prefix ++ l) = prefix ++ items ++ l.
Proof.
  simpl. rewrite take_app_length. by rewrite drop_app_length.
Qed.

Lemma script_of_aligned es : ∀ prefix a b,
  Diff.aligned es a = Some b →
  Diff.apply_script (Diff.script_of (length prefix) es) (prefix ++ a) = prefix ++ b.
Proof.
  induction es as [|e es IH]; intros prefix a b.
  - destruct a; [|done]. by intros [= <-].
  - destruct e as [| |y]; cbn [Diff.aligned Diff.script_of].
    + destruct a as [|x a]; [done|].
      destruct (Diff.aligned es a) as [b'|] eqn:Ea; [|done]. intros [= <-].
      specialize (IH (prefix ++ [x]) a b' Ea).
      rewrite length_app, Nat.add_1_r, <- !app_assoc in IH. done.
    + destruct a as [|x a]; [done|]. intros Ea.
      specialize (IH prefix a b Ea).
      assert (Hone : Diff.apply_script
                (Remove (length prefix) 1 :: Diff.script_of (length prefix) es)
                (prefix ++ x :: a) = prefix ++ b).
      { unfold Diff.apply_script. cbn [foldl]. by rewrite apply_remove_at. }
      destruct (Diff.script_of (length prefix) es) as [|[s c|s items] ops] eqn:Es;
        [done | | done].
      case_decide as Hs; [|done]. subst s.
      unfold Diff.apply_script in *. cbn [foldl] in *.
      rewrite apply_remove_at in *. done.
    + destruct (Diff.aligned es a) as [b'|] eqn:Ea; [|done]. intros [= <-].
      specialize (IH (prefix ++ [y]) a b' Ea).
      rewrite length_app, Nat.add_1_r, <- !app_assoc in IH. simpl in IH.
      assert (Hone : Diff.apply_script
                (Insert (length prefix) [y] :: Diff.script_of (S (length prefix)) es)
                (prefix ++ a) = prefix ++ y :: b').
      { unfold Diff.apply_script. cbn [foldl]. by rewrite apply_insert_at. }
      destruct (Diff.script_of (S (length prefix)) es) as [|[s c|s items] ops] eqn:Es;
        [done | done |].
      case_decide as Hs; [|done]. subst s.
      unfold Diff.apply_script in *. cbn [foldl] in *.
      rewrite apply_insert_at.
      replace (S (length prefix)) with (length (prefix ++ [y])) in IH
        by (rewrite length_app; simpl; lia).
      replace (prefix ++ y :: a) with ((prefix ++ [y]) ++ a) in IH
        by (by rewrite <- app_assoc).
      rewrite apply_insert_at, <- app_assoc in IH. done.
Qed.

(** The edit script of the model does what the spec asks of an edit
    script: carried out on the current sequence it yields the desired
    one. *)
Lemma compute_sound (current desired : list sp_track) :
  Diff.apply_script (Diff.compute current desired) current = desired.
Proof.
  unfold Diff.compute.
  apply (script_of_aligned _ [] current desired), edits_aligned.
Qed.

End diff_facts.

(** ** The registry under the handlers *)

Section registry_facts.
Context `{!Externals}.

Lemma same_registry_refl w : same_registry w w.
Proof. by repeat split. Qed.

Lemma same_registry_trans w1 w2 w3 :
  same_registry w1 w2 → same_registry w2 w3 → same_registry w1 w3.
Proof.
  intros (?&?&?&?&?&Hl1) (?&?&?&?&?&Hl2).
  repeat split; try congruence.
Qed.

Lemma preserves_ret {A} (a : A) : preserves (ret a).
Proof. intros w a' w' [= <- <-]. apply same_registry_refl. Qed.

Lemma preserves_crash {A} : preserves (@crash A).
Proof. by intros w a w'. Qed.

Lemma preserves_bind {A B} (m : M A) (k : A → M B) :
  preserves m → (∀ a, preserves (k a)) → preserves (bind m k).
Proof.
  intros Hm Hk w b w'. unfold bind.
  destruct (m w) as [[a w1]|] eqn:E; [|done].
  intros Hkw. eapply same_registry_trans; [by eapply Hm | by eapply Hk].
Qed.

Lemma preserves_playlist_data p : preserves (playlist_data p).
Proof.
  intros w a w'. unfold playlist_data.
  destruct (playlists w !! p); [|done]. intros [= <- <-]. apply same_registry_refl.
Qed.

Lemma preserves_send_reply r c m b : preserves (send_reply r c m b).
Proof. intros w a w' [= <- <-]. by repeat split. Qed.

Lemma preserves_evhttp_send_error r c m : preserves (evhttp_send_error r c m).
Proof. intros w a w' [= <- <-]. by repeat split. Qed.

Lemma preserves_send_error r c m : preserves (send_error r c m).
Proof. apply preserves_send_reply. Qed.

Lemma preserves_send_error_sp r c e : preserves (send_error_sp r c e).
Proof. apply preserves_send_error. Qed.

Lemma loaded_with_backend_result (ps : gmap nat sp_playlist) p pl r q :
  ps !! p = Some pl →
  pl_loaded <$> <[p := with_backend_result pl r]> ps !! q = pl_loaded <$> ps !! q.
Proof.
  intros Hp. destruct (decide (p = q)) as [->|Hne].
  - by rewrite lookup_insert_eq, Hp.
  - by rewrite lookup_insert_ne.
Qed.

Lemma preserves_sp_playlist_add_tracks p ts i s :
  preserves (sp_playlist_add_tracks p ts i s).
Proof.
  intros w a w'. unfold sp_playlist_add_tracks, bind, playlist_data, modify, ret.
  destruct (playlists w !! p) as [pl|] eqn:Hp; [|done]. simpl.
  intros [= <- <-]. repeat split; simpl.
  intros q. by apply loaded_with_backend_result.
Qed.

Lemma preserves_sp_playlist_remove_tracks p ts :
  preserves (sp_playlist_remove_tracks p ts).
Proof.
  intros w a w'. unfold sp_playlist_remove_tracks, bind, playlist_data, modify, ret.
  destruct (playlists w !! p) as [pl|] eqn:Hp; [|done]. simpl.
  intros [= <- <-]. repeat split; simpl.
  intros q. by apply loaded_with_backend_result.
Qed.

Lemma preserves_diff_playlist_tracks_apply diff p s :
  preserves (diff_playlist_tracks_apply diff p s).
Proof.
  induction diff as [|[start count|start items] rest IH]; simpl.
  - apply preserves_ret.
  - apply preserves_bind; [apply preserves_sp_playlist_remove_tracks|].
    intros e. case_decide; [apply preserves_ret | apply IH].
  - apply preserves_bind; [apply preserves_sp_playlist_add_tracks|].
    intros e. case_decide; [apply preserves_ret | apply IH].
Qed.

Lemma preserves_not_implemented p r u : preserves (not_implemented p r u).
Proof. apply preserves_evhttp_send_error. Qed.

Lemma preserves_get_playlist p r u : preserves (get_playlist p r u).
Proof.
  apply preserves_bind; [apply preserves_playlist_data|].
  intros pl. apply preserves_send_reply.
Qed.

Lemma preserves_get_playlist_collaborative p r u :
  preserves (get_playlist_collaborative p r u).
Proof.
  apply preserves_bind; [apply preserves_playlist_data|].
  intros pl. destruct (negb _); [apply preserves_crash | apply preserves_send_reply].
Qed.

#[local] Hint Resolve preserves_ret preserves_crash preserves_playlist_data
  preserves_send_reply preserves_evhttp_send_error preserves_send_error
  preserves_send_error_sp preserves_sp_playlist_add_tracks
  preserves_sp_playlist_remove_tracks preserves_diff_playlist_tracks_apply
  preserves_not_implemented preserves_get_playlist
  preserves_get_playlist_collaborative : preserves.

(** Closes the goal of a branch that only answers the request, given the
    fact [Hpres] that such a branch keeps the registry. *)
Ltac answers Hpres := apply Hpres; solve [auto with preserves].

Lemma cbs_insert w p l q :
  cbs (set_callbacks (insert p l) w) q = if decide (p = q) then l else cbs w q.
Proof.
  unfold cbs. simpl. case_decide as Hpq.
  - subst. by rewrite lookup_insert_eq.
  - by rewrite lookup_insert_ne.
Qed.

Lemma frame_refl w : frame w w [].
Proof.
  unfold frame. split_and!; try done.
  - by rewrite app_nil_r.
  - intros q k h _. rewrite elem_of_nil. tauto.
Qed.

Lemma same_registry_frame w w' : same_registry w w' → frame w w' [].
Proof.
  intros (Hc&Hh&Hn&Hi&Hr&Hl). unfold frame, cbs.
  rewrite Hc, Hh, Hn, Hi, Hr, app_nil_r. split_and!; try done.
  intros q k h _. rewrite elem_of_nil. tauto.
Qed.

Lemma wf_same_registry w w' : wf w → same_registry w w' → wf w'.
Proof.
  intros [H1 H2 H3 H4] (Hc&Hh&Hn&Hi&Hr&Hl).
  split; unfold registered, cbs in *; rewrite ?Hc, ?Hh, ?Hn, ?Hi; done.
Qed.

Lemma frame_trans w1 w2 w3 L1 L2 :
  frame w1 w2 L1 → frame w2 w3 L2 → frame w1 w3 (L1 ++ L2).
Proof.
  intros (Hi1&Hn1&Hr1&Hl1&Hc1&Hh1) (Hi2&Hn2&Hr2&Hl2&Hc2&Hh2).
  unfold frame. split_and!.
  - by rewrite Hi2, Hi1, app_assoc.
  - lia.
  - congruence.
  - intros q. by rewrite Hl2.
  - intros q k h Hlt. rewrite Hc2 by lia. rewrite Hc1 by done.
    rewrite elem_of_app. tauto.
  - intros h Hlt Hnot. rewrite elem_of_app in Hnot.
    rewrite Hh2 by (lia || tauto). apply Hh1; tauto.
Qed.

Lemma frame_same_registry w1 w2 w3 L :
  same_registry w1 w2 → frame w2 w3 L → frame w1 w3 L.
Proof.
  intros Hs Hf. apply same_registry_frame in Hs.
  by apply (frame_trans w1 w2 w3 [] L).
Qed.

Lemma frame_same_registry_r w1 w2 w3 L :
  frame w1 w2 L → same_registry w2 w3 → frame w1 w3 L.
Proof.
  intros Hf Hs. apply same_registry_frame in Hs.
  rewrite <- (app_nil_r L). by apply (frame_trans w1 w2 w3 L []).
Qed.

(** Registering parks a fresh handler at the end of the callback set. *)
Lemma register_spec w p r fn k ud h w' :
  wf w →
  register_playlist_callbacks p r fn k ud w = Some (h, w') →
  h = next_addr w ∧ wf w' ∧ frame w w' [] ∧
  cbs w' p = cbs w p ++ [(k, h)] ∧
  heap w' !! h = Some {| playlist_callbacks := Some k; request := r;
                         callback := fn; userdata := ud |} ∧
  playlists w' = playlists w ∧ replies w' = replies w ∧ calls w' = calls w.
Proof.
  intros [H1 H2 H3 H4].
  unfold register_playlist_callbacks, bind, malloc, sp_playlist_add_callbacks, modify, ret.
  simpl. intros [= <- <-].
  set (hd := {| playlist_callbacks := Some k; request := r; callback := fn;
                userdata := ud |}).
  set (w1 := set_next_addr S (set_heap (insert (next_addr w) hd) w)).
  assert (Hcbs : ∀ q k' h',
            (k', h') ∈ cbs (set_callbacks (insert p (cbs w1 p ++ [(k, next_addr w)])) w1) q ↔
            (k', h') ∈ cbs w q ∨ (q = p ∧ k' = k ∧ h' = next_addr w)).
  { intros q k' h'. rewrite cbs_insert. change (cbs w1) with (cbs w).
    case_decide as Hpq.
    - subst q. rewrite elem_of_app, list_elem_of_singleton.
      split; [intros [?|[= -> ->]]; auto | intros [?|(_&->&->)]; auto].
    - split; [auto | intros [?|(->&_)]; done]. }
  split; [done|]. split; [|split; [|split; [|split]]].
  - split.
    + intros q k' h' [Hin|(->&->&->)]%Hcbs; simpl.
      * destruct (H1 _ _ _ Hin) as (Hlt&hd'&Hhd&Hk). split; [lia|].
        exists hd'. rewrite lookup_insert_ne by lia. done.
      * split; [lia|]. exists hd. by rewrite lookup_insert_eq.
    + intros q q' k1 k2 h' [Hin1|(->&_&Hh1)]%Hcbs [Hin2|(->&_&Hh2)]%Hcbs.
      * by eapply H2.
      * apply H1 in Hin1 as [? _]. lia.
      * apply H1 in Hin2 as [? _]. lia.
      * done.
    + intros h' Hin. destruct (H3 _ Hin) as [Hlt Hnr]. split; [simpl; lia|].
      intros (q&k'&[Hq|(->&->&->)]%Hcbs); [|lia]. apply Hnr. by exists q, k'.
    + done.
  - unfold frame. split_and!; simpl; try done.
    + by rewrite app_nil_r.
    + lia.
    + intros q k' h' Hlt. rewrite Hcbs, elem_of_nil. split; [|tauto].
      intros [Hin|(->&->&->)]; [tauto|lia].
    + intros h' Hlt _. rewrite lookup_insert_ne by lia. done.
  - rewrite cbs_insert. rewrite decide_True by done. done.
  - simpl. by rewrite lookup_insert_eq.
  - done.
Qed.

(** Taking a registered handler out of the callback set and freeing it. *)
Lemma cancel_spec w p k h (m : M unit) w' :
  preserves m → wf w → (k, h) ∈ cbs w p →
  (hd <- handler_data h ;;
   sp_playlist_remove_callbacks p (playlist_callbacks hd) h ;;
   free h ;; m) w = Some (tt, w') →
  wf w' ∧ invoked w' = invoked w ∧ next_addr w' = next_addr w ∧
  loop_running w' = loop_running w ∧
  (∀ q, pl_loaded <$> playlists w' !! q = pl_loaded <$> playlists w !! q) ∧
  (∀ q k' h', (k', h') ∈ cbs w' q ↔ (k', h') ∈ cbs w q ∧ h' ≠ h) ∧
  (∀ h', h' ≠ h → heap w' !! h' = heap w !! h').
Proof.
  intros Hm Hwf Hin.
  destruct (wf_registered _ Hwf _ _ _ Hin) as (Hlt&hd&Hhd&Hk).
  unfold bind at 1. unfold handler_data. rewrite Hhd, Hk.
  unfold bind, sp_playlist_remove_callbacks, free, modify. simpl.
  set (w1 := set_heap _ _). intros Hmw.
  assert (Hcbs : ∀ q k' h', (k', h') ∈ cbs w1 q ↔ (k', h') ∈ cbs w q ∧ h' ≠ h).
  { intros q k' h'. unfold w1. change (cbs (set_heap ?f ?x)) with (cbs x).
    rewrite cbs_insert. case_decide as Hpq.
    - subst q. rewrite list_elem_of_filter. split.
      + intros [Hne Hin']. split; [done|]. intros ->.
        destruct (wf_registered _ Hwf _ _ _ Hin') as (_&hd'&Hhd'&Hk').
        congruence.
      + intros [Hin' Hne]. split; [congruence | done].
    - split; [|tauto]. intros Hin'. split; [done|]. intros ->.
      apply Hpq. by eapply (wf_unique _ Hwf). }
  assert (Hwf1 : wf w1).
  { split.
    - intros q k' h' [Hin' Hne]%Hcbs.
      destruct (wf_registered _ Hwf _ _ _ Hin') as (?&hd'&?&?).
      split; [done|]. exists hd'. unfold w1; simpl. by rewrite lookup_delete_ne.
    - intros q q' k1 k2 h' [Hin1 _]%Hcbs [Hin2 _]%Hcbs. by eapply (wf_unique _ Hwf).
    - intros h' Hin'. destruct (wf_invoked _ Hwf _ Hin') as [? Hnr]. split; [done|].
      intros (q&k'&[Hq _]%Hcbs). apply Hnr. by exists q, k'.
    - apply (wf_invoked_nodup _ Hwf). }
  destruct (m w1) as [[[] w2]|] eqn:Em; [|done].
  injection Hmw as <-. pose proof (Hm _ _ _ Em) as Hs.
  split; [by eapply wf_same_registry|].
  destruct Hs as (Hc&Hh&Hn&Hi&Hr&Hl).
  split_and!; try done.
  - intros q k' h'. unfold cbs at 1. rewrite Hc. apply Hcbs.
  - intros h' Hne. rewrite Hh. unfold w1; simpl. by rewrite lookup_delete_ne.
Qed.

(** The common end of [put_playlist_add_tracks] and
    [put_playlist_remove_tracks]: park a handler, call the backend, and
    take the handler back if the backend refuses. *)
Lemma park_tail_frame (m : M Z) p r fn k ud r' c w w' :
  preserves m → wf w →
  (handler <- register_playlist_callbacks p r fn k ud ;;
   e <- m ;;
   if decide (e ≠ SP_ERROR_OK) then
     hd <- handler_data handler ;;
     sp_playlist_remove_callbacks p (playlist_callbacks hd) handler ;;
     free handler ;;
     send_error_sp r' c e
   else ret tt) w = Some (tt, w') →
  wf w' ∧ frame w w' [].
Proof.
  intros Hm Hwf. unfold bind at 1.
  destruct (register_playlist_callbacks p r fn k ud w) as [[h w1]|] eqn:Er; [|done].
  destruct (register_spec _ _ _ _ _ _ _ _ Hwf Er) as (->&Hwf1&Hf1&Hc1&Hh1&_).
  unfold bind at 1. destruct (m w1) as [[e w2]|] eqn:Em; [|done].
  pose proof (Hm _ _ _ Em) as Hs.
  assert (Hwf2 : wf w2) by by eapply wf_same_registry.
  assert (Hf2 : frame w w2 []) by by eapply frame_same_registry_r.
  case_decide.
  - intros Hcancel.
    eapply (cancel_spec w2 p k (next_addr w)) in Hcancel as (Hwf3&Hi&Hn&Hr&Hl&Hc&Hh);
      [|apply preserves_send_error_sp|done|].
    2:{ destruct Hs as (Hc2&_). unfold cbs. rewrite Hc2. fold (cbs w1 p).
        rewrite Hc1, elem_of_app, list_elem_of_singleton. by right. }
    split; [done|].
    destruct Hf2 as (Hi2&Hn2&Hr2&Hl2&Hc2&Hh2).
    unfold frame. split_and!.
    + by rewrite Hi.
    + lia.
    + congruence.
    + intros q. by rewrite Hl.
    + intros q k' h' Hlt. rewrite Hc, Hc2 by done. split; [tauto|].
      intros [? ?]. split_and!; [done..|lia].
    + intros h' Hlt Hnot. rewrite Hh by lia. by apply Hh2.
  - by intros [= <-].
Qed.

Lemma invoke_frame fn p r ud w w' :
  wf w → invoke fn p r ud w = Some (tt, w') → wf w' ∧ frame w w' [].
Proof.
  intros Hwf.
  assert (Hpres : ∀ m : M unit, preserves m → m w = Some (tt, w') → wf w' ∧ frame w w' []).
  { intros m Hm Hmw. apply Hm in Hmw.
    split; [by eapply wf_same_registry | by apply same_registry_frame]. }
  destruct fn; simpl; [answers Hpres.. | | |].
  - unfold put_playlist_add_tracks.
    destruct (_ ≫= sscanf_int) as [index|]; [|answers Hpres].
    case_decide; [answers Hpres|].
    destruct (json_loads _) as [json|]; [|answers Hpres].
    destruct json; try answers Hpres.
    case_decide; [answers Hpres|].
    destruct (collect_tracks items) as [tracks|]; [|done].
    case_decide; [answers Hpres|].
    apply park_tail_frame; auto with preserves.
  - unfold put_playlist_remove_tracks.
    destruct (_ ≫= sscanf_int) as [index|]; [|answers Hpres].
    case_decide; [answers Hpres|].
    destruct (_ ≫= sscanf_int) as [count|]; [|answers Hpres].
    case_decide; [answers Hpres|].
    case_decide; [done|].
    apply park_tail_frame; auto with preserves.
  - unfold put_playlist_patch.
    case_decide; [answers Hpres|].
    destruct (json_loads _) as [json|]; [|answers Hpres].
    destruct json; try answers Hpres.
    case_decide; [answers Hpres|].
    destruct (collect_tracks items) as [tracks|]; [|done].
    case_decide; [answers Hpres|].
    unfold bind at 1, playlist_data at 1.
    destruct (playlists w !! p) as [pl|] eqn:Hp; [|done].
    unfold diff_playlist_tracks. unfold bind at 1.
    destruct (diff_playlist_tracks_apply _ _ _ w) as [[e w1]|] eqn:Ea; [|done].
    pose proof (preserves_diff_playlist_tracks_apply _ _ _ _ _ _ Ea) as Hs.
    assert (Hwf1 : wf w1) by by eapply wf_same_registry.
    destruct e as [e|].
    + intros Hmw. apply preserves_send_error in Hmw.
      pose proof (same_registry_trans _ _ _ Hs Hmw).
      split; [by eapply wf_same_registry | by apply same_registry_frame].
    + unfold bind at 1, playlist_data at 1.
      destruct (playlists w1 !! p) as [pl1|] eqn:Hp1; [|done].
      destruct (negb (pl_pending pl1)).
      * intros Hmw. apply preserves_get_playlist in Hmw.
        pose proof (same_registry_trans _ _ _ Hs Hmw).
        split; [by eapply wf_same_registry | by apply same_registry_frame].
      * unfold bind, ret.
        destruct (register_playlist_callbacks _ _ _ _ _ w1) as [[h w2]|] eqn:Er; [|done].
        intros [= <-].
        destruct (register_spec _ _ _ _ _ _ _ _ Hwf1 Er) as (_&Hwf2&Hf2&_).
        split; [done | by eapply frame_same_registry].
Qed.

(** Detaching a registered handler. *)
Lemma detach_spec w p k h hd w' :
  wf w → (k, h) ∈ cbs w p →
  playlist_detach p h w = Some (hd, w') →
  heap w !! h = Some hd ∧ playlist_callbacks hd = Some k ∧
  (∀ q k' h', (k', h') ∈ cbs w' q ↔ (k', h') ∈ cbs w q ∧ h' ≠ h) ∧
  heap w' = <[h := clear_playlist_callbacks hd]> (heap w) ∧
  next_addr w' = next_addr w ∧ invoked w' = invoked w ∧
  loop_running w' = loop_running w ∧ playlists w' = playlists w ∧
  replies w' = replies w ∧ calls w' = calls w.
Proof.
  intros Hwf Hin.
  destruct (wf_registered _ Hwf _ _ _ Hin) as (Hlt&hd0&Hhd&Hk).
  unfold playlist_detach, bind, handler_data. rewrite Hhd, Hk.
  unfold sp_playlist_remove_callbacks, modify, ret. simpl. intros [= <- <-].
  split_and!; try done.
  intros q k' h'. change (cbs (set_heap ?f ?x)) with (cbs x).
  rewrite cbs_insert. case_decide as Hpq.
  - subst q. rewrite list_elem_of_filter. split.
    + intros [Hne Hin']. split; [done|]. intros ->.
      destruct (wf_registered _ Hwf _ _ _ Hin') as (_&hd'&Hhd'&Hk').
      congruence.
    + intros [Hin' Hne]. split; [congruence | done].
  - split; [|tauto]. intros Hin'. split; [done|]. intros ->.
    apply Hpq. by eapply (wf_unique _ Hwf).
Qed.

(** [playlist_dispatch] on a registered handler: it leaves the
    registry, is called once, and everything else is framed. *)
Lemma dispatch_spec w p k h w' :
  wf w → (k, h) ∈ cbs w p →
  playlist_dispatch p h w = Some (tt, w') →
  wf w' ∧ frame w w' [h].
Proof.
  intros Hwf Hin. unfold playlist_dispatch. unfold bind at 1.
  destruct (playlist_detach p h w) as [[hd w1]|] eqn:Ed; [|done].
  destruct (detach_spec _ _ _ _ _ _ Hwf Hin Ed)
    as (Hhd&Hk&Hc1&Hh1&Hn1&Hi1&Hr1&Hp1&_).
  destruct (wf_registered _ Hwf _ _ _ Hin) as (Hlt&_).
  unfold bind at 1, modify at 1.
  set (w2 := set_invoked _ w1).
  assert (Hwf2 : wf w2).
  { split.
    - intros q k' h' [Hin' Hne]%Hc1.
      destruct (wf_registered _ Hwf _ _ _ Hin') as (?&hd'&?&?).
      split; [simpl; lia|]. exists hd'. simpl. rewrite Hh1.
      by rewrite lookup_insert_ne.
    - intros q q' k1 k2 h' [Hin1 _]%Hc1 [Hin2 _]%Hc1. by eapply (wf_unique _ Hwf).
    - intros h'. simpl. rewrite Hi1, elem_of_app, list_elem_of_singleton, Hn1.
      intros [Hin'| ->].
      + destruct (wf_invoked _ Hwf _ Hin') as [? Hnr]. split; [done|].
        intros (q&k'&[Hq _]%Hc1). apply Hnr. by exists q, k'.
      + split; [done|]. by intros (q&k'&[_ ?]%Hc1).
    - simpl. rewrite Hi1. apply NoDup_app. split_and!.
      + apply (wf_invoked_nodup _ Hwf).
      + intros h' Hin' ->%list_elem_of_singleton.
        destruct (wf_invoked _ Hwf _ Hin') as [_ Hnr]. apply Hnr. by exists p, k.
      + apply NoDup_singleton. }
  assert (Hf2 : frame w w2 [h]).
  { unfold frame. split_and!; simpl.
    - by rewrite Hi1.
    - lia.
    - done.
    - intros q. by rewrite Hp1.
    - intros q k' h' _. change (cbs w2) with (cbs w1).
      rewrite Hc1, list_elem_of_singleton. done.
    - intros h' _ Hne%not_elem_of_cons. rewrite Hh1.
      rewrite lookup_insert_ne; [done | intros ->; by destruct Hne]. }
  unfold bind at 1.
  destruct (invoke _ _ _ _ w2) as [[[] w3]|] eqn:Ei; [|done].
  destruct (invoke_frame _ _ _ _ _ _ Hwf2 Ei) as [Hwf3 Hf3].
  unfold free, modify. intros [= <-].
  pose proof (frame_trans _ _ _ _ _ Hf2 Hf3) as Hf. simpl in Hf.
  destruct Hf as (Hi&Hn&Hr&Hl&Hc&Hh).
  split.
  - split.
    + intros q k' h'. change (cbs (set_heap ?f ?x)) with (cbs x). intros Hin'.
      destruct (wf_registered _ Hwf3 _ _ _ Hin') as (?&hd'&?&?).
      split; [done|]. exists hd'. simpl. rewrite lookup_delete_ne; [done|].
      intros <-. apply Hc in Hin' as [_ Hnot]; [|done].
      apply Hnot, list_elem_of_singleton. done.
    + apply (wf_unique _ Hwf3).
    + apply (wf_invoked _ Hwf3).
    + apply (wf_invoked_nodup _ Hwf3).
  - unfold frame. split_and!; simpl; try done.
    intros h' Hlt' Hne. rewrite lookup_delete_ne; [by apply Hh|].
    intros <-. apply Hne, list_elem_of_singleton. done.
Qed.

Lemma qualifies_loaded w w' p k n :
  (∀ q, pl_loaded <$> playlists w' !! q = pl_loaded <$> playlists w !! q) →
  qualifies w' p k n ↔ qualifies w p k n.
Proof.
  intros Hl. unfold qualifies, loaded. rewrite Hl. done.
Qed.

(** What a call through a registered slot does. *)
Lemma callback_slot_spec w p k n h w' :
  wf w → (k, h) ∈ cbs w p →
  callback_slot k n p h w = Some (tt, w') →
  (qualifies w p k n ∧ wf w' ∧ frame w w' [h]) ∨ (¬ qualifies w p k n ∧ w' = w).
Proof.
  intros Hwf Hin. unfold callback_slot, qualifies, loaded.
  destruct k, n as [|[]]; simpl; try (intros [= <-]; right; tauto).
  - unfold playlist_state_changed, bind, playlist_data.
    destruct (playlists w !! p) as [pl|] eqn:Hp; [|done]. simpl.
    destruct (pl_loaded pl) eqn:Hl; simpl.
    + intros Hd. left. split; [done|]. by eapply dispatch_spec.
    + intros [= <-]. right. split; [congruence | done].
  - intros Hd. left. split; [done|]. by eapply dispatch_spec.
Qed.

(** One round of notification over a snapshot of the callback set. *)
Lemma deliver_spec n p snapshot : ∀ w w',
  wf w → Forall (λ e, e.2 < next_addr w) snapshot →
  deliver n p snapshot w = Some (tt, w') →
  ∃ L, wf w' ∧ frame w w' L ∧
    (∀ h, h ∈ L → ∃ k, (k, h) ∈ snapshot ∧ (k, h) ∈ cbs w p ∧ qualifies w p k n) ∧
    (∀ k h, (k, h) ∈ snapshot → (k, h) ∈ cbs w p → qualifies w p k n → h ∈ L).
Proof.
  induction snapshot as [|[k h] rest IH]; intros w w' Hwf Hsnap; simpl.
  - intros [= <-]. exists []. split_and!; [done | apply frame_refl | |].
    + by intros h ?%elem_of_nil.
    + by intros k h ?%elem_of_nil.
  - apply Forall_cons in Hsnap as [Hlt Hrest]. simpl in Hlt.
    unfold bind at 1.
    assert (Hskip : deliver n p rest w = Some (tt, w') →
      (∀ k0, (k0, h) ∈ cbs w p → k0 = k → ¬ qualifies w p k n) →
      ∃ L, wf w' ∧ frame w w' L ∧
        (∀ h0, h0 ∈ L → ∃ k0, (k0, h0) ∈ (k, h) :: rest ∧ (k0, h0) ∈ cbs w p ∧
                               qualifies w p k0 n) ∧
        (∀ k0 h0, (k0, h0) ∈ (k, h) :: rest → (k0, h0) ∈ cbs w p →
                  qualifies w p k0 n → h0 ∈ L)).
    { intros Hd Hnq. destruct (IH _ _ Hwf Hrest Hd) as (L&Hwf'&Hf'&HL1&HL2).
      exists L. split_and!; [done..| |].
      - intros h0 Hin0. destruct (HL1 _ Hin0) as (k0&?&?&?). exists k0.
        split_and!; [by apply list_elem_of_further | done..].
      - intros k0 h0 [[= -> ->]|Hin0]%elem_of_cons Hreg0 Hq0; [|by eapply HL2].
        by destruct (Hnq k Hreg0). }
    case_decide as Hreg.
    + destruct (callback_slot k n p h w) as [[[] w1]|] eqn:Ec; [|done].
      intros Hd.
      destruct (callback_slot_spec _ _ _ _ _ _ Hwf Hreg Ec)
        as [(Hq&Hwf1&Hf1)|(Hnq&->)]; [|by apply Hskip].
      assert (Hrest1 : Forall (λ e, e.2 < next_addr w1) rest).
      { eapply Forall_impl; [done|]. intros e ?. destruct Hf1 as (_&?&_). simpl in *. lia. }
      destruct (IH _ _ Hwf1 Hrest1 Hd) as (L&Hwf'&Hf'&HL1&HL2).
      pose proof Hf1 as (_&_&_&Hl1&Hc1&_).
      exists ([h] ++ L). split_and!; [done | by eapply frame_trans | |].
      * intros h0 [->%list_elem_of_singleton|Hin0]%elem_of_app.
        { exists k. split_and!; [apply list_elem_of_here | done..]. }
        destruct (HL1 _ Hin0) as (k0&Hin1&Hreg1&Hq1). exists k0.
        split_and!; [by apply list_elem_of_further | |
                     by apply (qualifies_loaded w w1 p k0 n Hl1)].
        apply Hc1 in Hreg1 as [? _]; [done|].
        rewrite Forall_forall in Hrest. by apply (Hrest _ Hin1).
      * intros k0 h0 Hin0 Hreg0 Hq0. rewrite elem_of_app, list_elem_of_singleton.
        destruct (decide (h0 = h)) as [->|Hne]; [by left | right].
        apply elem_of_cons in Hin0 as [[= -> ->]|Hin0]; [done|].
        apply (HL2 k0); [done | | by apply (qualifies_loaded w w1 p k0 n Hl1)].
        apply Hc1; [|split; [done|by intros ->%list_elem_of_singleton]].
        rewrite Forall_forall in Hrest. by apply (Hrest _ Hin0).
    + intros Hd. apply Hskip; [done|]. by intros k0 ? ->.
Qed.

(** [handle_request] when it reaches its dispatch. *)
Lemma handle_request_dispatch r p fn ud :
  dispatch_target r = Some (p, fn, ud) →
  handle_request r =
    (pl <- playlist_data p ;;
     if pl_loaded pl then invoke fn p r ud
     else register_playlist_callbacks p r fn playlist_state_changed_callbacks ud ;;
          ret tt).
Proof.
  unfold dispatch_target, handle_request.
  destruct (req_command r) eqn:Hcmd; try done;
    (destruct (strtok_slash _ _ !! 0) as [entity|]; [|done]);
    (destruct (strtok_slash _ _ !! 1) as [playlist_uri|]; [|done]);
    (destruct (strncmp_eq entity _); [|done]);
    (destruct (sp_link_create_from_string _) as [l|]; [|done]);
    (case_decide as Hty; [|done]);
    (rewrite decide_False by (by intros ?));
    (destruct (sp_playlist_create l) as [playlist|]; [|done]);
    (destruct (select_callback _ _) as [[fn' ud']|]; [|done]);
    by intros [= -> -> ->].
Qed.

(** [handle_request] when it answers before the dispatch. *)
Lemma handle_request_early r :
  dispatch_target r = None → preserves (handle_request r).
Proof.
  unfold dispatch_target, handle_request. intros Hd.
  destruct (req_command r) eqn:Hcmd; try apply preserves_evhttp_send_error;
    (destruct (strtok_slash _ _ !! 0) as [entity|];
       [|apply preserves_evhttp_send_error]);
    (destruct (strncmp_eq entity _); cbn [negb];
       [|apply preserves_evhttp_send_error]);
    (destruct (strtok_slash _ _ !! 1) as [playlist_uri|];
       [|first [apply preserves_send_error | apply preserves_not_implemented]]);
    (destruct (sp_link_create_from_string _) as [l|]; [|apply preserves_send_error]);
    (destruct (decide (link_type l = SP_LINKTYPE_PLAYLIST)) as [Hty|Hty];
       [rewrite decide_False by (by intros ?)
       |rewrite decide_True by done; apply preserves_send_error]);
    (destruct (sp_playlist_create l) as [playlist|]; [|apply preserves_send_error]);
    (destruct (select_callback _ _) as [[fn' ud']|]; [done|apply preserves_crash]).
Qed.

Lemma handle_request_frame r w w' :
  wf w → handle_request r w = Some (tt, w') → wf w' ∧ frame w w' [].
Proof.
  intros Hwf. destruct (dispatch_target r) as [[[p fn] ud]|] eqn:Hd.
  - rewrite (handle_request_dispatch _ _ _ _ Hd).
    unfold bind at 1, playlist_data.
    destruct (playlists w !! p) as [pl|]; [|done].
    destruct (pl_loaded pl); [by apply invoke_frame|].
    unfold bind, ret.
    destruct (register_playlist_callbacks _ _ _ _ _ w) as [[h w1]|] eqn:Er; [|done].
    intros [= <-]. by destruct (register_spec _ _ _ _ _ _ _ _ Hwf Er) as (_&?&?&_).
  - intros Hr. apply (handle_request_early _ Hd) in Hr.
    split; [by eapply wf_same_registry | by apply same_registry_frame].
Qed.

(** One turn of the loop: the registry stays consistent, and a handler
    is called only by a notification it qualifies for. *)
Lemma step_spec ev w w' :
  wf w → step ev w = Some (tt, w') →
  ∃ L, wf w' ∧ invoked w' = invoked w ++ L ∧ next_addr w ≤ next_addr w' ∧
    (∀ q k h, h < next_addr w → (k, h) ∈ cbs w' q ↔ (k, h) ∈ cbs w q ∧ h ∉ L) ∧
    (∀ h, h < next_addr w → h ∉ L → heap w' !! h = heap w !! h) ∧
    (∀ h, h ∈ L → ∃ p k n, ev = Ev_notify p n ∧ (k, h) ∈ cbs w p ∧
                            qualifies w p k n ∧ loop_running w = true) ∧
    (∀ p k n h, ev = Ev_notify p n → loop_running w = true →
                (k, h) ∈ cbs w p → qualifies w p k n → h ∈ L).
Proof.
  intros Hwf. unfold step.
  assert (Hnone : w' = w ∨ (∃ pl p, w' = set_playlists (insert p pl) w) ∨
                  w' = set_loop_running false w →
    (∀ p n, ev = Ev_notify p n → loop_running w = true → False) →
    ∃ L, wf w' ∧ invoked w' = invoked w ++ L ∧ next_addr w ≤ next_addr w' ∧
    (∀ q k h, h < next_addr w → (k, h) ∈ cbs w' q ↔ (k, h) ∈ cbs w q ∧ h ∉ L) ∧
    (∀ h, h < next_addr w → h ∉ L → heap w' !! h = heap w !! h) ∧
    (∀ h, h ∈ L → ∃ p k n, ev = Ev_notify p n ∧ (k, h) ∈ cbs w p ∧
                            qualifies w p k n ∧ loop_running w = true) ∧
    (∀ p k n h, ev = Ev_notify p n → loop_running w = true →
                (k, h) ∈ cbs w p → qualifies w p k n → h ∈ L)).
  { intros Hw' Hnot. exists [].
    assert (wf w' ∧ invoked w' = invoked w ∧ next_addr w' = next_addr w ∧
            callbacks w' = callbacks w ∧ heap w' = heap w) as (?&Hi&Hn&Hc&Hh).
    { destruct Hw' as [->|[(pl&p&->)| ->]]; (split_and!; [|done..]);
        by destruct Hwf. }
    unfold cbs. rewrite Hi, Hn, Hc, Hh, app_nil_r.
    split_and!; try done.
    - intros q k h _. rewrite elem_of_nil. tauto.
    - by intros h ?%elem_of_nil.
    - intros p k n h -> Hrun. by destruct (Hnot p n). }
  destruct (loop_running w) eqn:Hrun; simpl.
  2:{ intros [= <-]. apply Hnone; [by left | by intros]. }
  destruct ev as [r|p n|p pl|].
  - intros Hr. destruct (handle_request_frame _ _ _ Hwf Hr) as [Hwf' (Hi&Hn&_&_&Hc&Hh)].
    exists []. split_and!; try done. by intros h ?%elem_of_nil.
  - unfold notify. intros Hd.
    assert (Hsnap : Forall (λ e, e.2 < next_addr w) (cbs w p)).
    { apply Forall_forall. intros [k h] Hin. by destruct (wf_registered _ Hwf _ _ _ Hin). }
    destruct (deliver_spec _ _ _ _ _ Hwf Hsnap Hd) as (L&Hwf'&(Hi&Hn&_&_&Hc&Hh)&HL1&HL2).
    exists L. split_and!; try done.
    + intros h Hin. destruct (HL1 _ Hin) as (k&_&?&?). by exists p, k, n.
    + intros p' k n' h [= <- <-] _ Hin Hq. by eapply HL2.
  - intros [= <-]. apply Hnone; [right; left; by exists pl, p | by intros].
  - intros [= <-]. apply Hnone; [by right; right | by intros].
Qed.

Lemma run_spec evs : ∀ w w',
  wf w → run evs w = Some (tt, w') →
  wf w' ∧ next_addr w ≤ next_addr w' ∧ ∃ L, invoked w' = invoked w ++ L.
Proof.
  induction evs as [|ev rest IH]; intros w w' Hwf; simpl.
  - intros [= <-]. split_and!; [done..|]. exists []. by rewrite app_nil_r.
  - unfold bind. destruct (step ev w) as [[[] w1]|] eqn:Es; [|done].
    intros Hr. destruct (step_spec _ _ _ Hwf Es) as (L1&Hwf1&Hi1&Hn1&_).
    destruct (IH _ _ Hwf1 Hr) as (Hwf'&Hn'&L2&Hi2).
    split_and!; [done | lia |]. exists (L1 ++ L2). by rewrite Hi2, Hi1, app_assoc.
Qed.

Lemma run_app evs1 evs2 w :
  run (evs1 ++ evs2) w =
  match run evs1 w with Some (_, w1) => run evs2 w1 | None => None end.
Proof.
  revert w. induction evs1 as [|ev rest IH]; intros w; simpl; [done|].
  unfold bind. destruct (step ev w) as [[[] w1]|]; [apply IH | done].
Qed.

(** A parked handler is called only by a notification on its playlist
    for which its predicate holds, raised while the loop runs. *)
Lemma run_parked evs : ∀ w w' p k h,
  wf w → (k, h) ∈ cbs w p →
  run evs w = Some (tt, w') → h ∈ invoked w' →
  ∃ evs1 n evs2 w1,
    evs = evs1 ++ Ev_notify p n :: evs2 ∧ run evs1 w = Some (tt, w1) ∧
    qualifies w1 p k n ∧ loop_running w1 = true ∧
    (k, h) ∈ cbs w1 p ∧ h ∉ invoked w1.
Proof.
  induction evs as [|ev rest IH]; intros w w' p k h Hwf Hreg; simpl.
  - intros [= <-] Hin. destruct (wf_invoked _ Hwf _ Hin) as [_ []]. by exists p, k.
  - unfold bind. destruct (step ev w) as [[[] w1]|] eqn:Es; [|done].
    intros Hr Hin.
    destruct (step_spec _ _ _ Hwf Es) as (L&Hwf1&Hi1&Hn1&Hc1&_&HL&_).
    destruct (wf_registered _ Hwf _ _ _ Hreg) as (Hlt&hd&Hhd&Hk).
    destruct (decide (h ∈ L)) as [HinL|HninL].
    + destruct (HL _ HinL) as (p'&k'&n&->&Hreg'&Hq&Hrun).
      assert (p' = p) as -> by by eapply (wf_unique _ Hwf).
      assert (k' = k) as ->.
      { destruct (wf_registered _ Hwf _ _ _ Hreg') as (_&hd'&?&?). congruence. }
      exists [], n, rest, w. split_and!; try done.
      intros Hin'. destruct (wf_invoked _ Hwf _ Hin') as [_ []]. by exists p, k.
    + assert (Hreg1 : (k, h) ∈ cbs w1 p) by by apply Hc1.
      destruct (IH _ _ _ _ _ Hwf1 Hreg1 Hr Hin) as (evs1&n&evs2&w2&->&Hr1&?&?&?&?).
      exists (ev :: evs1), n, evs2, w2. split_and!; try done.
      simpl. unfold bind. by rewrite Es.
Qed.

(** The qualifying notification, raised once or more, calls the parked
    handler. *)
Lemma run_awaited n w w' p k h :
  wf w → (k, h) ∈ cbs w p → loop_running w = true →
  qualifies w p k (awaited k) →
  run (replicate (S n) (Ev_notify p (awaited k))) w = Some (tt, w') →
  h ∈ invoked w'.
Proof.
  intros Hwf Hreg Hrun Hq. simpl. unfold bind.
  destruct (step _ w) as [[[] w1]|] eqn:Es; [|done]. intros Hr.
  destruct (step_spec _ _ _ Hwf Es) as (L&Hwf1&Hi1&_&_&_&_&HL).
  destruct (run_spec _ _ _ Hwf1 Hr) as (_&_&L'&Hi').
  rewrite Hi', Hi1, !elem_of_app. left; right. by eapply HL.
Qed.

Lemma NoDup_filter_eq_le (l : list nat) h :
  NoDup l → length (filter (λ x, x = h) l) ≤ 1.
Proof.
  induction 1 as [|x l Hnin Hnd IH]; [simpl; lia|].
  rewrite filter_cons. case_decide as Hx; [|done]. subst x.
  simpl. destruct (filter (λ x, x = h) l) as [|y l'] eqn:Ef; [simpl; lia|].
  assert (Hy : y ∈ filter (λ x, x = h) l) by (rewrite Ef; apply list_elem_of_here).
  apply list_elem_of_filter in Hy as [-> ?]. done.
Qed.

Lemma elem_of_filter_eq_ge (l : list nat) h :
  h ∈ l → 1 ≤ length (filter (λ x, x = h) l).
Proof.
  intros Hin. assert (Hf : h ∈ filter (λ x, x = h) l) by by apply list_elem_of_filter.
  destruct (filter _ l); [by apply elem_of_nil in Hf | simpl; lia].
Qed.

Lemma run_stopped evs w : loop_running w = false → run evs w = Some (tt, w).
Proof.
  intros Hrun. induction evs as [|ev rest IH]; [done|].
  simpl. unfold bind, step. by rewrite Hrun.
Qed.

Lemma wf_no_registration w :
  callbacks w = ∅ → invoked w = [] → wf w.
Proof.
  intros Hc Hi. split; unfold registered, cbs; rewrite ?Hc, ?Hi.
  - intros p k h. rewrite lookup_empty. by intros ?%elem_of_nil.
  - intros p q k k' h. rewrite lookup_empty. by intros ?%elem_of_nil.
  - by intros h ?%elem_of_nil.
  - apply NoDup_nil_2.
Qed.

(** ** Who is answered *)

Lemma speaks_for_silent r {A} (m : M A) :
  (∀ w a w', m w = Some (a, w') →
     replies w' = replies w ∧
     ∀ h hd, heap w' !! h = Some hd → heap w !! h = Some hd ∨ request hd = r) →
  speaks_for r m.
Proof.
  intros Hm w a w' Hmw. destruct (Hm _ _ _ Hmw) as [Hr Hh].
  split; [|done]. exists []. by rewrite app_nil_r.
Qed.

Lemma speaks_for_ret r {A} (a : A) : speaks_for r (ret a).
Proof. apply speaks_for_silent. intros w a' w' [= <- <-]. auto. Qed.

Lemma speaks_for_crash r {A} : speaks_for r (@crash A).
Proof. by intros w a w'. Qed.

Lemma speaks_for_bind r {A B} (m : M A) (k : A → M B) :
  speaks_for r m → (∀ a, speaks_for r (k a)) → speaks_for r (bind m k).
Proof.
  intros Hm Hk w b w'. unfold bind.
  destruct (m w) as [[a w1]|] eqn:E; [|done]. intros Hkw.
  destruct (Hm _ _ _ E) as [(new1&Hr1&Hn1) Hh1].
  destruct (Hk _ _ _ _ Hkw) as [(new2&Hr2&Hn2) Hh2].
  split.
  - exists (new1 ++ new2). rewrite Hr2, Hr1, app_assoc. split; [done|].
    by apply Forall_app.
  - intros h hd Hhd. destruct (Hh2 _ _ Hhd) as [Hold|?]; [|by right]. by apply Hh1.
Qed.

Lemma speaks_for_playlist_data r p : speaks_for r (playlist_data p).
Proof.
  apply speaks_for_silent. intros w a w'. unfold playlist_data.
  destruct (playlists w !! p); [|done]. intros [= <- <-]. auto.
Qed.

Lemma speaks_for_handler_data r h : speaks_for r (handler_data h).
Proof.
  apply speaks_for_silent. intros w a w'. unfold handler_data.
  destruct (heap w !! h); [|done]. intros [= <- <-]. auto.
Qed.

Lemma speaks_for_send_reply r c m b : speaks_for r (send_reply r c m b).
Proof.
  intros w a w' [= <- <-]. split; [|auto].
  eexists. split; [reflexivity|]. by apply Forall_singleton.
Qed.

Lemma speaks_for_evhttp_send_error r c m : speaks_for r (evhttp_send_error r c m).
Proof.
  intros w a w' [= <- <-]. split; [|auto].
  eexists. split; [reflexivity|]. by apply Forall_singleton.
Qed.

Lemma speaks_for_send_error r c m : speaks_for r (send_error r c m).
Proof. apply speaks_for_send_reply. Qed.

Lemma speaks_for_send_error_sp r c e : speaks_for r (send_error_sp r c e).
Proof. apply speaks_for_send_error. Qed.

Lemma speaks_for_sp_playlist_add_tracks r p ts i s :
  speaks_for r (sp_playlist_add_tracks p ts i s).
Proof.
  apply speaks_for_silent. intros w a w'.
  unfold sp_playlist_add_tracks, bind, playlist_data, modify, ret.
  destruct (playlists w !! p); [|done]. simpl. intros [= <- <-]. auto.
Qed.

Lemma speaks_for_sp_playlist_remove_tracks r p ts :
  speaks_for r (sp_playlist_remove_tracks p ts).
Proof.
  apply speaks_for_silent. intros w a w'.
  unfold sp_playlist_remove_tracks, bind, playlist_data, modify, ret.
  destruct (playlists w !! p); [|done]. simpl. intros [= <- <-]. auto.
Qed.

Lemma speaks_for_sp_playlist_remove_callbacks r p k h :
  speaks_for r (sp_playlist_remove_callbacks p k h).
Proof.
  apply speaks_for_silent. intros w a w'. destruct k; intros [= <- <-]; auto.
Qed.

Lemma speaks_for_free r h : speaks_for r (free h).
Proof.
  apply speaks_for_silent. intros w a w' [= <- <-]. split; [done|].
  simpl. intros h' hd Hhd. left.
  destruct (decide (h = h')) as [->|Hne].
  - by rewrite lookup_delete_eq in Hhd.
  - by rewrite lookup_delete_ne in Hhd.
Qed.

Lemma speaks_for_register r p fn k ud :
  speaks_for r (register_playlist_callbacks p r fn k ud).
Proof.
  apply speaks_for_silent. intros w a w'.
  unfold register_playlist_callbacks, bind, malloc, sp_playlist_add_callbacks, modify, ret.
  simpl. intros [= <- <-]. split; [done|]. simpl. intros h hd Hhd.
  destruct (decide (next_addr w = h)) as [<-|Hne].
  - rewrite lookup_insert_eq in Hhd. injection Hhd as <-. by right.
  - rewrite lookup_insert_ne in Hhd by done. by left.
Qed.

Lemma speaks_for_diff_playlist_tracks_apply r diff p s :
  speaks_for r (diff_playlist_tracks_apply diff p s).
Proof.
  induction diff as [|[start count|start items] rest IH]; simpl.
  - apply speaks_for_ret.
  - apply speaks_for_bind; [apply speaks_for_sp_playlist_remove_tracks|].
    intros e. case_decide; [apply speaks_for_ret | apply IH].
  - apply speaks_for_bind; [apply speaks_for_sp_playlist_add_tracks|].
    intros e. case_decide; [apply speaks_for_ret | apply IH].
Qed.

#[local] Hint Resolve speaks_for_ret speaks_for_crash speaks_for_playlist_data
  speaks_for_handler_data speaks_for_send_reply speaks_for_evhttp_send_error
  speaks_for_send_error speaks_for_send_error_sp
  speaks_for_sp_playlist_add_tracks speaks_for_sp_playlist_remove_tracks
  speaks_for_sp_playlist_remove_callbacks speaks_for_free speaks_for_register
  speaks_for_diff_playlist_tracks_apply : speaks.

(** Walks through the binds and branches of a handler. *)
Ltac speaks :=
  repeat first
    [ solve [auto with speaks]
    | apply speaks_for_bind; [|intros ?]
    | case_decide
    | case_match ].

Lemma speaks_for_invoke fn p r ud : speaks_for r (invoke fn p r ud).
Proof.
  destruct fn; simpl.
  - unfold not_implemented. speaks.
  - unfold get_playlist. speaks.
  - unfold get_playlist_collaborative. speaks.
  - unfold put_playlist_add_tracks. speaks.
  - unfold put_playlist_remove_tracks. speaks.
  - unfold put_playlist_patch, diff_playlist_tracks, get_playlist. speaks.
Qed.

Lemma speaks_for_handle_request r : speaks_for r (handle_request r).
Proof.
  pose proof speaks_for_invoke.
  unfold handle_request, not_implemented. speaks.
Qed.

Lemma replies_to_app_other w w' r r' new :
  replies w' = replies w ++ new →
  Forall (λ rp, reply_request rp = r') new → r' ≠ r →
  replies_to w' r = replies_to w r.
Proof.
  intros Hr Hnew Hne. unfold replies_to. rewrite Hr, filter_app.
  assert (filter (λ rp, reply_request rp = r) new = []) as ->; [|by rewrite app_nil_r].
  clear Hr. induction Hnew as [|rp new Hrp _ IH]; [done|].
  rewrite filter_cons_False by congruence. exact IH.
Qed.

(** What a computation that speaks for another request leaves of the
    replies to [r] and of the handlers that carry [r]. *)
Lemma speaks_for_other r r' h0 {A} (m : M A) w a w' :
  speaks_for r' m → r' ≠ r → m w = Some (a, w') →
  carried_only_by w r h0 →
  replies_to w' r = replies_to w r ∧ carried_only_by w' r h0.
Proof.
  intros Hm Hne Hmw Hc. destruct (Hm _ _ _ Hmw) as [(new&Hr&Hnew) Hh]. split.
  - by eapply replies_to_app_other.
  - intros h hd Hhd Hreq. destruct (Hh _ _ Hhd) as [Hold|Hr']; [by eapply Hc|].
    congruence.
Qed.

Lemma playlist_dispatch_unfold p h w :
  playlist_dispatch p h w =
  match heap w !! h with
  | Some hd =>
      (sp_playlist_remove_callbacks p (playlist_callbacks hd) h ;;
       modify (set_heap (insert h (clear_playlist_callbacks hd))) ;;
       modify (set_invoked (λ hs, hs ++ [h])) ;;
       invoke (callback hd) p (request hd) (userdata hd) ;;
       free h) w
  | None => None
  end.
Proof.
  unfold playlist_dispatch, playlist_detach, bind, handler_data, ret.
  destruct (heap w !! h) as [hd|]; [|done].
  by destruct (sp_playlist_remove_callbacks p (playlist_callbacks hd) h w) as [[[] w1]|].
Qed.

Lemma speaks_for_dispatch_body p h hd :
  speaks_for (request hd)
    (sp_playlist_remove_callbacks p (playlist_callbacks hd) h ;;
     modify (set_heap (insert h (clear_playlist_callbacks hd))) ;;
     modify (set_invoked (λ hs, hs ++ [h])) ;;
     invoke (callback hd) p (request hd) (userdata hd) ;;
     free h).
Proof.
  apply speaks_for_bind; [apply speaks_for_sp_playlist_remove_callbacks|]. intros _.
  apply speaks_for_bind.
  { apply speaks_for_silent. intros w a w' [= <- <-]. split; [done|].
    simpl. intros h' hd' Hhd'. destruct (decide (h = h')) as [<-|Hne].
    - rewrite lookup_insert_eq in Hhd'. injection Hhd' as <-. by right.
    - rewrite lookup_insert_ne in Hhd' by done. by left. }
  intros _. apply speaks_for_bind.
  { apply speaks_for_silent. intros w a w' [= <- <-]. auto. }
  intros _. apply speaks_for_bind; [apply speaks_for_invoke|].
  intros _. apply speaks_for_free.
Qed.

Lemma callback_slot_cases k n p h w w' :
  callback_slot k n p h w = Some (tt, w') →
  w' = w ∨ playlist_dispatch p h w = Some (tt, w').
Proof.
  unfold callback_slot.
  destruct k, n as [|[]]; simpl; try (intros [= <-]; by left).
  - unfold playlist_state_changed, bind, playlist_data.
    destruct (playlists w !! p) as [pl|]; [|done]. simpl.
    destruct (pl_loaded pl); simpl; [by right | intros [= <-]; by left].
  - by right.
Qed.

(** A round of notification in which [h0] is not called sends nothing to
    the request that only [h0] carries. *)
Lemma deliver_quiet n p r h0 snapshot : ∀ w w',
  wf w → Forall (λ e, e.2 < next_addr w) snapshot →
  carried_only_by w r h0 →
  deliver n p snapshot w = Some (tt, w') → h0 ∉ invoked w' →
  replies_to w' r = replies_to w r ∧ carried_only_by w' r h0.
Proof.
  induction snapshot as [|[k h] rest IH]; intros w w' Hwf Hsnap Hc; simpl.
  - by intros [= <-].
  - apply Forall_cons in Hsnap as [_ Hrest]. unfold bind at 1.
    case_decide as Hreg; [|by apply IH].
    destruct (callback_slot k n p h w) as [[[] w1]|] eqn:Ec; [|done].
    intros Hd Hnin.
    destruct (callback_slot_cases _ _ _ _ _ _ Ec) as [->|Hdis]; [by apply IH|].
    destruct (dispatch_spec _ _ _ _ _ Hwf Hreg Hdis) as [Hwf1 (Hi1&Hn1&_)].
    assert (Hrest1 : Forall (λ e, e.2 < next_addr w1) rest).
    { eapply Forall_impl; [done|]. intros e ?. simpl in *. lia. }
    destruct (deliver_spec _ _ _ _ _ Hwf1 Hrest1 Hd) as (L&_&(Hi'&_)&_).
    assert (Hne : h ≠ h0).
    { intros ->. apply Hnin. rewrite Hi', Hi1, !elem_of_app, list_elem_of_singleton. auto. }
    destruct (wf_registered _ Hwf _ _ _ Hreg) as (_&hd&Hhd&_).
    rewrite playlist_dispatch_unfold, Hhd in Hdis.
    assert (Hreq : request hd ≠ r) by (intros Hr; by apply Hne, (Hc h hd)).
    destruct (speaks_for_other r _ h0 _ _ _ _ (speaks_for_dispatch_body p h hd) Hreq Hdis Hc)
      as [Hr1 Hc1].
    destruct (IH _ _ Hwf1 Hrest1 Hc1 Hd Hnin) as [Hr' Hc']. split; [congruence | done].
Qed.

Lemma step_quiet ev r h0 w w' :
  wf w → carried_only_by w r h0 → ev ≠ Ev_request r →
  step ev w = Some (tt, w') → h0 ∉ invoked w' →
  replies_to w' r = replies_to w r ∧ carried_only_by w' r h0.
Proof.
  intros Hwf Hc Hev. unfold step.
  destruct (loop_running w); simpl; [|by intros [= <-]].
  destruct ev as [r'|p n|p pl|].
  - intros Hr _. eapply speaks_for_other; [apply speaks_for_handle_request | | done..].
    congruence.
  - unfold notify. intros Hd Hnin.
    eapply deliver_quiet; [done | | done..].
    apply Forall_forall. intros [k h] Hin. by destruct (wf_registered _ Hwf _ _ _ Hin).
  - by intros [= <-].
  - by intros [= <-].
Qed.

(** As long as [h0] has not been called, the request that only [h0]
    carries, and that does not arrive again, gets no reply. *)
Lemma run_quiet r h0 evs : ∀ w w',
  wf w → carried_only_by w r h0 → Ev_request r ∉ evs →
  run evs w = Some (tt, w') → h0 ∉ invoked w' →
  replies_to w' r = replies_to w r.
Proof.
  induction evs as [|ev rest IH]; intros w w' Hwf Hc Hevs; simpl.
  - by intros [= <-].
  - apply not_elem_of_cons in Hevs as [Hev Hrest]. unfold bind.
    destruct (step ev w) as [[[] w1]|] eqn:Es; [|done]. intros Hr Hnin.
    destruct (step_spec _ _ _ Hwf Es) as (_&Hwf1&_).
    destruct (run_spec _ _ _ Hwf1 Hr) as (_&_&L&Hi).
    assert (Hnin1 : h0 ∉ invoked w1).
    { intros Hin. apply Hnin. rewrite Hi, elem_of_app. by left. }
    destruct (step_quiet _ _ _ _ _ Hwf Hc (not_eq_sym Hev) Es Hnin1) as [Hr1 Hc1].
    rewrite (IH _ _ Hwf1 Hc1 Hrest Hr Hnin). done.
Qed.

Lemma register_heap w p r fn k ud h w' :
  register_playlist_callbacks p r fn k ud w = Some (h, w') →
  heap w' = <[next_addr w := {| playlist_callbacks := Some k; request := r;
                               callback := fn; userdata := ud |}]> (heap w).
Proof. by intros [= <- <-]. Qed.

(** ** What the handlers build *)

Lemma send_error_unfold r c m w :
  send_error r c m w = Some (tt, set_replies (λ rs, rs ++ [error_reply r c m]) w).
Proof. reflexivity. Qed.

(** Where the loop over the items is defined, it reads the tracks of
    the items that stand for one, in their order. *)
Lemma collect_tracks_omap items : ∀ tracks,
  collect_tracks items = Some tracks → tracks = omap track_of_item items.
Proof.
  induction items as [|item rest IH]; intros tracks; [by intros [= <-]|].
  change (omap track_of_item (item :: rest)) with
    (match track_of_item item with
     | Some y => y :: omap track_of_item rest
     | None => omap track_of_item rest
     end).
  simpl. unfold track_of_item.
  destruct item; try done; try apply IH.
  destruct (sp_link_create_from_string s) as [l|]; [|apply IH].
  destruct (decide (link_type l = SP_LINKTYPE_TRACK)) as [Hty|Hty].
  - rewrite decide_False by (by intros ?).
    destruct (link_track l) as [track|]; [|apply IH].
    destruct (collect_tracks rest) as [ts|]; [|done].
    intros [= <-]. by rewrite (IH ts).
  - rewrite decide_True by done. apply IH.
Qed.

Lemma append_track_uris_spec ts : ∀ acc,
  append_track_uris (JArray acc) ts =
  JArray (acc ++ ((λ t, JString (string_take 63 (track_uri t))) <$> ts)).
Proof.
  induction ts as [|t rest IH]; intros acc; simpl.
  - by rewrite app_nil_r.
  - rewrite IH, <- app_assoc. done.
Qed.

Lemma playlist_json_get_payload pl : playlist_json pl = get_payload pl.
Proof.
  unfold playlist_json, get_payload. rewrite append_track_uris_spec. done.
Qed.

Lemma apply_replies diff p s : ∀ w e w',
  diff_playlist_tracks_apply diff p s w = Some (e, w') → replies w' = replies w.
Proof.
  induction diff as [|[start count|start items] rest IH]; intros w e w'; simpl.
  - by intros [= _ <-].
  - unfold bind at 1, sp_playlist_remove_tracks, bind, playlist_data, modify, ret.
    destruct (playlists w !! p); [|done]. simpl.
    case_decide; [by intros [= _ <-]|]. intros Hr. by rewrite (IH _ _ _ Hr).
  - unfold bind at 1, sp_playlist_add_tracks, bind, playlist_data, modify, ret.
    destruct (playlists w !! p); [|done]. simpl.
    case_decide; [by intros [= _ <-]|]. intros Hr. by rewrite (IH _ _ _ Hr).
Qed.

End registry_facts.

(** ** The example server *)

Lemma run_parked_example :
  @run Example.externals [Ev_request Example.get_request] (Example.world1 false [Example.A; Example.B; Example.C])
  = Some (tt, Example.parked).
Proof. vm_compute. reflexivity. Qed.

Lemma wf_parked : wf Example.parked.
Proof.
  eapply (@run_spec Example.externals); [|apply run_parked_example].
  by apply wf_no_registration.
Qed.

Lemma wf_parked_loaded : wf Example.parked_loaded.
Proof. destruct wf_parked. by split. Qed.

(** * The claims *)

(** ** The continuation registry *)

Section registry_claims.
Context `{!Externals}.

(** C1.  A registration made by [register_playlist_callbacks] has its
    handler called at most once, whatever the loop delivers;
    [playlist_dispatch] takes the registration out of the callback set
    before it calls the handler; and when the notification the
    registration waits for is raised once or several times in a row, the
    handler is called exactly once and is registered no more. *)
Theorem on_ready_at_most_once (w : world) (p : nat) (k : sp_playlist_callbacks) (h : nat) :
  wf w → (k, h) ∈ cbs w p →
  (∀ evs w', run evs w = Some (tt, w') →
     length (filter (λ x, x = h) (invoked w')) ≤ 1) ∧
  (∀ hd w1, playlist_detach p h w = Some (hd, w1) →
     ¬ registered w1 h ∧
     playlist_dispatch p h w =
       (modify (set_invoked (λ hs, hs ++ [h])) ;;
        invoke (callback hd) p (request hd) (userdata hd) ;;
        free h) w1) ∧
  (∀ n w', loop_running w = true → qualifies w p k (awaited k) →
     run (replicate (S n) (Ev_notify p (awaited k))) w = Some (tt, w') →
     length (filter (λ x, x = h) (invoked w')) = 1 ∧ ¬ registered w' h).
Proof.
  intros Hwf Hreg. split_and!.
  - intros evs w' Hr. destruct (run_spec _ _ _ Hwf Hr) as (Hwf'&_).
    apply NoDup_filter_eq_le, (wf_invoked_nodup _ Hwf').
  - intros hd w1 Hd. split.
    + destruct (detach_spec _ _ _ _ _ _ Hwf Hreg Hd) as (_&_&Hc&_).
      by intros (q&k'&[_ ?]%Hc).
    + unfold playlist_dispatch. unfold bind at 1. by rewrite Hd.
  - intros n w' Hrun Hq Hr.
    pose proof (run_awaited _ _ _ _ _ _ Hwf Hreg Hrun Hq Hr) as Hin.
    destruct (run_spec _ _ _ Hwf Hr) as (Hwf'&_). split.
    + apply Nat.le_antisymm.
      * apply NoDup_filter_eq_le, (wf_invoked_nodup _ Hwf').
      * by apply elem_of_filter_eq_ge.
    + by apply (wf_invoked _ Hwf').
Qed.

(** C4.  A request that reaches the last statement of [handle_request]
    is handed to [call_when_loaded] with the handler the [switch] has
    picked.  There the handler is called at once, with nothing parked,
    when the playlist is loaded.  When the playlist is not loaded the
    request is parked on state changes without any reply or backend
    call, and its handler runs only after the loop has delivered a
    state-changed notification for that playlist at a moment when the
    playlist was loaded; until then the handler stays parked, and as
    long as the handler has not run the request, which no earlier
    handler carries and which does not arrive a second time, gets no
    reply. *)
Theorem request_waits_for_load (r : evhttp_request) (p : nat)
    (fn : handle_playlist_fn) (ud : userdata_t) (pl : sp_playlist) (w : world) :
  wf w → playlists w !! p = Some pl →
  (dispatch_target r = Some (p, fn, ud) →
   handle_request r w = call_when_loaded p r fn ud w) ∧
  (pl_loaded pl = true → call_when_loaded p r fn ud w = invoke fn p r ud w) ∧
  (pl_loaded pl = false →
   ∃ w0, call_when_loaded p r fn ud w = Some (tt, w0) ∧
     replies w0 = replies w ∧ calls w0 = calls w ∧ invoked w0 = invoked w ∧
     playlists w0 = playlists w ∧
     cbs w0 p = cbs w p ++ [(playlist_state_changed_callbacks, next_addr w)] ∧
     heap w0 !! next_addr w =
       Some {| playlist_callbacks := Some playlist_state_changed_callbacks;
               request := r; callback := fn; userdata := ud |} ∧
     (∀ evs w', run evs w0 = Some (tt, w') → next_addr w ∈ invoked w' →
        ∃ evs1 evs2 w1,
          evs = evs1 ++ Ev_notify p N_state_changed :: evs2 ∧
          run evs1 w0 = Some (tt, w1) ∧ loaded w1 p ∧ loop_running w1 = true ∧
          (playlist_state_changed_callbacks, next_addr w) ∈ cbs w1 p ∧
          next_addr w ∉ invoked w1) ∧
     (∀ evs w', run evs w0 = Some (tt, w') →
        (∀ h hd, heap w !! h = Some hd → request hd ≠ r) →
        Ev_request r ∉ evs → next_addr w ∉ invoked w' →
        replies_to w' r = replies_to w r)).
Proof.
  intros Hwf Hp. split; [intros Hd; by rewrite (handle_request_dispatch _ _ _ _ Hd)|].
  unfold call_when_loaded.
  unfold bind at 1 3, playlist_data. rewrite Hp. split; intros Hl; rewrite Hl; [done|].
  unfold bind, ret.
  destruct (register_playlist_callbacks p r fn playlist_state_changed_callbacks ud w)
    as [[h w0]|] eqn:Er; [|done].
  destruct (register_spec _ _ _ _ _ _ _ _ Hwf Er) as (->&Hwf0&Hf0&Hc0&Hh0&Hp0&Hr0&Hk0).
  exists w0. split_and!; try done.
  - by destruct Hf0 as (Hi&_); rewrite app_nil_r in Hi.
  - intros evs w' Hr Hin.
    assert (Hreg : (playlist_state_changed_callbacks, next_addr w) ∈ cbs w0 p).
    { rewrite Hc0, elem_of_app, list_elem_of_singleton. by right. }
    destruct (run_parked _ _ _ _ _ _ Hwf0 Hreg Hr Hin)
      as (evs1&n&evs2&w1&->&Hr1&Hq&Hrun&Hreg1&Hnin).
    destruct n as [|b]; [|done].
    by exists evs1, evs2, w1.
  - intros evs w' Hr Hfresh Hevs Hnin.
    assert (Hc : carried_only_by w0 r (next_addr w)).
    { intros h hd. rewrite (register_heap _ _ _ _ _ _ _ _ Er).
      destruct (decide (next_addr w = h)) as [<-|Hne]; [done|].
      rewrite lookup_insert_ne by done. intros Hhd Hreq. by destruct (Hfresh _ _ Hhd). }
    rewrite (run_quiet _ _ _ _ _ Hwf0 Hc Hevs Hr Hnin).
    unfold replies_to. by rewrite Hr0.
Qed.

(** C5, as the code has it.  There is no failure indicator: a handler
    is called with the playlist, the request and its userdata only.  A
    registration stays in the callback set, with its handler allocated
    and uncalled, through every turn of the loop other than a
    notification on its playlist for which its predicate holds; and once
    the session has logged out and the loop is broken, nothing is
    dispatched any more. *)
Theorem registration_kept_until_predicate (w : world) (p : nat)
    (k : sp_playlist_callbacks) (h : nat) :
  wf w → (k, h) ∈ cbs w p →
  (∀ ev w', step ev w = Some (tt, w') →
     (∀ n, ev = Ev_notify p n → loop_running w = true → ¬ qualifies w p k n) →
     wf w' ∧ (k, h) ∈ cbs w' p ∧ heap w' !! h = heap w !! h ∧ h ∉ invoked w') ∧
  (∀ w', step Ev_logged_out w = Some (tt, w') → loop_running w' = false) ∧
  (loop_running w = false → ∀ evs, run evs w = Some (tt, w)).
Proof.
  intros Hwf Hreg. split_and!.
  - intros ev w' Hs Hnq.
    destruct (step_spec _ _ _ Hwf Hs) as (L&Hwf'&Hi&Hn&Hc&Hh&HL&_).
    destruct (wf_registered _ Hwf _ _ _ Hreg) as (Hlt&hd&Hhd&Hk).
    assert (HninL : h ∉ L).
    { intros HinL. destruct (HL _ HinL) as (p'&k'&n&->&Hreg'&Hq&Hrun).
      assert (p' = p) as -> by by eapply (wf_unique _ Hwf).
      assert (k' = k) as ->.
      { destruct (wf_registered _ Hwf _ _ _ Hreg') as (_&hd'&?&?). congruence. }
      by eapply Hnq. }
    split_and!; [done | by apply Hc | by apply Hh |].
    rewrite Hi, elem_of_app. intros [Hin|?]; [|done].
    destruct (wf_invoked _ Hwf _ Hin) as [_ []]. by exists p, k.
  - unfold step, logged_out, modify. intros w'.
    destruct (loop_running w) eqn:Hrun; simpl; by intros [= <-].
  - intros Hrun evs. by apply run_stopped.
Qed.

End registry_claims.

(** On the example server: the request parked as handler 0 is called
    exactly once by three state changes of the loaded playlist. *)
Lemma on_ready_at_most_once_witness :
  wf Example.parked_loaded ∧
  (playlist_state_changed_callbacks, 0) ∈ cbs Example.parked_loaded 1 ∧
  ∃ w', @run Example.externals
          (replicate 3 (Ev_notify 1 N_state_changed)) Example.parked_loaded
        = Some (tt, w') ∧
        length (filter (λ x, x = 0) (invoked w')) = 1.
Proof.
  assert (Hreg : (playlist_state_changed_callbacks, 0) ∈ cbs Example.parked_loaded 1).
  { vm_compute. apply list_elem_of_here. }
  split; [apply wf_parked_loaded|]. split; [exact Hreg|].
  destruct (@run Example.externals
              (replicate 3 (Ev_notify 1 N_state_changed)) Example.parked_loaded)
    as [[[] w']|] eqn:Er; [|by vm_compute in Er].
  exists w'. split; [done|].
  destruct (@on_ready_at_most_once Example.externals Example.parked_loaded 1
              playlist_state_changed_callbacks 0 wf_parked_loaded Hreg)
    as (_&_&Hexact).
  apply (Hexact 2 w'); [reflexivity | vm_compute; reflexivity | exact Er].
Defined.

(** On the example server: a request for a playlist that is not loaded
    is parked without a reply. *)
Lemma request_waits_for_load_witness :
  let w := Example.world1 false [Example.A; Example.B; Example.C] in
  wf w ∧
  @dispatch_target Example.externals Example.get_request
    = Some (1, fn_get_playlist, ud_NULL) ∧
  playlists w !! 1 = Some (Example.playlist1 false [Example.A; Example.B; Example.C]) ∧
  ∃ w0, @handle_request Example.externals Example.get_request w = Some (tt, w0) ∧
        replies w0 = [] ∧
        cbs w0 1 = [(playlist_state_changed_callbacks, 0)].
Proof.
  intros w.
  assert (Hwf : wf w) by by apply wf_no_registration.
  assert (Hd : @dispatch_target Example.externals Example.get_request
                 = Some (1, fn_get_playlist, ud_NULL))
    by (vm_compute; reflexivity).
  assert (Hp : playlists w !! 1
                 = Some (Example.playlist1 false [Example.A; Example.B; Example.C]))
    by reflexivity.
  split_and!; [exact Hwf | exact Hd | exact Hp |].
  destruct (@request_waits_for_load Example.externals Example.get_request 1
              fn_get_playlist ud_NULL _ w Hwf Hp) as (Hcall&_&Hparked).
  destruct (Hparked eq_refl) as (w0&Hr&Hrep&_&_&_&Hc&_).
  exists w0. split_and!; [by rewrite (Hcall Hd) | exact Hrep | exact Hc].
Defined.

(** On the example server: a state change of the playlist that is still
    not loaded leaves handler 0 parked. *)
Lemma registration_kept_until_predicate_witness :
  wf Example.parked ∧
  (playlist_state_changed_callbacks, 0) ∈ cbs Example.parked 1 ∧
  ∃ w', @step Example.externals (Ev_notify 1 N_state_changed) Example.parked
          = Some (tt, w') ∧
        (playlist_state_changed_callbacks, 0) ∈ cbs w' 1 ∧ 0 ∉ invoked w'.
Proof.
  assert (Hreg : (playlist_state_changed_callbacks, 0) ∈ cbs Example.parked 1).
  { vm_compute. apply list_elem_of_here. }
  split_and!; [apply wf_parked | exact Hreg |].
  destruct (@registration_kept_until_predicate Example.externals _ _ _ _ wf_parked Hreg)
    as (Hkept&_&_).
  destruct (@step Example.externals (Ev_notify 1 N_state_changed) Example.parked)
    as [[[] w']|] eqn:Es; [|by vm_compute in Es].
  exists w'. split; [reflexivity|].
  destruct (Hkept _ _ Es) as (_&?&_&?); [|done].
  intros n [= <-] _. vm_compute. discriminate.
Defined.

(** C5 as stated fails: a request parked on a playlist that does not
    load survives state changes and the end of the session; its handler
    is never called, nothing is sent, and the handler stays allocated. *)
Lemma registration_leaks_on_failure :
  let evs := [Ev_notify 1 N_state_changed; Ev_logged_out;
              Ev_notify 1 N_state_changed;
              Ev_backend 1 (Example.playlist1 true []);
              Ev_notify 1 N_state_changed] in
  ∃ w',
    @run Example.externals evs Example.parked = Some (tt, w') ∧
    invoked w' = [] ∧ replies w' = [] ∧
    cbs w' 1 = [(playlist_state_changed_callbacks, 0)] ∧
    is_Some (heap w' !! 0) ∧
    loop_running w' = false.
Proof.
  eexists. split_and!; try (vm_compute; reflexivity).
  vm_compute. by eexists.
Qed.

(** ** Requests and responses *)

Section request_claims.
Context `{!Externals}.

(** The branch that a defective input takes is one [send_error], the
    same in every state of the server. *)
Lemma defect_answer (fn : handle_playlist_fn) (r : evhttp_request)
    (d : input_defect) :
  has_defect fn r d →
  ∃ message, ∀ p ud, invoke fn p r ud = send_error r HTTP_BADREQUEST message.
Proof.
  intros Hd.
  destruct d as [| | |text|]; simpl in Hd.
  - destruct Hd as [[-> | ->] Hlen].
    + destruct (evhttp_find_query (req_uri r) "index" ≫= sscanf_int) as [i|] eqn:Hidx; eexists; intros p ud; simpl;
        unfold put_playlist_add_tracks; rewrite Hidx;
        [rewrite decide_True by done|]; reflexivity.
    + eexists. intros p ud. simpl. unfold put_playlist_patch.
      rewrite decide_True by done. reflexivity.
  - destruct Hd as [[-> | ->] Hidx]; eexists; intros p ud; simpl.
    + unfold put_playlist_add_tracks. rewrite Hidx. reflexivity.
    + unfold put_playlist_remove_tracks. rewrite Hidx. reflexivity.
  - destruct Hd as [-> Hcnt].
    destruct (evhttp_find_query (req_uri r) "index" ≫= sscanf_int) as [i|] eqn:Hidx;
      [destruct (decide (i < 0)%Z)|]; eexists; intros p ud; simpl;
      unfold put_playlist_remove_tracks; rewrite Hidx;
      [rewrite decide_True by done | rewrite decide_False, Hcnt by done |];
      reflexivity.
  - destruct Hd as [[-> | ->] Hjson].
    + destruct (evhttp_find_query (req_uri r) "index" ≫= sscanf_int) as [i|] eqn:Hidx;
        [destruct (decide (String.length (req_body r) = 0))|];
        eexists; intros p ud; simpl;
        unfold put_playlist_add_tracks; rewrite Hidx;
        [rewrite decide_True by done | rewrite decide_False, Hjson by done |];
        reflexivity.
    + destruct (decide (String.length (req_body r) = 0));
        eexists; intros p ud; simpl; unfold put_playlist_patch;
        [rewrite decide_True by done | rewrite decide_False, Hjson by done];
        reflexivity.
  - destruct Hd as [[-> | ->] (j&Hjson&Hnarr)].
    + destruct (evhttp_find_query (req_uri r) "index" ≫= sscanf_int) as [i|] eqn:Hidx;
        [destruct (decide (String.length (req_body r) = 0))|];
        eexists; intros p ud; simpl;
        unfold put_playlist_add_tracks; rewrite Hidx;
        [rewrite decide_True by done | rewrite decide_False, Hjson by done |];
        try reflexivity.
      destruct j; try reflexivity. by destruct (Hnarr items).
    + destruct (decide (String.length (req_body r) = 0));
        eexists; intros p ud; simpl; unfold put_playlist_patch;
        [rewrite decide_True by done | rewrite decide_False, Hjson by done];
        try reflexivity.
      destruct j; try reflexivity. by destruct (Hnarr items).
Qed.

(** C6, as the code has it.  A mutating handler that finds its input
    defective (no body, no numeric index or count, a body that is not
    JSON, JSON that is not an array) answers with status 400 and the
    error envelope and does nothing else: the world it leaves is the
    old one with that reply added, so no mutation primitive was called,
    no playlist changed and nothing was parked.  The last statement of
    [handle_request] calls the handler at once only for a loaded
    playlist; for one that is not loaded the request is parked without
    a reply, and the same answer is sent when
    [playlist_state_changed] finds the playlist loaded. *)
Theorem rejected_input_changes_nothing (fn : handle_playlist_fn) (p : nat)
    (r : evhttp_request) (ud : userdata_t) (d : input_defect) (w : world) :
  has_defect fn r d →
  ∃ message,
    let answer := error_reply r HTTP_BADREQUEST message in
    let w' := set_replies (λ rs, rs ++ [answer]) w in
    invoke fn p r ud w = Some (tt, w') ∧
    replies w' = replies w ++ [answer] ∧
    calls w' = calls w ∧ playlists w' = playlists w ∧
    callbacks w' = callbacks w ∧ heap w' = heap w ∧
    (∀ pl, playlists w !! p = Some pl → pl_loaded pl = true →
           call_when_loaded p r fn ud w = Some (tt, w')) ∧
    (∀ pl, playlists w !! p = Some pl → pl_loaded pl = false →
       ∃ w0, call_when_loaded p r fn ud w = Some (tt, w0) ∧
         replies w0 = replies w ∧ calls w0 = calls w ∧
         playlists w0 = playlists w ∧
         cbs w0 p = cbs w p ++ [(playlist_state_changed_callbacks, next_addr w)]) ∧
    (∀ h w1 pl1,
       heap w1 !! h =
         Some {| playlist_callbacks := Some playlist_state_changed_callbacks;
                 request := r; callback := fn; userdata := ud |} →
       playlists w1 !! p = Some pl1 →
       ∃ w2, playlist_state_changed p h w1 = Some (tt, w2) ∧
         replies w2 = replies w1 ++ (if pl_loaded pl1 then [answer] else []) ∧
         calls w2 = calls w1 ∧ playlists w2 = playlists w1).
Proof.
  intros Hd. destruct (defect_answer fn r d Hd) as [message Hm].
  exists message. intros answer w'. rewrite Hm, send_error_unfold.
  split_and!; try done.
  - intros pl Hp Hl. unfold call_when_loaded, bind, playlist_data.
    by rewrite Hp, Hl, Hm.
  - intros pl Hp Hl. unfold call_when_loaded, bind at 1, playlist_data.
    rewrite Hp, Hl. eexists. split; [reflexivity|]. split_and!; try done.
    by rewrite cbs_insert, decide_True.
  - intros h w1 pl1 Hh Hp.
    unfold playlist_state_changed, bind at 1, playlist_data at 1. rewrite Hp.
    destruct (pl_loaded pl1); simpl.
    + rewrite playlist_dispatch_unfold, Hh. simpl. rewrite Hm.
      eexists. split; [reflexivity|]. done.
    + eexists. split; [reflexivity|]. by rewrite app_nil_r.
Qed.

(** C7, as the code has it.  The answer of [get_playlist] is status 200
    with the serialisation of a JSON object that has exactly the fields
    uri, title, creator, collaborative (a boolean) and tracks, in this
    order; tracks is the array of the track URIs in playlist order, one
    per track.  The playlist URI and the track URIs are cut to the 63
    characters that fit the buffers. *)
Theorem get_playlist_payload (p : nat) (r : evhttp_request) (ud : userdata_t)
    (pl : sp_playlist) (w : world) :
  playlists w !! p = Some pl →
  get_playlist p r ud w =
    Some (tt, set_replies
                (λ rs, rs ++ [Reply_json r 200 "OK" (json_dumps (get_payload pl))]) w).
Proof.
  intros Hp. unfold get_playlist, bind, playlist_data. rewrite Hp.
  by rewrite playlist_json_get_payload.
Qed.

End request_claims.

(** On the example server: a patch request without a body. *)
Lemma rejected_input_changes_nothing_witness :
  let r := Example.req 11 EVHTTP_REQ_PUT "/playlist/spotify:user:u:playlist:1/patch" "" in
  let w := Example.world1 true [Example.A; Example.B; Example.C] in
  @has_defect Example.externals fn_put_playlist_patch r Missing_body ∧
  ∃ message,
    @invoke Example.externals fn_put_playlist_patch 1 r ud_state w =
      Some (tt, set_replies
                  (λ rs, rs ++ [@error_reply Example.externals r HTTP_BADREQUEST message]) w).
Proof.
  intros r w.
  assert (Hd : @has_defect Example.externals fn_put_playlist_patch r Missing_body).
  { split; [by right | reflexivity]. }
  split; [exact Hd|].
  destruct (@rejected_input_changes_nothing Example.externals _ 1 r ud_state _ w Hd)
    as (message&Hm&_).
  exists message. exact Hm.
Defined.

(** C6 as stated fails: an add request without index and body for a
    playlist that is not loaded is parked by the last statement of
    [handle_request]; nothing is sent at once, nothing on a state change
    that finds the playlist still not loaded, and the 400 only when the
    playlist has loaded. *)
Lemma rejected_input_waits_for_load :
  let r := Example.req 16 EVHTTP_REQ_PUT "/playlist/spotify:user:u:playlist:1/add" "" in
  let w := Example.world1 false [Example.A; Example.B; Example.C] in
  @has_defect Example.externals fn_put_playlist_add_tracks r Bad_index ∧
  ∃ w0 w1 w2,
    @call_when_loaded Example.externals 1 r fn_put_playlist_add_tracks ud_session w
      = Some (tt, w0) ∧
    replies w0 = [] ∧ cbs w0 1 = [(playlist_state_changed_callbacks, 0)] ∧
    @run Example.externals [Ev_notify 1 N_state_changed] w0 = Some (tt, w1) ∧
    replies w1 = [] ∧
    @run Example.externals
      [Ev_backend 1 (Example.playlist1 true [Example.A; Example.B; Example.C]);
       Ev_notify 1 N_state_changed] w1 = Some (tt, w2) ∧
    replies w2 = [@error_reply Example.externals r HTTP_BADREQUEST
                    "Bad parameter: index must be numeric"] ∧
    calls w2 = [].
Proof.
  split; [split; [by left | vm_compute; reflexivity]|].
  eexists _, _, _. split_and!; vm_compute; reflexivity.
Qed.

(** C10: a number among the items.  The loop hands it to [json_decref]
    although the array still owns it, so [put_playlist_add_tracks] and
    [put_playlist_patch] are undefined on such a body.  With null in
    its place the items that are no tracks are passed over, as the
    [continue] of the loop means them to be, and the one track is
    added. *)
Lemma counted_item_is_freed_in_the_array :
  let w := Example.world1 true [Example.A] in
  let patch := Example.req 18 EVHTTP_REQ_PUT
                 "/playlist/spotify:user:u:playlist:1/patch" "[1,album,D]" in
  @json_loads Example.externals (c_string (req_body Example.add_request))
    = inl (JArray [JInteger 1; JString "spotify:album:1"; Example.uri_of Example.D]) ∧
  @collect_tracks Example.externals
    [JInteger 1; JString "spotify:album:1"; Example.uri_of Example.D] = None ∧
  @put_playlist_add_tracks Example.externals 1 Example.add_request ud_session w = None ∧
  @put_playlist_patch Example.externals 1 patch ud_state w = None ∧
  @collect_tracks Example.externals
    [JNull; JString "spotify:album:1"; Example.uri_of Example.D] = Some [Example.D] ∧
  calls <$> (snd <$> @put_playlist_add_tracks Example.externals 1
                        Example.add_null_request ud_session w)
    = Some [Call_add_tracks 1 [Example.D] 1].
Proof. vm_compute. repeat split. Qed.

(** On the example server: the answer to a Get request. *)
Lemma get_playlist_payload_witness :
  playlists (Example.world1 true [Example.A; Example.B]) !! 1
    = Some (Example.playlist1 true [Example.A; Example.B]) ∧
  @get_playlist Example.externals 1 Example.get_request ud_NULL
      (Example.world1 true [Example.A; Example.B]) =
    Some (tt, set_replies
                (λ rs, rs ++ [Reply_json Example.get_request 200 "OK"
                   (@json_dumps Example.externals
                      (get_payload (Example.playlist1 true [Example.A; Example.B])))])
                (Example.world1 true [Example.A; Example.B])).
Proof.
  split; [reflexivity|].
  apply (@get_playlist_payload Example.externals). reflexivity.
Defined.

(** C7 as stated fails: the array of the items is under the key tracks,
    not items; and a URI of 64 characters or more is cut to 63. *)
Lemma get_playlist_payload_has_no_items :
  let pl := Example.playlist1 true [Example.A; Example.long_track] in
  let w := Example.world1 true [Example.A; Example.long_track] in
  ∃ body,
    replies <$> (snd <$> @get_playlist Example.externals 1 Example.get_request ud_NULL w)
      = Some [Reply_json Example.get_request 200 "OK" body] ∧
    body = @json_dumps Example.externals (get_payload pl) ∧
    body ≠ @json_dumps Example.externals (spec_get_payload pl) ∧
    get_payload pl =
      JObject [ ("uri", JString "spotify:user:u:playlist:1");
                ("title", JString "Mix");
                ("creator", JString "u");
                ("collaborative", JFalse);
                ("tracks",
                 JArray [ JString "spotify:track:A";
                          JString (string_take 63 (track_uri Example.long_track)) ]) ] ∧
    String.length (track_uri Example.long_track) = 72 ∧
    string_take 63 (track_uri Example.long_track) ≠ track_uri Example.long_track.
Proof.
  eexists. split_and!; try (vm_compute; reflexivity); vm_compute; discriminate.
Qed.

(** C8: the three error paths that go through [evhttp_send_error] send
    libevent's HTML error page, not the JSON envelope that [send_error]
    builds; the sibling path for a missing playlist URI sends the same
    "Bad Request" inside the envelope. *)
Lemma error_paths_without_envelope :
  let w := Example.world1 true [Example.A] in
  let answer r := replies <$> (snd <$> @handle_request Example.externals r w) in
  let unknown_method := Example.req 1 EVHTTP_REQ_DELETE "/playlist/spotify:user:u:playlist:1" "" in
  let bad_route := Example.req 2 EVHTTP_REQ_GET "/album/1" "" in
  let unimplemented := Example.req 3 EVHTTP_REQ_PUT "/playlist" "" in
  let no_playlist := Example.req 4 EVHTTP_REQ_GET "/playlist" "" in
  answer unknown_method = Some [Reply_html_error unknown_method 501 "Not Implemented"] ∧
  answer bad_route = Some [Reply_html_error bad_route 400 "Bad Request"] ∧
  answer unimplemented = Some [Reply_html_error unimplemented 500 "Not Implemented"] ∧
  answer no_playlist = Some [@error_reply Example.externals no_playlist 400 "Bad Request"].
Proof. vm_compute. repeat split. Qed.

(** ** Patching *)

Section patch_claims.
Context `{!Externals}.

(** C3, as the code has it.  The diff engine gives the empty script for
    equal sequences, one Insert of all of B from the empty sequence to a
    non-empty B, and one Remove spanning all of A from a non-empty A to
    the empty sequence; between two empty sequences the script is empty.
    A Patch request whose array is empty never reaches the diff engine:
    [put_playlist_patch] answers 200 with an empty body and leaves the
    playlist alone. *)
Theorem compute_edge_cases (A B : list sp_track) :
  Diff.compute A A = [] ∧
  (B ≠ [] → Diff.compute [] B = [Insert 0 B]) ∧
  (A ≠ [] → Diff.compute A [] = [Remove 0 (length A)]) ∧
  (∀ p r ud w,
     String.length (req_body r) ≠ 0 →
     json_loads (c_string (req_body r)) = inl (JArray []) →
     put_playlist_patch p r ud w =
       Some (tt, set_replies (λ rs, rs ++ [Reply_json r HTTP_OK "OK" ""]) w)).
Proof.
  unfold Diff.compute. split_and!.
  - by rewrite edits_same, script_of_keeps.
  - destruct B as [|x B]; [done|]. intros _. apply script_of_adds.
  - destruct A as [|x A]; [done|]. intros _.
    rewrite edits_to_empty. apply script_of_deletes.
  - intros p r ud w Hlen Hjson. unfold put_playlist_patch.
    rewrite decide_False, Hjson by done. done.
Qed.

(** C2, as the code has it.  [put_playlist_patch] computes one edit
    script and applies it once.  If the application fails it answers 400;
    if nothing is pending afterwards it answers at once with the
    playlist as it is; otherwise it parks one [get_playlist] handler on
    update-in-progress and sends nothing.  When libspotify then reports
    the update done, that handler leaves the registry and answers once,
    with status 200 and the playlist as it is at that moment, without
    comparing it with the desired sequence and without calling a
    mutation primitive again. *)
Theorem patch_answers_with_current_playlist (p : nat) (w : world) :
  (∀ r ud items tracks pl e w1 pl1,
     String.length (req_body r) ≠ 0 →
     json_loads (c_string (req_body r)) = inl (JArray items) →
     collect_tracks items = Some tracks → tracks ≠ [] →
     playlists w !! p = Some pl →
     diff_playlist_tracks_apply
       (Diff.compute (pl_tracks pl) tracks) p ud_session w
       = Some (e, w1) →
     playlists w1 !! p = Some pl1 →
     replies w1 = replies w ∧
     put_playlist_patch p r ud w =
       match e with
       | Some _ => send_error r HTTP_BADREQUEST "Could not apply diff" w1
       | None =>
           if pl_pending pl1
           then (register_playlist_callbacks p r fn_get_playlist
                   playlist_update_in_progress_callbacks ud_NULL ;;
                 ret tt) w1
           else send_reply r 200 "OK" (json_dumps (get_payload pl1)) w1
       end) ∧
  (∀ h r ud pl,
     wf w →
     (playlist_update_in_progress_callbacks, h) ∈ cbs w p →
     heap w !! h = Some {| playlist_callbacks := Some playlist_update_in_progress_callbacks;
                           request := r; callback := fn_get_playlist;
                           userdata := ud |} →
     playlists w !! p = Some pl →
     ∃ w', playlist_update_in_progress p true h w = Some (tt, w') ∧
       replies w' = replies w ++ [Reply_json r 200 "OK" (json_dumps (get_payload pl))] ∧
       calls w' = calls w ∧ playlists w' = playlists w ∧
       ¬ registered w' h ∧ heap w' !! h = None).
Proof.
  split.
  - intros r ud items tracks pl e w1 pl1 Hlen Hjson Hitems Hts Hp Ha Hp1.
    split; [by eapply apply_replies|].
    unfold put_playlist_patch. rewrite decide_False, Hjson by done.
    destruct items as [|item items]; [by injection Hitems as <-|].
    rewrite (decide_False (P := length (item :: items) = 0)) by done.
    rewrite Hitems. rewrite decide_False by (by destruct tracks).
    unfold bind at 1, playlist_data at 1. rewrite Hp.
    unfold diff_playlist_tracks. unfold bind at 1. rewrite Ha.
    destruct e as [e|]; [done|].
    unfold bind at 1, playlist_data at 1. rewrite Hp1.
    destruct (pl_pending pl1); simpl; [done|].
    unfold get_playlist, bind, playlist_data. rewrite Hp1.
    by rewrite playlist_json_get_payload.
  - intros h r ud pl Hwf Hreg Hh Hp.
    unfold playlist_update_in_progress.
    destruct (playlist_dispatch p h w) as [[[] w']|] eqn:Ed.
    + destruct (dispatch_spec _ _ _ _ _ Hwf Hreg Ed) as [Hwf' (Hi&_)].
      exists w'. split; [done|].
      assert (Hnr : ¬ registered w' h).
      { apply (wf_invoked _ Hwf'). rewrite Hi, elem_of_app, list_elem_of_singleton. by right. }
      revert Ed. unfold playlist_dispatch, playlist_detach, bind, handler_data.
      rewrite Hh. unfold sp_playlist_remove_callbacks, modify, ret. simpl.
      unfold get_playlist, bind, playlist_data. simpl. rewrite Hp.
      unfold send_reply, free, modify. simpl. intros [= <-]. simpl.
      split_and!; try done.
      * by rewrite playlist_json_get_payload.
      * by rewrite lookup_delete_eq.
    + exfalso. revert Ed. unfold playlist_dispatch, playlist_detach, bind, handler_data.
      rewrite Hh. unfold sp_playlist_remove_callbacks, modify, ret. simpl.
      unfold get_playlist, bind, playlist_data. simpl. by rewrite Hp.
Qed.

End patch_claims.

(** On the example tracks. *)
Lemma compute_edge_cases_witness :
  [Example.D] ≠ [] ∧ [Example.A; Example.B; Example.C] ≠ [] ∧
  Diff.compute [Example.A; Example.B; Example.C] [Example.A; Example.B; Example.C] = [] ∧
  Diff.compute [] [Example.D] = [Insert 0 [Example.D]] ∧
  Diff.compute [Example.A; Example.B; Example.C] [] = [Remove 0 3] ∧
  @put_playlist_patch Example.externals 1 Example.patch_empty_request ud_state
      (Example.world1 true [Example.A; Example.B; Example.C]) =
    Some (tt, set_replies
                (λ rs, rs ++ [Reply_json Example.patch_empty_request HTTP_OK "OK" ""])
                (Example.world1 true [Example.A; Example.B; Example.C])).
Proof.
  destruct (@compute_edge_cases Example.externals
              [Example.A; Example.B; Example.C] [Example.D])
    as (Hsame&Hins&Hrem&Hpatch).
  split_and!; [done | done | exact Hsame | by apply Hins | by apply Hrem |].
  apply Hpatch; [vm_compute; lia | vm_compute; reflexivity].
Defined.

(** C3 as stated fails: a Patch request for the empty sequence removes
    nothing, although the script from the playlist to the empty sequence
    is one Remove of everything; and the script between two empty
    sequences is empty, not one Insert. *)
Lemma patch_to_empty_removes_nothing :
  let current := [Example.A; Example.B; Example.C] in
  ∃ w',
    @put_playlist_patch Example.externals 1 Example.patch_empty_request ud_state
      (Example.world1 true current) = Some (tt, w') ∧
    @json_loads Example.externals (c_string (req_body Example.patch_empty_request))
      = inl (JArray []) ∧
    Diff.compute current [] = [Remove 0 3] ∧
    calls w' = [] ∧
    pl_tracks <$> playlists w' !! 1 = Some current ∧
    replies w' = [Reply_json Example.patch_empty_request 200 "OK" ""] ∧
    Diff.compute [] [] ≠ [Insert 0 []].
Proof.
  eexists. split_and!; try (vm_compute; reflexivity).
  vm_compute. discriminate.
Qed.

(** On the example server: the parked patch is answered with the
    playlist as the remote edit left it. *)
Lemma patch_answers_with_current_playlist_witness :
  ∃ w, (@put_playlist_patch Example.externals 1 Example.patch_request ud_state ;;
        @run Example.externals [Ev_backend 1 Example.playlist1_remote_edit])
         (Example.world1 true [Example.A; Example.B; Example.C]) = Some (tt, w) ∧
    wf w ∧
    (playlist_update_in_progress_callbacks, 0) ∈ cbs w 1 ∧
    ∃ w', @playlist_update_in_progress Example.externals 1 true 0 w = Some (tt, w') ∧
      replies w' = [Reply_json Example.patch_request 200 "OK"
                      (@json_dumps Example.externals
                         (get_payload Example.playlist1_remote_edit))] ∧
      calls w' = calls w.
Proof.
  destruct ((@put_playlist_patch Example.externals 1 Example.patch_request ud_state ;;
             @run Example.externals [Ev_backend 1 Example.playlist1_remote_edit])
              (Example.world1 true [Example.A; Example.B; Example.C]))
    as [[[] w]|] eqn:Er; [|by vm_compute in Er].
  assert (Hwf : wf w).
  { revert Er. unfold bind at 1.
    destruct (@put_playlist_patch Example.externals 1 Example.patch_request ud_state
                (Example.world1 true [Example.A; Example.B; Example.C]))
      as [[[] w0]|] eqn:Ep; [|done].
    intros Er. eapply (@run_spec Example.externals); [|exact Er].
    eapply (@invoke_frame Example.externals fn_put_playlist_patch);
      [|exact Ep]. by apply wf_no_registration. }
  assert (Hw : Some (tt, w) = Some (tt, w)) by reflexivity.
  rewrite <- Er in Hw at 1. vm_compute in Hw. injection Hw as Hw.
  exists w. split; [reflexivity|]. split; [exact Hwf|].
  assert (Hreg : (playlist_update_in_progress_callbacks, 0) ∈ cbs w 1).
  { rewrite <- Hw. vm_compute. apply list_elem_of_here. }
  split; [exact Hreg|].
  destruct (@patch_answers_with_current_playlist Example.externals 1 w) as [_ Hsettle].
  destruct (Hsettle 0 Example.patch_request ud_NULL Example.playlist1_remote_edit
              Hwf Hreg) as (w'&Hd&Hrep&Hcalls&_).
  - rewrite <- Hw. vm_compute. reflexivity.
  - rewrite <- Hw. vm_compute. reflexivity.
  - exists w'. split; [exact Hd|]. split; [|exact Hcalls].
    rewrite Hrep. rewrite <- Hw. reflexivity.
Defined.

(** C2 as stated fails: a remote edit that arrives while the patch is
    pending is neither detected nor repaired; the answer shows a
    playlist that differs from the desired sequence, and no second
    script is applied. *)
Lemma patch_does_not_recompute :
  let desired := [Example.A; Example.C; Example.D] in
  let evs := [Ev_backend 1 Example.playlist1_remote_edit;
              Ev_notify 1 (N_update_in_progress true)] in
  ∃ w',
    (@put_playlist_patch Example.externals 1 Example.patch_request ud_state ;;
     @run Example.externals evs) (Example.world1 true [Example.A; Example.B; Example.C])
      = Some (tt, w') ∧
    @json_loads Example.externals (c_string (req_body Example.patch_request))
      = inl (JArray (Example.uri_of <$> desired)) ∧
    @collect_tracks Example.externals (Example.uri_of <$> desired) = Some desired ∧
    replies w' = [Reply_json Example.patch_request 200 "OK"
                    (@json_dumps Example.externals
                       (get_payload Example.playlist1_remote_edit))] ∧
    pl_tracks <$> playlists w' !! 1
      = Some [Example.A; Example.X; Example.C; Example.D] ∧
    [Example.A; Example.X; Example.C; Example.D] ≠ desired ∧
    calls w' = [Call_remove_tracks 1 [1%Z]; Call_add_tracks 1 [Example.D] 2] ∧
    cbs w' 1 = [].
Proof.
  eexists. split_and!; try (vm_compute; reflexivity).
  vm_compute. discriminate.
Qed.

(** ** The event pump *)

Section pump_claims.
Context {session : Type} (spe : session → session * Z).

Lemma drain_spec n : ∀ fuel s,
  (∀ k, k < n → EventLoop.timeout_at spe k s = 0%Z) →
  EventLoop.timeout_at spe n s ≠ 0%Z →
  n < fuel →
  EventLoop.drain spe fuel s =
    Some (EventLoop.session_after spe (S n) s, EventLoop.timeout_at spe n s, S n).
Proof.
  induction n as [|n IH]; intros fuel s Hzero Hnz Hfuel;
    (destruct fuel as [|fuel]; [lia|]); simpl.
  - unfold EventLoop.timeout_at in Hnz. simpl in Hnz.
    by rewrite decide_False.
  - pose proof (Hzero 0 ltac:(lia)) as H0.
    unfold EventLoop.timeout_at in H0. simpl in H0.
    rewrite decide_True by done.
    rewrite (IH fuel (spe s).1); [done | | done | lia].
    intros k Hk. apply (Hzero (S k)). lia.
Qed.

(** C9.  When the backend reports the timeout 0 for its first [n]
    calls and a timeout other than 0 for the next one, [process_events]
    calls [sp_session_process_events] exactly [n + 1] times, stops
    there, and arms the timer with the [struct timeval] that denotes
    exactly the reported number of milliseconds. *)
Theorem process_events_drains_then_reschedules (n fuel : nat)
    (st : EventLoop.state session) :
  (∀ k, k < n → EventLoop.timeout_at spe k (EventLoop.st_session st) = 0%Z) →
  EventLoop.timeout_at spe n (EventLoop.st_session st) ≠ 0%Z →
  n < fuel →
  ∃ tv,
    EventLoop.process_events spe fuel st =
      Some {| EventLoop.st_session :=
                EventLoop.session_after spe (S n) (EventLoop.st_session st);
              EventLoop.timer := Some tv;
              EventLoop.next_timeout := tv;
              EventLoop.pumped := EventLoop.pumped st + S n |} ∧
    EventLoop.microseconds tv =
      (1000 * EventLoop.timeout_at spe n (EventLoop.st_session st))%Z.
Proof.
  intros Hzero Hnz Hfuel. unfold EventLoop.process_events.
  rewrite (drain_spec n) by done.
  eexists. split; [reflexivity|].
  unfold EventLoop.microseconds. simpl.
  pose proof (Z.quot_rem' (EventLoop.timeout_at spe n (EventLoop.st_session st)) 1000).
  lia.
Qed.

End pump_claims.

(** With the example backend: three calls, then 250 ms. *)
Lemma process_events_drains_then_reschedules_witness :
  let st := {| EventLoop.st_session := 0; EventLoop.timer := None;
               EventLoop.next_timeout := {| EventLoop.tv_sec := 0; EventLoop.tv_usec := 0 |};
               EventLoop.pumped := 0 |} in
  ∃ tv,
    EventLoop.process_events Example.two_then_250 10 st =
      Some {| EventLoop.st_session := 3; EventLoop.timer := Some tv;
              EventLoop.next_timeout := tv; EventLoop.pumped := 3 |} ∧
    EventLoop.microseconds tv = 250000%Z.
Proof.
  intros st.
  destruct (process_events_drains_then_reschedules Example.two_then_250 2 10 st)
    as (tv&Hp&Hus).
  - intros k Hk. destruct k as [|[|k]]; [reflexivity | reflexivity | lia].
  - vm_compute. discriminate.
  - lia.
  - exists tv. split; [exact Hp | exact Hus].
Defined.

(** * Further properties *)

(** ** The event pump, whenever it returns *)

Section pump_extras.
Context {session : Type} (spe : session → session * Z).

(** What a finished drain says of the backend's answers. *)
Lemma drain_inv fuel : ∀ s s' t n,
  EventLoop.drain spe fuel s = Some (s', t, n) →
  ∃ m, n = S m ∧ m < fuel ∧
    (∀ k, k < m → EventLoop.timeout_at spe k s = 0%Z) ∧
    EventLoop.timeout_at spe m s = t ∧ t ≠ 0%Z ∧
    s' = EventLoop.session_after spe (S m) s.
Proof.
  induction fuel as [|fuel IH]; intros s s' t n; simpl; [done|].
  case_decide as Hz.
  - destruct (EventLoop.drain spe fuel (spe s).1) as [[[s1 t1] n1]|] eqn:Ed; [|done].
    intros [= <- <- <-].
    destruct (IH _ _ _ _ Ed) as (m&->&Hm&Hzero&Ht&Hnz&Hs).
    exists (S m). split_and!; [done | lia | | done | done | done].
    intros [|k] Hk; [done|]. apply (Hzero k). lia.
  - intros [= <- <- <-]. exists 0. split_and!; [done | lia | | done | done | done].
    intros k Hk. lia.
Qed.

Lemma drain_none fuel : ∀ s,
  (∀ k, k < fuel → EventLoop.timeout_at spe k s = 0%Z) →
  EventLoop.drain spe fuel s = None.
Proof.
  induction fuel as [|fuel IH]; intros s Hzero; simpl; [done|].
  pose proof (Hzero 0 ltac:(lia)) as H0. unfold EventLoop.timeout_at in H0. simpl in H0.
  rewrite decide_True by done.
  rewrite IH; [done|]. intros k Hk. apply (Hzero (S k)). lia.
Qed.

(** X1.  Whenever [process_events] returns, it has called
    [sp_session_process_events] at least once, all calls but the last
    reported the timeout 0 and the last one did not, and the timer is
    armed with [next_timeout], which denotes exactly the last timeout;
    for a positive timeout the [struct timeval] is a proper one, with
    0 <= tv_usec < 1000000 and tv_sec >= 0. *)
Theorem process_events_returns_after_nonzero (fuel : nat)
    (st st' : EventLoop.state session) :
  EventLoop.process_events spe fuel st = Some st' →
  ∃ m t,
    EventLoop.pumped st' = EventLoop.pumped st + S m ∧
    (∀ k, k < m → EventLoop.timeout_at spe k (EventLoop.st_session st) = 0%Z) ∧
    EventLoop.timeout_at spe m (EventLoop.st_session st) = t ∧ t ≠ 0%Z ∧
    EventLoop.st_session st' = EventLoop.session_after spe (S m) (EventLoop.st_session st) ∧
    EventLoop.timer st' = Some (EventLoop.next_timeout st') ∧
    EventLoop.microseconds (EventLoop.next_timeout st') = (1000 * t)%Z ∧
    ((0 < t)%Z →
       (0 ≤ EventLoop.tv_sec (EventLoop.next_timeout st'))%Z ∧
       (0 ≤ EventLoop.tv_usec (EventLoop.next_timeout st') < 1000000)%Z).
Proof.
  unfold EventLoop.process_events.
  destruct (EventLoop.drain spe fuel (EventLoop.st_session st)) as [[[s' t] n]|] eqn:Ed;
    [|done].
  intros [= <-]. destruct (drain_inv _ _ _ _ _ Ed) as (m&->&Hm&Hzero&Ht&Hnz&Hs).
  exists m, t. simpl. split_and!; try done.
  - unfold EventLoop.microseconds. simpl. pose proof (Z.quot_rem' t 1000). lia.
  - intros Hpos. pose proof (Z.quot_rem' t 1000).
    pose proof (Z.rem_bound_pos t 1000 ltac:(lia) ltac:(lia)).
    pose proof (Z.quot_pos t 1000 ltac:(lia) ltac:(lia)). lia.
Qed.

(** X2.  As long as the backend keeps reporting the timeout 0,
    [process_events] stays in its loop: however many iterations are
    allowed, it does not return and does not arm the timer. *)
Theorem process_events_spins_on_zero (st : EventLoop.state session) :
  (∀ k, EventLoop.timeout_at spe k (EventLoop.st_session st) = 0%Z) →
  ∀ fuel, EventLoop.process_events spe fuel st = None.
Proof.
  intros Hzero fuel. unfold EventLoop.process_events.
  rewrite drain_none; [done|]. intros k _. apply Hzero.
Qed.

End pump_extras.

(** With the example backend, ten iterations allowed. *)
Lemma process_events_returns_after_nonzero_witness :
  let st := {| EventLoop.st_session := 0; EventLoop.timer := None;
               EventLoop.next_timeout := {| EventLoop.tv_sec := 0; EventLoop.tv_usec := 0 |};
               EventLoop.pumped := 0 |} in
  ∃ st' m t,
    EventLoop.process_events Example.two_then_250 10 st = Some st' ∧
    EventLoop.pumped st' = 0 + S m ∧ t ≠ 0%Z ∧
    EventLoop.timer st' = Some (EventLoop.next_timeout st') ∧
    EventLoop.microseconds (EventLoop.next_timeout st') = (1000 * t)%Z.
Proof.
  intros st.
  destruct (EventLoop.process_events Example.two_then_250 10 st) as [st'|] eqn:Ep;
    [|by vm_compute in Ep].
  destruct (process_events_returns_after_nonzero _ _ _ _ Ep)
    as (m&t&Hp&_&_&Hnz&_&Ht&Hus&_).
  exists st', m, t. split_and!; [reflexivity | exact Hp | exact Hnz | exact Ht | exact Hus].
Defined.

(** A backend that always has more work. *)
Lemma process_events_spins_on_zero_witness :
  let st := {| EventLoop.st_session := 0; EventLoop.timer := None;
               EventLoop.next_timeout := {| EventLoop.tv_sec := 0; EventLoop.tv_usec := 0 |};
               EventLoop.pumped := 0 |} in
  EventLoop.process_events (λ s : nat, (S s, 0%Z)) 1000 st = None.
Proof.
  intros st. apply process_events_spins_on_zero. intros k. reflexivity.
Defined.

(** ** The registry and the heap *)

Section leak_facts.
Context `{!Externals}.


#[local] Hint Resolve preserves_ret preserves_crash preserves_playlist_data
  preserves_send_reply preserves_evhttp_send_error preserves_send_error
  preserves_send_error_sp preserves_sp_playlist_add_tracks
  preserves_sp_playlist_remove_tracks preserves_diff_playlist_tracks_apply
  preserves_not_implemented preserves_get_playlist
  preserves_get_playlist_collaborative : preserves.

Lemma parks_preserves {A} (m : M A) : preserves m → parks m.
Proof.
  intros Hm w a w' Hmw h Hh. destruct (Hm _ _ _ Hmw) as (_&Hheap&_).
  left. by rewrite <- Hheap.
Qed.


Lemma parks_crash {A} : parks (@crash A).
Proof. by intros w a w'. Qed.

Lemma parks_send_reply r c m b : parks (send_reply r c m b).
Proof. apply parks_preserves, preserves_send_reply. Qed.

Lemma parks_evhttp_send_error r c m : parks (evhttp_send_error r c m).
Proof. apply parks_preserves, preserves_evhttp_send_error. Qed.

Lemma parks_send_error r c m : parks (send_error r c m).
Proof. apply parks_preserves, preserves_send_error. Qed.

Lemma parks_not_implemented p r u : parks (not_implemented p r u).
Proof. apply parks_preserves, preserves_not_implemented. Qed.

Lemma parks_get_playlist p r u : parks (get_playlist p r u).
Proof. apply parks_preserves, preserves_get_playlist. Qed.

Lemma parks_get_playlist_collaborative p r u : parks (get_playlist_collaborative p r u).
Proof. apply parks_preserves, preserves_get_playlist_collaborative. Qed.

Lemma registered_appended w (f : world → world) p k h :
  cbs (f w) p = cbs w p ++ [(k, h)] → registered (f w) h.
Proof.
  intros Hc. exists p, k. rewrite Hc, elem_of_app, list_elem_of_singleton. by right.
Qed.

Lemma parks_register p r fn k ud :
  parks (register_playlist_callbacks p r fn k ud ;; ret tt).
Proof.
  intros w a w' [= _ <-] h. simpl.
  destruct (decide (next_addr w = h)) as [<-|Hne].
  - intros _. right. exists p, k. rewrite cbs_insert, decide_True by done.
    rewrite elem_of_app, list_elem_of_singleton. by right.
  - rewrite lookup_insert_ne by done. by left.
Qed.


#[local] Hint Resolve parks_crash parks_send_reply parks_evhttp_send_error
  parks_send_error parks_not_implemented parks_get_playlist
  parks_get_playlist_collaborative parks_register : parks.



Lemma all_parked_same_registry w w' :
  same_registry w w' → all_parked w → all_parked w'.
Proof.
  intros (Hc&Hh&_) Hall h. rewrite Hh. intros (q&k&Hin)%Hall.
  exists q, k. unfold cbs. by rewrite Hc.
Qed.







End leak_facts.



(** ** One reply for a request *)

Section reply_facts.
Context `{!Externals}.

Lemma quiet_ret {A} (a : A) : quiet (ret a).
Proof. by intros w a' w' [= <- <-]. Qed.

Lemma quiet_playlist_data p : quiet (playlist_data p).
Proof.
  intros w a w'. unfold playlist_data.
  destruct (playlists w !! p); [|done]. by intros [= <- <-].
Qed.

Lemma quiet_bind {A B} (m : M A) (k : A → M B) :
  quiet m → (∀ a, quiet (k a)) → quiet (bind m k).
Proof.
  intros Hm Hk w b w'. unfold bind.
  destruct (m w) as [[a w1]|] eqn:E; [|done]. intros Hkw.
  destruct (Hm _ _ _ E) as [<- <-]. by apply (Hk a _ _ _ Hkw).
Qed.

Lemma quiet_sp_playlist_add_tracks p ts i s : quiet (sp_playlist_add_tracks p ts i s).
Proof.
  intros w a w'. unfold sp_playlist_add_tracks, bind, playlist_data, modify, ret.
  destruct (playlists w !! p); [|done]. simpl. by intros [= <- <-].
Qed.

Lemma quiet_sp_playlist_remove_tracks p ts : quiet (sp_playlist_remove_tracks p ts).
Proof.
  intros w a w'. unfold sp_playlist_remove_tracks, bind, playlist_data, modify, ret.
  destruct (playlists w !! p); [|done]. simpl. by intros [= <- <-].
Qed.

Lemma quiet_diff_playlist_tracks_apply diff p s :
  quiet (diff_playlist_tracks_apply diff p s).
Proof.
  induction diff as [|[start count|start items] rest IH]; simpl.
  - apply quiet_ret.
  - apply quiet_bind; [apply quiet_sp_playlist_remove_tracks|].
    intros e. case_decide; [apply quiet_ret | apply IH].
  - apply quiet_bind; [apply quiet_sp_playlist_add_tracks|].
    intros e. case_decide; [apply quiet_ret | apply IH].
Qed.

Lemma settling_crash r : settling r crash.
Proof. by intros w a w'. Qed.


Lemma settling_send_reply r c m b : settling r (send_reply r c m b).
Proof. intros w a w' [= _ <-]. left. eexists. split_and!; [reflexivity..|done]. Qed.

Lemma settling_evhttp_send_error r c m : settling r (evhttp_send_error r c m).
Proof. intros w a w' [= _ <-]. left. eexists. split_and!; [reflexivity..|done]. Qed.

Lemma settling_send_error r c m : settling r (send_error r c m).
Proof. apply settling_send_reply. Qed.

Lemma settling_send_error_sp r c e : settling r (send_error_sp r c e).
Proof. apply settling_send_error. Qed.

Lemma settling_not_implemented p r ud : settling r (not_implemented p r ud).
Proof. apply settling_evhttp_send_error. Qed.

(** Parking the request. *)
Lemma settling_register r p fn k ud :
  settling r (register_playlist_callbacks p r fn k ud ;; ret tt).
Proof.
  intros w a w' [= _ <-]. right. split; [done|]. exists (next_addr w).
  simpl. intros h hd Hhd. destruct (decide (next_addr w = h)) as [<-|Hne].
  - rewrite lookup_insert_eq in Hhd. injection Hhd as <-. by right.
  - rewrite lookup_insert_ne in Hhd by done. by left.
Qed.

(** The common end of [put_playlist_add_tracks] and
    [put_playlist_remove_tracks]: the request stays parked, or the
    handler is taken back and the request answered. *)
Lemma settling_park_tail r p fn k ud (m : M Z) c :
  quiet m →
  settling r
    (handler <- register_playlist_callbacks p r fn k ud ;;
     e <- m ;;
     if decide (e ≠ SP_ERROR_OK) then
       hd <- handler_data handler ;;
       sp_playlist_remove_callbacks p (playlist_callbacks hd) handler ;;
       free handler ;;
       send_error_sp r c e
     else ret tt).
Proof.
  intros Hm w a w'.
  destruct (register_playlist_callbacks p r fn k ud w) as [[h w1]|] eqn:Er;
    unfold bind at 1; rewrite Er; [|done].
  pose proof (register_heap _ _ _ _ _ _ _ _ Er) as Hh1.
  assert (Hr1 : replies w1 = replies w) by (by revert Er; intros [= _ <-]).
  assert (h = next_addr w) as -> by (by revert Er; intros [= <- _]).
  unfold bind at 1. destruct (m w1) as [[e w2]|] eqn:Em; [|done].
  destruct (Hm _ _ _ Em) as [Hr2 Hh2].
  case_decide as He.
  - unfold bind at 1, handler_data. rewrite Hh2, Hh1, lookup_insert_eq. simpl.
    unfold sp_playlist_remove_callbacks, free, modify, bind. simpl.
    intros [= _ <-]. left. eexists. simpl. rewrite Hr2, Hr1. split_and!; [done..|].
    intros h hd. rewrite Hh2, Hh1. destruct (decide (next_addr w = h)) as [<-|Hne].
    + by rewrite lookup_delete_eq.
    + by rewrite lookup_delete_ne, lookup_insert_ne.
  - intros [= _ <-]. right. split; [congruence|]. exists (next_addr w).
    intros h hd. rewrite Hh2, Hh1. destruct (decide (next_addr w = h)) as [<-|Hne].
    + rewrite lookup_insert_eq. intros [= <-]. by right.
    + rewrite lookup_insert_ne by done. by left.
Qed.

#[local] Hint Resolve quiet_ret quiet_playlist_data quiet_sp_playlist_add_tracks
  quiet_sp_playlist_remove_tracks quiet_diff_playlist_tracks_apply
  settling_crash settling_send_reply settling_evhttp_send_error settling_send_error
  settling_send_error_sp settling_not_implemented settling_register
  settling_park_tail : settle.




(** *** What the loop keeps of a property of one request *)

Section one_request.
Variable r : evhttp_request.
Variable I : world → Prop.
Hypothesis I_other : ∀ r' (m : M unit) w a w',
  speaks_for r' m → r' ≠ r → m w = Some (a, w') → I w → I w'.
Hypothesis I_own : ∀ p h hd w w',
  heap w !! h = Some hd → request hd = r →
  playlist_dispatch p h w = Some (tt, w') → I w → I w'.
Hypothesis I_ext : ∀ w w',
  replies w' = replies w → heap w' = heap w → I w → I w'.





End one_request.









End reply_facts.


(** ** What is sent *)

Section protocol_facts.
Context `{!Externals}.

Lemma protocol_silent {A} (m : M A) :
  (∀ w a w', m w = Some (a, w') → replies w' = replies w) → replies_in_protocol m.
Proof.
  intros Hm w a w' Hmw. exists []. by rewrite (Hm _ _ _ Hmw), app_nil_r.
Qed.

Lemma protocol_ret {A} (a : A) : replies_in_protocol (ret a).
Proof. apply protocol_silent. by intros w a' w' [= _ <-]. Qed.

Lemma protocol_crash {A} : replies_in_protocol (@crash A).
Proof. by intros w a w'. Qed.

Lemma protocol_bind {A B} (m : M A) (k : A → M B) :
  replies_in_protocol m → (∀ a, replies_in_protocol (k a)) →
  replies_in_protocol (bind m k).
Proof.
  intros Hm Hk w b w'. unfold bind.
  destruct (m w) as [[a w1]|] eqn:E; [|done]. intros Hkw.
  destruct (Hm _ _ _ E) as (new1&Hr1&Hn1).
  destruct (Hk _ _ _ _ Hkw) as (new2&Hr2&Hn2).
  exists (new1 ++ new2). rewrite Hr2, Hr1, app_assoc. split; [done|].
  by apply Forall_app.
Qed.

Lemma protocol_quiet {A} (m : M A) : quiet m → replies_in_protocol m.
Proof. intros Hm. apply protocol_silent. intros w a w' Hmw. by apply (Hm _ _ _ Hmw). Qed.

Lemma protocol_playlist_data p : replies_in_protocol (playlist_data p).
Proof. apply protocol_quiet, quiet_playlist_data. Qed.

Lemma protocol_sp_playlist_add_tracks p ts i s :
  replies_in_protocol (sp_playlist_add_tracks p ts i s).
Proof. apply protocol_quiet, quiet_sp_playlist_add_tracks. Qed.

Lemma protocol_sp_playlist_remove_tracks p ts :
  replies_in_protocol (sp_playlist_remove_tracks p ts).
Proof. apply protocol_quiet, quiet_sp_playlist_remove_tracks. Qed.

Lemma protocol_diff_playlist_tracks_apply diff p s :
  replies_in_protocol (diff_playlist_tracks_apply diff p s).
Proof. apply protocol_quiet, quiet_diff_playlist_tracks_apply. Qed.

Lemma protocol_handler_data h : replies_in_protocol (handler_data h).
Proof.
  apply protocol_silent. intros w a w'. unfold handler_data.
  destruct (heap w !! h); [|done]. by intros [= _ <-].
Qed.

Lemma protocol_sp_playlist_remove_callbacks p k h :
  replies_in_protocol (sp_playlist_remove_callbacks p k h).
Proof. apply protocol_silent. intros w a w'. by destruct k; intros [= _ <-]. Qed.

Lemma protocol_free h : replies_in_protocol (free h).
Proof. apply protocol_silent. by intros w a w' [= _ <-]. Qed.

Lemma protocol_register p r fn k ud :
  replies_in_protocol (register_playlist_callbacks p r fn k ud).
Proof. apply protocol_silent. by intros w a w' [= _ <-]. Qed.

Lemma protocol_send_reply_ok r b : replies_in_protocol (send_reply r HTTP_OK "OK" b).
Proof.
  intros w a w' [= _ <-]. eexists. split; [reflexivity|].
  apply Forall_singleton. by left.
Qed.

Lemma protocol_send_error_400 r m : replies_in_protocol (send_error r HTTP_BADREQUEST m).
Proof.
  intros w a w' [= _ <-]. eexists. split; [reflexivity|].
  apply Forall_singleton. right. split; [by left | done].
Qed.

Lemma protocol_send_error_404 r m : replies_in_protocol (send_error r HTTP_NOTFOUND m).
Proof.
  intros w a w' [= _ <-]. eexists. split; [reflexivity|].
  apply Forall_singleton. right. split; [by right | done].
Qed.

Lemma protocol_send_error_sp r e : replies_in_protocol (send_error_sp r HTTP_BADREQUEST e).
Proof. apply protocol_send_error_400. Qed.

Lemma protocol_bad_request r :
  replies_in_protocol (evhttp_send_error r HTTP_BADREQUEST "Bad Request").
Proof.
  intros w a w' [= _ <-]. eexists. split; [reflexivity|].
  apply Forall_singleton. by left.
Qed.

Lemma protocol_not_implemented_501 r :
  replies_in_protocol (evhttp_send_error r 501 "Not Implemented").
Proof.
  intros w a w' [= _ <-]. eexists. split; [reflexivity|].
  apply Forall_singleton. right. split; [by right | done].
Qed.

Lemma protocol_not_implemented p r ud : replies_in_protocol (not_implemented p r ud).
Proof.
  intros w a w' [= _ <-]. eexists. split; [reflexivity|].
  apply Forall_singleton. right. split; [by left | done].
Qed.

Lemma protocol_get_playlist p r ud : replies_in_protocol (get_playlist p r ud).
Proof.
  apply protocol_bind; [apply protocol_playlist_data|]. intros pl.
  apply (protocol_send_reply_ok r).
Qed.

#[local] Hint Resolve protocol_ret protocol_crash protocol_playlist_data
  protocol_sp_playlist_add_tracks protocol_sp_playlist_remove_tracks
  protocol_diff_playlist_tracks_apply protocol_handler_data
  protocol_sp_playlist_remove_callbacks protocol_free protocol_register
  protocol_send_reply_ok protocol_send_error_400 protocol_send_error_404
  protocol_send_error_sp protocol_bad_request protocol_not_implemented_501
  protocol_not_implemented protocol_get_playlist : protocol.

(** Walks through the binds and branches of a handler. *)
Ltac protocol :=
  repeat first
    [ solve [auto with protocol]
    | apply protocol_bind; [|intros ?]
    | case_decide
    | case_match ].

Lemma protocol_invoke fn p r ud : replies_in_protocol (invoke fn p r ud).
Proof.
  destruct fn; simpl.
  - protocol.
  - protocol.
  - unfold get_playlist_collaborative. protocol.
  - unfold put_playlist_add_tracks. protocol.
  - unfold put_playlist_remove_tracks. protocol.
  - unfold put_playlist_patch, diff_playlist_tracks. protocol.
Qed.

Lemma protocol_handle_request r : replies_in_protocol (handle_request r).
Proof.
  pose proof protocol_invoke.
  unfold handle_request. protocol.
Qed.

Lemma protocol_playlist_dispatch p h : replies_in_protocol (playlist_dispatch p h).
Proof.
  intros w a w'. destruct a. rewrite playlist_dispatch_unfold.
  destruct (heap w !! h) as [hd|]; [|done].
  revert w'. generalize tt. revert w.
  change (replies_in_protocol
            (sp_playlist_remove_callbacks p (playlist_callbacks hd) h ;;
             modify (set_heap (insert h (clear_playlist_callbacks hd))) ;;
             modify (set_invoked (λ hs, hs ++ [h])) ;;
             invoke (callback hd) p (request hd) (userdata hd) ;;
             free h)).
  pose proof protocol_invoke.
  apply protocol_bind; [auto with protocol|]. intros _.
  apply protocol_bind; [apply protocol_silent; by intros w a w' [= _ <-]|]. intros _.
  apply protocol_bind; [apply protocol_silent; by intros w a w' [= _ <-]|]. intros _.
  apply protocol_bind; [done|]. intros _. apply protocol_free.
Qed.

Lemma protocol_deliver n p snapshot : replies_in_protocol (deliver n p snapshot).
Proof.
  induction snapshot as [|[k h] rest IH]; simpl; [apply protocol_ret|].
  apply protocol_bind; [|by intros _].
  intros w a w'. case_decide; [|intros [= _ <-]; exists []; by rewrite app_nil_r].
  destruct a. intros Hc.
  destruct (callback_slot_cases _ _ _ _ _ _ Hc) as [->|Hd].
  - exists []. by rewrite app_nil_r.
  - by apply (protocol_playlist_dispatch p h w tt).
Qed.

Lemma protocol_step ev : replies_in_protocol (step ev).
Proof.
  intros w a w'. unfold step.
  destruct (loop_running w); simpl;
    [|intros [= _ <-]; exists []; by rewrite app_nil_r].
  destruct ev as [r|p n|p pl|].
  - apply protocol_handle_request.
  - apply protocol_deliver.
  - intros [= _ <-]. exists []. by rewrite app_nil_r.
  - intros [= _ <-]. exists []. by rewrite app_nil_r.
Qed.

(** X16.  What the server sends, over any sequence of requests,
    notifications, backend changes and log-outs: replies are only
    added, and every one of them is a JSON reply 200 OK, a JSON reply
    400 or 404 whose body is the error envelope of its reason phrase, or
    one of the HTML errors 400 Bad Request, 500 Not Implemented and 501
    Not Implemented. *)
Theorem replies_follow_protocol (evs : list event) (w w' : world) :
  run evs w = Some (tt, w') →
  ∃ new, replies w' = replies w ++ new ∧ Forall follows_protocol new.
Proof.
  revert w. induction evs as [|ev rest IH]; intros w; simpl.
  - intros [= <-]. exists []. by rewrite app_nil_r.
  - unfold bind. destruct (step ev w) as [[[] w1]|] eqn:Es; [|done]. intros Hr.
    destruct (protocol_step _ _ _ _ Es) as (new1&Hr1&Hn1).
    destruct (IH _ Hr) as (new2&Hr2&Hn2).
    exists (new1 ++ new2). rewrite Hr2, Hr1, app_assoc. split; [done|].
    by apply Forall_app.
Qed.

End protocol_facts.

(** On the example server: a DELETE, a GET of playlist 1 and a PUT
    that names no playlist. *)
Lemma replies_follow_protocol_witness :
  let w := Example.world1 true [Example.A; Example.B; Example.C] in
  let evs := [Ev_request (Example.req 14 EVHTTP_REQ_DELETE "/playlist/x" "");
              Ev_request Example.get_request;
              Ev_request (Example.req 15 EVHTTP_REQ_PUT "/playlist" "")] in
  ∃ w' new, @run Example.externals evs w = Some (tt, w') ∧
            replies w' = replies w ++ new ∧ length new = 3 ∧
            Forall (@follows_protocol Example.externals) new.
Proof.
  intros w evs.
  destruct (@run Example.externals evs w) as [[[] w']|] eqn:Er; [|by vm_compute in Er].
  destruct (@replies_follow_protocol Example.externals evs w w' Er) as (new&Hnew&Hok).
  exists w', new. split_and!; [reflexivity | exact Hnew | | exact Hok].
  revert Er Hnew. vm_compute. intros [= <-]. simpl. by intros [= <-].
Defined.

(** ** The handlers and the backend *)

Section handler_extras.
Context `{!Externals}.

(** X6.  The assertion of [get_playlist_collaborative] holds at both
    places that call it.  The last statement of [handle_request] calls
    it only for a loaded playlist, where it answers at once with the
    object whose only field is collaborative, and parks it otherwise;
    a parked one is left alone by a state change while the playlist is
    not loaded and answers in the same way once it is. *)
Theorem collaborative_assertion_holds (p : nat) (r : evhttp_request)
    (ud : userdata_t) (pl : sp_playlist) (w : world) :
  playlists w !! p = Some pl →
  let answer :=
    Reply_json r HTTP_OK "OK"
      (json_dumps (JObject [("collaborative",
                             if pl_collaborative pl then JTrue else JFalse)])) in
  call_when_loaded p r fn_get_playlist_collaborative ud w =
    (if pl_loaded pl then Some (tt, set_replies (λ rs, rs ++ [answer]) w)
     else (register_playlist_callbacks p r fn_get_playlist_collaborative
             playlist_state_changed_callbacks ud ;; ret tt) w) ∧
  (∀ h, heap w !! h =
          Some {| playlist_callbacks := Some playlist_state_changed_callbacks;
                  request := r; callback := fn_get_playlist_collaborative;
                  userdata := ud |} →
        ∃ w', playlist_state_changed p h w = Some (tt, w') ∧
              replies w' = replies w ++ (if pl_loaded pl then [answer] else [])).
Proof.
  intros Hp answer. split.
  - unfold call_when_loaded, bind at 1, playlist_data at 1. rewrite Hp.
    destruct (pl_loaded pl) eqn:Hl; [|done]. simpl.
    unfold get_playlist_collaborative, bind, playlist_data. by rewrite Hp, Hl.
  - intros h Hh. unfold playlist_state_changed, bind at 1, playlist_data at 1.
    rewrite Hp. destruct (pl_loaded pl) eqn:Hl; simpl.
    + rewrite playlist_dispatch_unfold, Hh. simpl.
      unfold bind, sp_playlist_remove_callbacks, modify. simpl.
      unfold get_playlist_collaborative, bind, playlist_data. simpl.
      rewrite Hp, Hl. simpl. eexists. split; [reflexivity|]. done.
    + eexists. split; [reflexivity|]. by rewrite app_nil_r.
Qed.

Lemma filter_fresh (l : list (sp_playlist_callbacks * nat)) e :
  e ∉ l → filter (λ x, x ≠ e) (l ++ [e]) = l.
Proof.
  intros Hnin. rewrite filter_app, filter_cons_False, filter_nil, app_nil_r by naive_solver.
  induction l as [|x l IH]; [done|].
  apply not_elem_of_cons in Hnin as [? ?].
  rewrite filter_cons_True by done. by rewrite IH.
Qed.

(** What the common end of the two mutating handlers leaves, by the
    backend's verdict [e]. *)
Lemma park_tail_outcome (m : M Z) p r w w1 e w2 w' :
  wf w →
  (∀ w0 a w3, m w0 = Some (a, w3) →
     callbacks w3 = callbacks w0 ∧ heap w3 = heap w0 ∧ replies w3 = replies w0) →
  register_playlist_callbacks p r fn_get_playlist
    playlist_update_in_progress_callbacks ud_NULL w = Some (next_addr w, w1) →
  m w1 = Some (e, w2) →
  (handler <- register_playlist_callbacks p r fn_get_playlist
                playlist_update_in_progress_callbacks ud_NULL ;;
   e <- m ;;
   if decide (e ≠ SP_ERROR_OK) then
     hd <- handler_data handler ;;
     sp_playlist_remove_callbacks p (playlist_callbacks hd) handler ;;
     free handler ;;
     send_error_sp r HTTP_BADREQUEST e
   else ret tt) w = Some (tt, w') →
  calls w' = calls w2 ∧ playlists w' = playlists w2 ∧
  if decide (e = SP_ERROR_OK) then
    replies w' = replies w ∧
    cbs w' p = cbs w p ++ [(playlist_update_in_progress_callbacks, next_addr w)] ∧
    (∀ q, q ≠ p → cbs w' q = cbs w q) ∧
    heap w' !! next_addr w =
      Some {| playlist_callbacks := Some playlist_update_in_progress_callbacks;
              request := r; callback := fn_get_playlist; userdata := ud_NULL |}
  else
    replies w' = replies w ++ [error_reply r HTTP_BADREQUEST (sp_error_message e)] ∧
    (∀ q, cbs w' q = cbs w q) ∧
    heap w' !! next_addr w = None.
Proof.
  intros Hwf Hm Er Hmw.
  destruct (register_spec _ _ _ _ _ _ _ _ Hwf Er) as (_&_&Hf1&Hc1&Hh1&_&Hr1&_).
  destruct (Hm _ _ _ Hmw) as (Hc&Hh&Hr).
  assert (Hcbs1 : ∀ q, q ≠ p → cbs w1 q = cbs w q).
  { intros q Hq. revert Er. intros [= <-]. unfold cbs. simpl.
    by rewrite lookup_insert_ne. }
  unfold bind at 1. rewrite Er. unfold bind at 1. rewrite Hmw.
  destruct (decide (e = SP_ERROR_OK)) as [->|Hne].
  - rewrite decide_False by (by intros ?). intros [= <-].
    split_and!; try done.
    + by rewrite Hr.
    + unfold cbs. rewrite Hc. apply Hc1.
    + intros q Hq. unfold cbs at 1. rewrite Hc. by apply Hcbs1.
    + by rewrite Hh.
  - rewrite decide_True by done.
    unfold bind at 1, handler_data. rewrite Hh, Hh1. simpl.
    unfold sp_playlist_remove_callbacks, free, modify, bind. simpl.
    intros [= <-]. simpl. split_and!; try done.
    + by rewrite Hr, Hr1.
    + intros q. unfold cbs at 1. simpl.
      destruct (decide (p = q)) as [<-|Hq].
      * rewrite lookup_insert_eq. simpl. unfold cbs at 1. rewrite Hc.
        fold (cbs w1 p). rewrite Hc1. apply filter_fresh.
        intros Hin. apply (wf_registered _ Hwf) in Hin as [? _]. lia.
      * rewrite lookup_insert_ne by done. rewrite Hc. by apply Hcbs1.
    + by rewrite lookup_delete_eq.
Qed.

Lemma register_succeeds p r fn k ud w :
  ∃ w1, register_playlist_callbacks p r fn k ud w = Some (next_addr w, w1) ∧
        playlists w1 = playlists w ∧ calls w1 = calls w.
Proof. by eexists. Qed.

Lemma backend_call_keeps (m : M Z) :
  (∃ p ts i s, m = sp_playlist_add_tracks p ts i s) ∨
  (∃ p ts, m = sp_playlist_remove_tracks p ts) →
  ∀ w0 a w3, m w0 = Some (a, w3) →
    callbacks w3 = callbacks w0 ∧ heap w3 = heap w0 ∧ replies w3 = replies w0.
Proof.
  intros [(p&ts&i&s&->)|(p&ts&->)] w0 a w3;
    unfold sp_playlist_add_tracks, sp_playlist_remove_tracks, bind, playlist_data,
      modify, ret;
    (destruct (playlists w0 !! p); [|done]); simpl; by intros [= <- <-].
Qed.

(** X7.  [put_playlist_remove_tracks] turns a numeric index that is not
    negative and a count of at least one into the call of
    [sp_playlist_remove_tracks] on exactly the indices index, index + 1,
    ..., index + count - 1; it never looks at the request body.  If
    libspotify accepts, nothing is sent yet and one [get_playlist]
    continuation waits for the update to be done; if it refuses, the
    request is answered 400 with libspotify's message, the continuation
    is taken back and its handler freed. *)
Theorem remove_tracks_calls_backend_on_range (p : nat) (r : evhttp_request)
    (ud : userdata_t) (index count : Z) (pl : sp_playlist) (w : world) :
  wf w →
  evhttp_find_query (req_uri r) "index" ≫= sscanf_int = Some index →
  evhttp_find_query (req_uri r) "count" ≫= sscanf_int = Some count →
  (0 ≤ index)%Z → (1 ≤ count)%Z → (index + (count - 1) ≤ INT_MAX)%Z →
  playlists w !! p = Some pl →
  let indices := seqZ index count in
  let result := backend_remove_tracks pl indices in
  ∃ w', put_playlist_remove_tracks p r ud w = Some (tt, w') ∧
    calls w' = calls w ++ [Call_remove_tracks p indices] ∧
    playlists w' = <[p := with_backend_result pl result]> (playlists w) ∧
    if decide (result.1.1 = SP_ERROR_OK) then
      replies w' = replies w ∧
      cbs w' p = cbs w p ++ [(playlist_update_in_progress_callbacks, next_addr w)] ∧
      heap w' !! next_addr w =
        Some {| playlist_callbacks := Some playlist_update_in_progress_callbacks;
                request := r; callback := fn_get_playlist; userdata := ud_NULL |}
    else
      replies w' = replies w ++
        [error_reply r HTTP_BADREQUEST (sp_error_message result.1.1)] ∧
      (∀ q, cbs w' q = cbs w q) ∧
      heap w' !! next_addr w = None.
Proof.
  intros Hwf Hidx Hcnt Hi Hc Hmax Hp indices result.
  unfold put_playlist_remove_tracks. rewrite Hidx, Hcnt.
  rewrite !decide_False by lia.
  rewrite fmap_add_seqZ, Z.add_0_r. fold indices.
  destruct (register_succeeds p r fn_get_playlist playlist_update_in_progress_callbacks
              ud_NULL w) as (w1&Er&Hp1&Hk1).
  assert (Hm : sp_playlist_remove_tracks p indices w1 =
               Some (result.1.1,
                     set_calls (λ cs, cs ++ [Call_remove_tracks p indices])
                       (set_playlists (insert p (with_backend_result pl result)) w1))).
  { unfold sp_playlist_remove_tracks, bind, playlist_data, modify, ret.
    by rewrite Hp1, Hp. }
  match goal with |- ∃ w', ?t w = _ ∧ _ => destruct (t w) as [[[] w']|] eqn:Et end.
  - exists w'. split; [done|].
    destruct (park_tail_outcome _ _ _ _ _ _ _ _ Hwf
                (backend_call_keeps _ (or_intror (ex_intro _ p (ex_intro _ indices eq_refl))))
                Er Hm Et) as (Hcalls&Hpl&Hout).
    rewrite Hcalls, Hpl. simpl. rewrite Hk1, Hp1. split_and!; [done..|].
    case_decide; [by destruct Hout as (?&?&_&?)|done].
  - exfalso. revert Et. unfold bind at 1. rewrite Er. unfold bind at 1. rewrite Hm.
    case_decide; [|done].
    unfold bind, handler_data. simpl.
    revert Er. intros [= <-]. simpl. by rewrite lookup_insert_eq.
Qed.

(** X8.  [put_playlist_add_tracks] with a numeric index and an array
    whose item loop is defined (no number, array or object among the
    items) and reads at least one track calls [sp_playlist_add_tracks]
    once, with the tracks read and the index as given (also a negative
    one).  If libspotify accepts, nothing is sent yet and one
    [get_playlist] continuation waits for the update to be done; if it
    refuses, the request is answered 400 with libspotify's message, the
    continuation is taken back and its handler freed. *)
Theorem add_tracks_calls_backend_once (p : nat) (r : evhttp_request)
    (ud : userdata_t) (index : Z) (items : list json_t) (tracks : list sp_track)
    (pl : sp_playlist) (w : world) :
  wf w →
  evhttp_find_query (req_uri r) "index" ≫= sscanf_int = Some index →
  String.length (req_body r) ≠ 0 →
  json_loads (c_string (req_body r)) = inl (JArray items) →
  collect_tracks items = Some tracks → tracks ≠ [] →
  playlists w !! p = Some pl →
  let result := backend_add_tracks pl tracks index in
  ∃ w', put_playlist_add_tracks p r ud w = Some (tt, w') ∧
    calls w' = calls w ++ [Call_add_tracks p tracks index] ∧
    playlists w' = <[p := with_backend_result pl result]> (playlists w) ∧
    if decide (result.1.1 = SP_ERROR_OK) then
      replies w' = replies w ∧
      cbs w' p = cbs w p ++ [(playlist_update_in_progress_callbacks, next_addr w)] ∧
      heap w' !! next_addr w =
        Some {| playlist_callbacks := Some playlist_update_in_progress_callbacks;
                request := r; callback := fn_get_playlist; userdata := ud_NULL |}
    else
      replies w' = replies w ++
        [error_reply r HTTP_BADREQUEST (sp_error_message result.1.1)] ∧
      (∀ q, cbs w' q = cbs w q) ∧
      heap w' !! next_addr w = None.
Proof.
  intros Hwf Hidx Hlen Hjson Hitems Hts Hp result.
  unfold put_playlist_add_tracks. rewrite Hidx, decide_False, Hjson by done.
  destruct items as [|item items]; [by injection Hitems as <-|].
  rewrite (decide_False (P := length (item :: items) = 0)) by done.
  rewrite Hitems. rewrite decide_False by (by destruct tracks).
  destruct (register_succeeds p r fn_get_playlist playlist_update_in_progress_callbacks
              ud_NULL w) as (w1&Er&Hp1&Hk1).
  assert (Hm : sp_playlist_add_tracks p tracks index ud w1 =
               Some (result.1.1,
                     set_calls (λ cs, cs ++ [Call_add_tracks p tracks index])
                       (set_playlists (insert p (with_backend_result pl result)) w1))).
  { unfold sp_playlist_add_tracks, bind, playlist_data, modify, ret.
    by rewrite Hp1, Hp. }
  match goal with |- ∃ w', ?t w = _ ∧ _ => destruct (t w) as [[[] w']|] eqn:Et end.
  - exists w'. split; [done|].
    destruct (park_tail_outcome _ _ _ _ _ _ _ _ Hwf
                (backend_call_keeps _
                   (or_introl (ex_intro _ p (ex_intro _ tracks
                      (ex_intro _ index (ex_intro _ ud eq_refl))))))
                Er Hm Et) as (Hcalls&Hpl&Hout).
    rewrite Hcalls, Hpl. simpl. rewrite Hk1, Hp1. split_and!; [done..|].
    case_decide; [by destruct Hout as (?&?&_&?)|done].
  - exfalso. revert Et. unfold bind at 1. rewrite Er. unfold bind at 1. rewrite Hm.
    case_decide; [|done].
    unfold bind, handler_data. simpl.
    revert Er. intros [= <-]. simpl. by rewrite lookup_insert_eq.
Qed.

(** Notifications that the update is still in progress call nobody. *)
Lemma run_not_done p n : ∀ w,
  (∀ k h, (k, h) ∈ cbs w p → k = playlist_update_in_progress_callbacks) →
  run (replicate n (Ev_notify p (N_update_in_progress false))) w = Some (tt, w).
Proof.
  intros w Hk.
  assert (Hd : ∀ snapshot, (∀ k h, (k, h) ∈ snapshot → k = playlist_update_in_progress_callbacks) →
            deliver (N_update_in_progress false) p snapshot w = Some (tt, w)).
  { induction snapshot as [|[k h] rest IH]; intros Hs; simpl; [done|].
    unfold bind at 1.
    assert (k = playlist_update_in_progress_callbacks) as ->
      by (eapply Hs, list_elem_of_here).
    case_decide; simpl; apply IH; intros k' h' ?; eapply Hs; by apply list_elem_of_further. }
  induction n as [|n IH]; simpl; [done|].
  unfold bind, step. destruct (loop_running w); simpl; [|exact IH].
  unfold notify. rewrite (Hd _ Hk). exact IH.
Qed.

(** X9.  An accepted add, from the handler's call to the answer.
    [put_playlist_add_tracks] for a playlist on which nobody waits, with
    a numeric index and an array whose item loop is defined and reads at
    least one track, that libspotify accepts: the tracks are handed to
    libspotify once, notifications that the update is still in progress
    change nothing, and the first notification that it is done answers
    the request with status 200 and the playlist as libspotify then has
    it, calls the continuation once, frees it and leaves nobody
    waiting. *)
Theorem add_is_answered_when_update_is_done (r : evhttp_request) (p : nat)
    (ud : userdata_t) (index : Z) (items : list json_t) (tracks : list sp_track)
    (pl : sp_playlist) (n : nat) (w : world) :
  loop_running w = true →
  playlists w !! p = Some pl → cbs w p = [] →
  evhttp_find_query (req_uri r) "index" ≫= sscanf_int = Some index →
  String.length (req_body r) ≠ 0 →
  json_loads (c_string (req_body r)) = inl (JArray items) →
  collect_tracks items = Some tracks → tracks ≠ [] →
  (backend_add_tracks pl tracks index).1.1 = SP_ERROR_OK →
  let pl' := with_backend_result pl (backend_add_tracks pl tracks index) in
  ∃ w',
    (put_playlist_add_tracks p r ud ;;
     run (replicate n (Ev_notify p (N_update_in_progress false)) ++
          [Ev_notify p (N_update_in_progress true)])) w = Some (tt, w') ∧
    replies w' = replies w ++ [Reply_json r 200 "OK" (json_dumps (get_payload pl'))] ∧
    calls w' = calls w ++ [Call_add_tracks p tracks index] ∧
    playlists w' = <[p := pl']> (playlists w) ∧
    invoked w' = invoked w ++ [next_addr w] ∧
    cbs w' p = [] ∧ heap w' = delete (next_addr w) (heap w).
Proof.
  intros Hrun Hp Hcbs Hidx Hlen Hjson Hitems Hts Hok pl'.
  set (k := playlist_update_in_progress_callbacks).
  set (hd := {| playlist_callbacks := Some k; request := r;
                callback := fn_get_playlist; userdata := ud_NULL |}).
  set (w1 := set_calls (λ cs, cs ++ [Call_add_tracks p tracks index])
               (set_playlists (insert p pl')
                  (set_callbacks (insert p (cbs w p ++ [(k, next_addr w)]))
                     (set_next_addr S (set_heap (insert (next_addr w) hd) w))))).
  assert (H1 : put_playlist_add_tracks p r ud w = Some (tt, w1)).
  { unfold put_playlist_add_tracks. rewrite Hidx, decide_False, Hjson by done.
    destruct items as [|item items]; [by injection Hitems as <-|].
    rewrite (decide_False (P := length (item :: items) = 0)) by done.
    rewrite Hitems. rewrite decide_False by (by destruct tracks).
    unfold bind at 1, register_playlist_callbacks, bind, malloc,
      sp_playlist_add_callbacks, modify, ret. simpl.
    unfold sp_playlist_add_tracks, bind, playlist_data, modify, ret. simpl.
    rewrite Hp. simpl. rewrite Hok.
    rewrite decide_False by (by intros ?). done. }
  assert (Hc1 : cbs w1 p = [(k, next_addr w)]).
  { change (cbs w1 p) with
      (cbs (set_callbacks (insert p (cbs w p ++ [(k, next_addr w)])) w) p).
    by rewrite cbs_insert, decide_True, Hcbs. }
  assert (H2 : run (replicate n (Ev_notify p (N_update_in_progress false))) w1
               = Some (tt, w1)).
  { apply run_not_done. intros k' h'. rewrite Hc1.
    by intros [= -> _]%list_elem_of_singleton. }
  unfold bind at 1. rewrite H1. rewrite run_app, H2. simpl.
  unfold bind, step. change (loop_running w1) with (loop_running w). rewrite Hrun. simpl.
  unfold notify. rewrite Hc1. simpl. unfold bind at 1.
  rewrite decide_True by (rewrite Hc1; apply list_elem_of_here).
  unfold playlist_update_in_progress. rewrite playlist_dispatch_unfold.
  change (heap w1) with (<[next_addr w := hd]> (heap w)). rewrite lookup_insert_eq.
  unfold sp_playlist_remove_callbacks, bind, modify, free. simpl.
  unfold get_playlist, bind, playlist_data, send_reply, modify. simpl.
  rewrite lookup_insert_eq. simpl.
  eexists. split; [reflexivity|]. simpl.
  rewrite playlist_json_get_payload. split_and!; try done.
  - unfold cbs at 1. simpl. rewrite lookup_insert_eq. simpl.
    rewrite Hc1. rewrite filter_cons_False by (by intros []). done.
  - by rewrite delete_insert_eq, delete_insert_eq.
Qed.

End handler_extras.

(** On the example server: the collaborative handler at the last
    statement of [handle_request], playlist 1 loaded. *)
Lemma collaborative_assertion_holds_witness :
  let w := Example.world1 true [Example.A] in
  let r := Example.req 11 EVHTTP_REQ_GET
             "/playlist/spotify:user:u:playlist:1/collaborative" "" in
  playlists w !! 1 = Some (Example.playlist1 true [Example.A]) ∧
  @call_when_loaded Example.externals 1 r fn_get_playlist_collaborative ud_NULL w =
    Some (tt, set_replies
                (λ rs, rs ++ [Reply_json r HTTP_OK "OK"
                                (@json_dumps Example.externals
                                   (JObject [("collaborative", JFalse)]))]) w).
Proof.
  intros w r. split; [reflexivity|].
  destruct (@collaborative_assertion_holds Example.externals 1 r ud_NULL
              (Example.playlist1 true [Example.A]) w eq_refl) as [Hnow _].
  exact Hnow.
Defined.

(** On the example server: PUT .../remove?index=1&count=2 takes the
    tracks at 1 and 2 out of [A; B; C]. *)
Lemma remove_tracks_calls_backend_on_range_witness :
  let w := Example.world1 true [Example.A; Example.B; Example.C] in
  let r := Example.req 12 EVHTTP_REQ_PUT
             "/playlist/spotify:user:u:playlist:1/remove?index=1&count=2" "" in
  ∃ w', @put_playlist_remove_tracks Example.externals 1 r ud_session w = Some (tt, w') ∧
        calls w' = [Call_remove_tracks 1 [1; 2]%Z] ∧
        replies w' = [] ∧
        cbs w' 1 = [(playlist_update_in_progress_callbacks, 0)].
Proof.
  intros w r.
  assert (Hwf : wf w) by by apply wf_no_registration.
  destruct (@remove_tracks_calls_backend_on_range Example.externals 1 r ud_session
              1%Z 2%Z (Example.playlist1 true [Example.A; Example.B; Example.C]) w Hwf)
    as (w'&Hr&Hcalls&_&Hout).
  - vm_compute. reflexivity.
  - vm_compute. reflexivity.
  - lia.
  - lia.
  - vm_compute. discriminate.
  - reflexivity.
  - rewrite decide_True in Hout by (vm_compute; reflexivity).
    destruct Hout as (Hrep&Hcbs&_).
    exists w'. split_and!; [exact Hr | exact Hcalls | exact Hrep | exact Hcbs].
Defined.

(** On the example server: PUT .../add?index=1 with one track behind a
    null and an album link. *)
Lemma add_tracks_calls_backend_once_witness :
  let w := Example.world1 true [Example.A; Example.B; Example.C] in
  let r := Example.add_null_request in
  ∃ w', @put_playlist_add_tracks Example.externals 1 r ud_session w = Some (tt, w') ∧
        calls w' = [Call_add_tracks 1 [Example.D] 1%Z] ∧
        replies w' = [] ∧
        cbs w' 1 = [(playlist_update_in_progress_callbacks, 0)].
Proof.
  intros w r.
  assert (Hwf : wf w) by by apply wf_no_registration.
  destruct (@add_tracks_calls_backend_once Example.externals 1 r ud_session 1%Z
              [JNull; JString "spotify:album:1"; Example.uri_of Example.D]
              [Example.D]
              (Example.playlist1 true [Example.A; Example.B; Example.C]) w Hwf)
    as (w'&Hr&Hcalls&_&Hout).
  - vm_compute. reflexivity.
  - vm_compute. discriminate.
  - vm_compute. reflexivity.
  - vm_compute. reflexivity.
  - discriminate.
  - reflexivity.
  - rewrite decide_True in Hout by (vm_compute; reflexivity).
    destruct Hout as (Hrep&Hcbs&_).
    exists w'. split_and!; [exact Hr | exact Hcalls | exact Hrep | exact Hcbs].
Defined.

(** On the example server: the same call, two notifications that the
    update is in progress, and the one that it is done. *)
Lemma add_is_answered_when_update_is_done_witness :
  let w := Example.world1 true [Example.A; Example.B; Example.C] in
  let r := Example.add_null_request in
  let pl := Example.playlist1 true [Example.A; Example.B; Example.C] in
  let pl' := with_backend_result pl (Example.add_tracks pl [Example.D] 1%Z) in
  ∃ w',
    (@put_playlist_add_tracks Example.externals 1 r ud_session ;;
     @run Example.externals
       (replicate 2 (Ev_notify 1 (N_update_in_progress false)) ++
        [Ev_notify 1 (N_update_in_progress true)])) w = Some (tt, w') ∧
    replies w' = [Reply_json r 200 "OK" (@json_dumps Example.externals (get_payload pl'))] ∧
    invoked w' = [0] ∧ cbs w' 1 = [].
Proof.
  intros w r pl pl'.
  destruct (@add_is_answered_when_update_is_done Example.externals r 1 ud_session 1%Z
              [JNull; JString "spotify:album:1"; Example.uri_of Example.D]
              [Example.D]
              (Example.playlist1 true [Example.A; Example.B; Example.C]) 2 w)
    as (w'&Hr&Hrep&_&_&Hinv&Hcbs&_).
  - reflexivity.
  - reflexivity.
  - reflexivity.
  - vm_compute. reflexivity.
  - vm_compute. discriminate.
  - vm_compute. reflexivity.
  - vm_compute. reflexivity.
  - discriminate.
  - vm_compute. reflexivity.
  - exists w'. split_and!; [exact Hr | exact Hrep | exact Hinv | exact Hcbs].
Defined.

(** ** The router *)

Section router_extras.
Context `{!Externals}.

(** X10.  A PUT or POST to /playlist/<uri> with a link of an existing
    playlist and no action is undefined, whatever the server's state:
    [handle_request] hands the NULL that [strtok] returned to
    [strncmp]. *)
Theorem put_without_action_is_undefined (r : evhttp_request) (w : world)
    (entity playlist_uri : string) (playlist_link : sp_link) (playlist : nat) :
  req_command r = EVHTTP_REQ_PUT ∨ req_command r = EVHTTP_REQ_POST →
  strtok_slash EmptyString (evhttp_decode_uri (req_uri r)) = [entity; playlist_uri] →
  strncmp_eq entity "playlist" = true →
  sp_link_create_from_string playlist_uri = Some playlist_link →
  link_type playlist_link = SP_LINKTYPE_PLAYLIST →
  sp_playlist_create playlist_link = Some playlist →
  handle_request r w = None.
Proof.
  intros Hcmd Htok Hent Hlink Hty Hpl. unfold handle_request.
  rewrite Htok. simpl. rewrite Hent, Hlink. simpl.
  rewrite decide_False by (by intros ?). rewrite Hpl.
  by destruct Hcmd as [-> | ->].
Qed.

(** X11.  A request that does not reach the last statement of
    [handle_request] is answered by [handle_request] itself with
    exactly one error reply, of status 400, 404, 500 or 501, and nothing
    else of the server changes; or the behaviour is undefined, which
    takes a PUT, a POST or a request that names an action: the [switch]
    hands the action to [strncmp] when NULL for a PUT or POST, and
    after [free (uri)] has freed the buffer it points into. *)
Theorem router_rejects_with_one_error (r : evhttp_request) (w : world) :
  dispatch_target r = None →
  (∃ rp, handle_request r w = Some (tt, set_replies (λ rs, rs ++ [rp]) w) ∧
         reply_request rp = r ∧ reply_code rp ∈ [400; 404; 500; 501]%Z) ∨
  (handle_request r w = None ∧
   (req_command r = EVHTTP_REQ_PUT ∨ req_command r = EVHTTP_REQ_POST ∨
    is_Some (strtok_slash EmptyString (evhttp_decode_uri (req_uri r)) !! 2))).
Proof.
  unfold dispatch_target, handle_request. intros Hd.
  assert (Hone : ∀ rp, reply_request rp = r → reply_code rp ∈ [400; 404; 500; 501]%Z →
            ∃ rp0, Some (tt, set_replies (λ rs, rs ++ [rp]) w)
                     = Some (tt, set_replies (λ rs, rs ++ [rp0]) w) ∧
                   reply_request rp0 = r ∧ reply_code rp0 ∈ [400; 404; 500; 501]%Z).
  { intros rp ? ?. by exists rp. }
  assert (H400 : (400 ∈ [400; 404; 500; 501])%Z) by apply list_elem_of_here.
  assert (H404 : (404 ∈ [400; 404; 500; 501])%Z)
    by apply list_elem_of_further, list_elem_of_here.
  assert (H500 : (500 ∈ [400; 404; 500; 501])%Z)
    by apply list_elem_of_further, list_elem_of_further, list_elem_of_here.
  assert (H501 : (501 ∈ [400; 404; 500; 501])%Z)
    by apply list_elem_of_further, list_elem_of_further, list_elem_of_further,
         list_elem_of_here.
  destruct (req_command r) eqn:Hcmd;
    try (left; by apply Hone);
    (destruct (strtok_slash _ _ !! 0) as [entity|]; [|left; by apply Hone]);
    (destruct (strncmp_eq entity _); cbn [negb]; [|left; by apply Hone]);
    (destruct (strtok_slash _ _ !! 1) as [playlist_uri|]; [|left; by apply Hone]);
    (destruct (sp_link_create_from_string _) as [l|]; [|left; by apply Hone]);
    (destruct (decide (link_type l = SP_LINKTYPE_PLAYLIST)) as [Hty|Hty];
       [rewrite decide_False by (by intros ?)
       |rewrite decide_True by done; left; by apply Hone]);
    (destruct (sp_playlist_create l) as [playlist|]; [|left; by apply Hone]);
    (destruct (select_callback _ _) as [[fn ud]|] eqn:Es; [done|]);
    right; (split; [done|]); auto.
  right. right. destruct (strtok_slash _ _ !! 2); [by eexists | done].
Qed.

(** X17.  The action is read after its buffer is freed.  Whatever the
    server's state, a GET, PUT or POST to /playlist/<uri>/<action> whose
    uri is the link of an existing playlist is undefined:
    [handle_request] frees [uri] and then hands [action], a token
    inside that buffer, to [strncmp]. *)
Theorem action_is_read_after_free (r : evhttp_request) (w : world)
    (entity playlist_uri action : string) (rest : list string)
    (playlist_link : sp_link) (playlist : nat) :
  req_command r = EVHTTP_REQ_GET ∨ req_command r = EVHTTP_REQ_PUT ∨
    req_command r = EVHTTP_REQ_POST →
  strtok_slash EmptyString (evhttp_decode_uri (req_uri r))
    = entity :: playlist_uri :: action :: rest →
  strncmp_eq entity "playlist" = true →
  sp_link_create_from_string playlist_uri = Some playlist_link →
  link_type playlist_link = SP_LINKTYPE_PLAYLIST →
  sp_playlist_create playlist_link = Some playlist →
  handle_request r w = None.
Proof.
  intros Hcmd Htok Hent Hlink Hty Hpl. unfold handle_request.
  rewrite Htok. simpl. rewrite Hent, Hlink. simpl.
  rewrite decide_False by (by intros ?). rewrite Hpl.
  by destruct Hcmd as [-> | [-> | ->]].
Qed.

(** X18.  So the one handler that the [switch] of [handle_request] can
    pick without reading freed memory or NULL is [get_playlist], for a
    GET that names no action. *)
Theorem only_get_playlist_is_dispatched (r : evhttp_request) (p : nat)
    (fn : handle_playlist_fn) (ud : userdata_t) :
  dispatch_target r = Some (p, fn, ud) →
  req_command r = EVHTTP_REQ_GET ∧ fn = fn_get_playlist ∧ ud = ud_NULL ∧
  strtok_slash EmptyString (evhttp_decode_uri (req_uri r)) !! 2 = None.
Proof.
  unfold dispatch_target.
  destruct (req_command r) eqn:Hcmd; try done;
    (destruct (strtok_slash _ _ !! 0) as [entity|]; [|done]);
    (destruct (strtok_slash _ _ !! 1) as [playlist_uri|]; [|done]);
    (destruct (strncmp_eq entity _); [|done]);
    (destruct (sp_link_create_from_string _) as [l|]; [|done]);
    (case_decide as Hty; [|done]);
    (destruct (sp_playlist_create l) as [playlist|]; [|done]);
    (destruct (strtok_slash _ _ !! 2) as [action|]; simpl; [done|]);
    try done.
  by intros [= <- <- <-].
Qed.

End router_extras.

(** On the example server: PUT /playlist/<playlist 1>. *)
Lemma put_without_action_is_undefined_witness :
  let r := Example.req 13 EVHTTP_REQ_PUT "/playlist/spotify:user:u:playlist:1" "" in
  @handle_request Example.externals r (Example.world1 true []) = None.
Proof.
  intros r.
  apply (@put_without_action_is_undefined Example.externals r (Example.world1 true [])
           "playlist" "spotify:user:u:playlist:1"
           {| link_type := SP_LINKTYPE_PLAYLIST;
              link_string := "spotify:user:u:playlist:1"; link_track := None |} 1).
  - left. reflexivity.
  - vm_compute. reflexivity.
  - reflexivity.
  - vm_compute. reflexivity.
  - reflexivity.
  - vm_compute. reflexivity.
Defined.

(** On the example server: DELETE /playlist/<playlist 1>. *)
Lemma router_rejects_with_one_error_witness :
  let r := Example.req 14 EVHTTP_REQ_DELETE "/playlist/spotify:user:u:playlist:1" "" in
  let w := Example.world1 true [] in
  (∃ rp, @handle_request Example.externals r w
           = Some (tt, set_replies (λ rs, rs ++ [rp]) w) ∧
         reply_request rp = r ∧ reply_code rp ∈ [400; 404; 500; 501]%Z) ∨
  (@handle_request Example.externals r w = None ∧
   (req_command r = EVHTTP_REQ_PUT ∨ req_command r = EVHTTP_REQ_POST ∨
    is_Some (strtok_slash EmptyString
               (@evhttp_decode_uri Example.externals (req_uri r)) !! 2))).
Proof.
  intros r w.
  apply (@router_rejects_with_one_error Example.externals r w). reflexivity.
Defined.

(** On the example server: GET /playlist/<playlist 1>/collaborative. *)
Lemma action_is_read_after_free_witness :
  let r := Example.req 20 EVHTTP_REQ_GET
             "/playlist/spotify:user:u:playlist:1/collaborative" "" in
  @handle_request Example.externals r (Example.world1 true []) = None.
Proof.
  intros r.
  apply (@action_is_read_after_free Example.externals r (Example.world1 true [])
           "playlist" "spotify:user:u:playlist:1" "collaborative" []
           {| link_type := SP_LINKTYPE_PLAYLIST;
              link_string := "spotify:user:u:playlist:1"; link_track := None |} 1).
  - left. reflexivity.
  - vm_compute. reflexivity.
  - reflexivity.
  - vm_compute. reflexivity.
  - reflexivity.
  - vm_compute. reflexivity.
Defined.

(** On the example server: GET /playlist/<playlist 1>. *)
Lemma only_get_playlist_is_dispatched_witness :
  @dispatch_target Example.externals Example.get_request
    = Some (1, fn_get_playlist, ud_NULL) ∧
  req_command Example.get_request = EVHTTP_REQ_GET ∧
  strtok_slash EmptyString
    (@evhttp_decode_uri Example.externals (req_uri Example.get_request)) !! 2 = None.
Proof.
  assert (Hd : @dispatch_target Example.externals Example.get_request
                 = Some (1, fn_get_playlist, ud_NULL)) by (vm_compute; reflexivity).
  destruct (@only_get_playlist_is_dispatched Example.externals _ _ _ _ Hd)
    as (Hcmd&_&_&Hact).
  split_and!; [exact Hd | exact Hcmd | exact Hact].
Defined.

(** ** Start-up and shutdown *)

Section lifecycle_facts.
Import Lifecycle.

Lemma consistent_initial : consistent [] initial.
Proof. split; simpl; try done. by intros u ?%elem_of_nil. Qed.

Lemma consistent_call cb seen st st' :
  consistent seen st → call cb st = Some st' → consistent (seen ++ [cb]) st'.
Proof.
  intros [H1 H2 H3 H4 H5 H6].
  assert (Hmono : ∀ x, x ∈ seen → x ∈ seen ++ [cb]).
  { intros x ?. apply elem_of_app. by left. }
  assert (Hnew : cb ∈ seen ++ [cb]).
  { apply elem_of_app. right. apply list_elem_of_here. }
  assert (Hkeep : consistent (seen ++ [cb]) st).
  { split; try done.
    - intros s Hs. by apply Hmono, H2.
    - intros h Hh. destruct (H3 _ Hh) as (u&n&b&?). exists u, n, b. by apply Hmono. }
  destruct Hkeep as [K1 K2 K3 K4 K5 K6].
  destruct cb as [s e|s|s|u n b| |]; simpl.
  - unfold logged_in, logged_out. case_decide as He.
    + simpl. destruct (pool_alive st); [|done]. intros [= <-]. by split.
    + intros [= <-]. assert (e = SP_ERROR_OK) as -> by (by destruct (decide (e = SP_ERROR_OK)); [|destruct He]).
      split; simpl; try done.
      * by intros s' [= <-].
      * intros _. by exists s.
      * intros u' _. by exists s.
      * intros h' _. by exists s.
  - unfold logged_out. destruct (pool_alive st); [|done]. intros [= <-]. by split.
  - intros [= <-]. by split.
  - case_decide as Hu; [|intros [= <-]; by split].
    unfold playlistcontainer_loaded. destruct n as [server|]; [|done].
    destruct (H5 _ Hu) as [s0 Hs0].
    destruct b; intros [= <-]; (split; simpl; try done;
      [intros h' _; eexists _, _, _; exact Hnew | intros h' _; by exists s0]).
  - destruct (sigint_added st) eqn:Hsig; [|intros [= <-]; split; try done; by rewrite Hsig].
    unfold sigint_handler. destruct (read (session st)); [|done].
    intros [= <-]. split; simpl; auto.
  - destruct (async_active st || timer_pending st); [|intros [= <-]; by split].
    unfold process_events. destruct (read (session st)); [|done].
    intros [= <-]. by split.
Qed.

Lemma consistent_mono seen more st :
  consistent seen st → consistent (seen ++ more) st.
Proof.
  intros [H1 H2 H3 H4 H5 H6]. split; try done.
  - intros s Hs. apply elem_of_app. left. by apply H2.
  - intros h Hh. destruct (H3 _ Hh) as (u&n&b&?). exists u, n, b.
    apply elem_of_app. by left.
Qed.

Lemma consistent_dispatch cbs : ∀ seen st st',
  consistent seen st → event_base_dispatch cbs st = Some st' →
  consistent (seen ++ cbs) st'.
Proof.
  induction cbs as [|cb rest IH]; intros seen st st' Hc; simpl.
  - intros [= <-]. by rewrite app_nil_r.
  - destruct (loop_broken st); [intros [= <-]; by apply consistent_mono|].
    destruct (call cb st) as [st1|] eqn:Ecall; [|done]. intros Hd.
    replace (seen ++ cb :: rest) with ((seen ++ [cb]) ++ rest)
      by (by rewrite <- app_assoc).
    apply (IH _ st1); [|done]. by apply (consistent_call cb seen st).
Qed.

(** X12.  The server never reports success: whatever [apr_initialize]
    and [sp_session_create] answer and whatever callbacks follow, an
    exit status that [main] returns is [EXIT_FAILURE].  [exit_status]
    starts as [EXIT_FAILURE] and nothing assigns it another value. *)
Theorem main_never_reports_success (apr_initialize_ok : bool)
    (session_create_error : Z) (cbs : list callback) (status : Z) :
  main apr_initialize_ok session_create_error cbs = Some status →
  status = EXIT_FAILURE.
Proof.
  unfold main. destruct apr_initialize_ok; simpl; [|by intros [= <-]].
  case_decide; [by intros [= <-]|].
  destruct (event_base_dispatch cbs initial) as [st|] eqn:Ed; [|done].
  destruct (read (http st)); [|done]. intros [= <-].
  by destruct (consistent_dispatch _ _ _ _ consistent_initial Ed).
Qed.

(** X13.  [main] gets through its cleanup only if the playlist
    container was loaded after a successful login: [state->http], which
    the cleanup compares with NULL, is assigned by
    [playlistcontainer_loaded] alone, and that callback is registered by
    a successful [logged_in] alone. *)
Theorem cleanup_needs_container_loaded (cbs : list callback) (status : Z) :
  main true SP_ERROR_OK cbs = Some status →
  (∃ s, Cb_logged_in s SP_ERROR_OK ∈ cbs) ∧
  (∃ u n b, Cb_container_loaded u n b ∈ cbs).
Proof.
  unfold main. cbn [negb]. case_decide as Hne; [by destruct Hne|].
  destruct (event_base_dispatch cbs initial) as [st|] eqn:Ed; [|done].
  destruct (http st) as [|h] eqn:Hh; [done|]. intros _.
  destruct (consistent_dispatch _ _ _ _ consistent_initial Ed) as [_ H2 H3 _ _ H6].
  split; [|by eapply H3].
  destruct (H6 _ Hh) as [s Hs]. exists s. by apply H2.
Qed.

(** X14.  [sigint_handler] never finds [state->session] unassigned:
    after any callbacks, as long as the loop is not broken, a SIGINT is
    handled, and where the handler runs it asks the session that logged
    in to log out. *)
Theorem sigint_handler_finds_session (cbs : list callback) (st : state) :
  event_base_dispatch cbs initial = Some st →
  loop_broken st = false →
  ∃ st', event_base_dispatch (cbs ++ [Cb_sigint]) initial = Some st' ∧
    (sigint_added st = true →
     ∃ s, Cb_logged_in s SP_ERROR_OK ∈ cbs ∧ logouts st' = logouts st ++ [s]) ∧
    (sigint_added st = false → st' = st).
Proof.
  intros Ed Hrun.
  pose proof (consistent_dispatch _ _ _ _ consistent_initial Ed) as [_ H2 _ H4 _ _].
  assert (Happ : ∀ l st0, event_base_dispatch l st0 = Some st →
            event_base_dispatch (l ++ [Cb_sigint]) st0 = call Cb_sigint st ≫= Some).
  { induction l as [|cb rest IH]; intros st0; simpl.
    - intros [= ->]. rewrite Hrun. by destruct (call Cb_sigint st).
    - destruct (loop_broken st0) eqn:Hb; [intros [= ->]; congruence|].
      destruct (call cb st0) as [st1|]; [apply IH | done]. }
  rewrite (Happ _ _ Ed). simpl.
  destruct (sigint_added st) eqn:Hs.
  - destruct (H4 eq_refl) as [s Hsess]. unfold sigint_handler. rewrite Hsess. simpl.
    eexists. split; [done|]. split; [|done]. intros _. exists s. split; [by apply H2 | done].
  - exists st. by split.
Qed.

(** X15.  [process_events] reads [state->session], which only a
    successful [logged_in] assigns: when the wake-up event is active,
    or the timer pending, and no login has succeeded yet, the call is
    undefined. *)
Theorem pump_before_login_is_undefined (cbs : list callback) (st : state) :
  event_base_dispatch cbs initial = Some st →
  loop_broken st = false →
  async_active st || timer_pending st = true →
  (∀ s, Cb_logged_in s SP_ERROR_OK ∉ cbs) →
  event_base_dispatch (cbs ++ [Cb_process_events]) initial = None.
Proof.
  intros Ed Hrun Hact Hno.
  pose proof (consistent_dispatch _ _ _ _ consistent_initial Ed) as [_ H2 _ _ _ _].
  assert (Hsess : session st = Unassigned).
  { destruct (session st) as [|s] eqn:Hs; [done|]. destruct (Hno s). by apply H2. }
  assert (Happ : ∀ l st0, event_base_dispatch l st0 = Some st →
            event_base_dispatch (l ++ [Cb_process_events]) st0 = None).
  { induction l as [|cb rest IH]; intros st0; simpl.
    - intros [= ->]. rewrite Hrun, Hact. unfold process_events. by rewrite Hsess.
    - destruct (loop_broken st0) eqn:Hb; [intros [= ->]; congruence|].
      destruct (call cb st0) as [st1|]; [apply IH | done]. }
  by apply Happ.
Qed.

End lifecycle_facts.

(** A session that logs in, loads its container, is interrupted and
    logs out. *)
Lemma main_never_reports_success_witness :
  let cbs := [Lifecycle.Cb_notify_main_thread 1;
              Lifecycle.Cb_logged_in 1 SP_ERROR_OK;
              Lifecycle.Cb_process_events;
              Lifecycle.Cb_container_loaded 1 (Some 5) true;
              Lifecycle.Cb_sigint;
              Lifecycle.Cb_logged_out 1] in
  ∃ status, Lifecycle.main true SP_ERROR_OK cbs = Some status ∧
            status = Lifecycle.EXIT_FAILURE.
Proof.
  intros cbs.
  destruct (Lifecycle.main true SP_ERROR_OK cbs) as [status|] eqn:Em;
    [|by vm_compute in Em].
  exists status. split; [reflexivity|].
  exact (main_never_reports_success _ _ _ _ Em).
Defined.

(** The same session. *)
Lemma cleanup_needs_container_loaded_witness :
  let cbs := [Lifecycle.Cb_notify_main_thread 1;
              Lifecycle.Cb_logged_in 1 SP_ERROR_OK;
              Lifecycle.Cb_process_events;
              Lifecycle.Cb_container_loaded 1 (Some 5) true;
              Lifecycle.Cb_sigint;
              Lifecycle.Cb_logged_out 1] in
  ∃ status, Lifecycle.main true SP_ERROR_OK cbs = Some status ∧
    (∃ s, Lifecycle.Cb_logged_in s SP_ERROR_OK ∈ cbs) ∧
    (∃ u n b, Lifecycle.Cb_container_loaded u n b ∈ cbs).
Proof.
  intros cbs.
  destruct (Lifecycle.main true SP_ERROR_OK cbs) as [status|] eqn:Em;
    [|by vm_compute in Em].
  exists status. split; [reflexivity|].
  exact (cleanup_needs_container_loaded _ _ Em).
Defined.

(** A SIGINT after the login. *)
Lemma sigint_handler_finds_session_witness :
  let cbs := [Lifecycle.Cb_logged_in 1 SP_ERROR_OK] in
  ∃ st st',
    Lifecycle.event_base_dispatch cbs Lifecycle.initial = Some st ∧
    Lifecycle.event_base_dispatch (cbs ++ [Lifecycle.Cb_sigint]) Lifecycle.initial
      = Some st' ∧
    (Lifecycle.sigint_added st = true →
     ∃ s, Lifecycle.Cb_logged_in s SP_ERROR_OK ∈ cbs ∧
          Lifecycle.logouts st' = Lifecycle.logouts st ++ [s]).
Proof.
  intros cbs.
  destruct (Lifecycle.event_base_dispatch cbs Lifecycle.initial) as [st|] eqn:Ed;
    [|by vm_compute in Ed].
  assert (Hrun : Lifecycle.loop_broken st = false).
  { revert Ed. vm_compute. by intros [= <-]. }
  destruct (sigint_handler_finds_session cbs st Ed Hrun) as (st'&Hd'&Hlog&_).
  exists st, st'. split_and!; [reflexivity | exact Hd' | exact Hlog].
Defined.

(** The wake-up before any login. *)
Lemma pump_before_login_is_undefined_witness :
  let cbs := [Lifecycle.Cb_notify_main_thread 1] in
  Lifecycle.event_base_dispatch (cbs ++ [Lifecycle.Cb_process_events]) Lifecycle.initial
    = None.
Proof.
  intros cbs.
  apply (pump_before_login_is_undefined cbs
           {| Lifecycle.session := Lifecycle.Unassigned;
              Lifecycle.http := Lifecycle.Unassigned;
              Lifecycle.async_active := true; Lifecycle.timer_pending := false;
              Lifecycle.sigint_added := false; Lifecycle.container_callbacks := [];
              Lifecycle.listening := false; Lifecycle.loop_broken := false;
              Lifecycle.pool_alive := true; Lifecycle.logouts := [];
              Lifecycle.exit_status := Lifecycle.EXIT_FAILURE |}).
  - reflexivity.
  - reflexivity.
  - reflexivity.
  - intros s Hin. apply list_elem_of_singleton in Hin. discriminate.
Defined.
